(** * go-teaching-game: the rule engine, the move selectors and the manager

    A shallow embedding of [backend/app/go_board.py] (class [GoBoard]), of
    [backend/app/go_ai.py] (class [AdvancedAI]), of
    [backend/app/game_manager.py] (class [GameManager]), and of the parts of
    [backend/app/deepseek_ai.py] (class [DeepSeekAI]) and of
    [backend/app.py] that the properties below are about.

    Conventions of the embedding
    - Python integers are [Z]; a cell holds 0 (empty), 1 (black) or 2 (white),
      as in the source, and the opponent of [p] is [3 - p].
    - The grid [self.board] is a list of rows, read as [board[y][x]].
    - Python [set]s of coordinates are [gset (Z * Z)]; a [frozenset] used as a
      key is the [gset] itself (equal sets are equal terms).  Where the source
      iterates over a set, the result does not depend on the order (a boolean
      "exists", a set that is built, or a write of the same value to every
      member).
    - A method that mutates [self] takes the board state and returns the new
      one; [while] loops run on fuel, and the fuel is shown to be enough.
    - A method that can raise returns [exn + A]; the dict [self.games] and
      the dicts that the manager answers with are [gmap]s over their string
      keys.
    - The [print] calls of the source are debugging output and are left out. *)

From Stdlib Require Import ssreflect ZArith QArith Lia DecimalString.
From stdpp Require Import gmap list strings.

Set Warnings "-rewrite-rw,-clear-no-such-hyp".
Open Scope general_if_scope.
Open Scope Z_scope.

(* ===================================================================== *)
(** * The rule engine ([go_board.py], class [GoBoard]) *)
(* ===================================================================== *)

(** Coordinates are pairs [(x, y)]; the grid is a list of rows. *)
Abbreviation pos := (Z * Z)%type.
Abbreviation grid := (list (list Z)).

(** One entry of [move_history]: the dict
    [{'x': .., 'y': .., 'player': .., 'captured': ..}]. *)
Record Move := mkMove {
  mv_x : Z;
  mv_y : Z;
  mv_player : Z;
  mv_captured : Z
}.

(** The attributes of a [GoBoard] object. *)
Record GoBoard := mkGoBoard {
  size : Z;
  board : grid;
  current_player : Z;
  move_history : list Move;
  captured_black : Z;
  captured_white : Z;
  ko_point : option pos;
  last_move : option pos
}.

(** [range(n)] of Python. *)
Definition range (n : Z) : list Z := Z.of_nat <$> seq 0 (Z.to_nat n).

(** [GoBoard.__init__]. *)
Definition init (sz : Z) : GoBoard :=
  {| size := sz;
     board := (λ _, (λ _, 0) <$> range sz) <$> range sz;
     current_player := 1;
     move_history := [];
     captured_black := 0;
     captured_white := 0;
     ko_point := None;
     last_move := None |}.

(** [board[y][x]].  Every read in the functions below is behind the source's
    own test [0 <= x < self.size and 0 <= y < self.size], or at a coordinate
    its caller has tested, so on a grid of [size] rows of [size] cells no read
    is out of range. *)
Definition cell (b : grid) (x y : Z) : Z :=
  default 0 (b !! Z.to_nat y ≫= lookup (Z.to_nat x)).

(** [board[y][x] = v]. *)
Definition set_cell (b : grid) (x y v : Z) : grid :=
  alter (λ row, <[Z.to_nat x := v]> row) (Z.to_nat y) b.

(** [0 <= x < self.size and 0 <= y < self.size]. *)
Definition in_bounds (sz x y : Z) : bool :=
  bool_decide (0 ≤ x < sz ∧ 0 ≤ y < sz).

Definition directions : list pos := [(0, 1); (0, -1); (1, 0); (-1, 0)].

(** The [while stack:] loop of [_get_group_at].  The head of [stack] is the
    element that [stack.pop()] returns; the four neighbours are appended in
    the order of [directions], so the last one ends on top. *)
Fixpoint group_loop (fuel : nat) (sz : Z) (b : grid) (player : Z)
    (stack : list pos) (group : gset pos) : option (gset pos) :=
  match fuel with
  | O => None
  | S fuel' =>
    match stack with
    | [] => Some group
    | (cx, cy) :: rest =>
      if bool_decide ((cx, cy) ∈ group) then
        group_loop fuel' sz b player rest group
      else if negb (in_bounds sz cx cy) then
        group_loop fuel' sz b player rest group
      else if negb (bool_decide (cell b cx cy = player)) then
        group_loop fuel' sz b player rest group
      else
        let group' := group ∪ {[ (cx, cy) ]} in
        let pushed :=
          filter (λ n, n ∉ group')
                 ((λ d : pos, (cx + d.1, cy + d.2)) <$> directions) in
        group_loop fuel' sz b player (reverse pushed ++ rest) group'
    end
  end.

(** Every stone enters the group once and pushes at most four cells. *)
Definition group_fuel (sz : Z) : nat := Z.to_nat (4 * (sz * sz) + 2).

(** [_get_group_at(board, x, y, player)]. *)
Definition _get_group_at (sz : Z) (b : grid) (x y player : Z) : gset pos :=
  if negb (bool_decide (cell b x y = player)) then ∅
  else default ∅ (group_loop (group_fuel sz) sz b player [(x, y)] ∅).

(** [_group_has_liberty_excluding(board, group, player, exclude_x, exclude_y)]. *)
Definition _group_has_liberty_excluding (sz : Z) (b : grid) (group : gset pos)
    (player exclude_x exclude_y : Z) : bool :=
  existsb (λ g : pos,
    existsb (λ d : pos,
      let nx := g.1 + d.1 in
      let ny := g.2 + d.2 in
      if bool_decide ((nx, ny) = (exclude_x, exclude_y)) then false
      else in_bounds sz nx ny && bool_decide (cell b nx ny = 0))
    directions)
  (elements group).

(** [_group_has_liberty(board, group, player)]. *)
Definition _group_has_liberty (sz : Z) (b : grid) (group : gset pos)
    (player : Z) : bool :=
  existsb (λ g : pos,
    existsb (λ d : pos,
      let nx := g.1 + d.1 in
      let ny := g.2 + d.2 in
      in_bounds sz nx ny && bool_decide (cell b nx ny = 0))
    directions)
  (elements group).

(** [_has_any_liberty(board, x, y, player)]. *)
Definition _has_any_liberty (sz : Z) (b : grid) (x y player : Z) : bool :=
  let group := _get_group_at sz b x y player in
  _group_has_liberty sz b group player.

(** [_can_capture_anything(board, x, y, opponent)]. *)
Definition _can_capture_anything (sz : Z) (b : grid) (x y opponent : Z) : bool :=
  existsb (λ d : pos,
    let nx := x + d.1 in
    let ny := y + d.2 in
    in_bounds sz nx ny
    && bool_decide (cell b nx ny = opponent)
    && negb (_group_has_liberty_excluding sz b
               (_get_group_at sz b nx ny opponent) opponent x y))
  directions.

(** [_count_liberties_of_group(board, group)]. *)
Definition _count_liberties_of_group (sz : Z) (b : grid) (group : gset pos) : Z :=
  let liberties : gset pos :=
    list_to_set
      (g ← elements group;
       filter (λ n : pos, in_bounds sz n.1 n.2 = true ∧ cell b n.1 n.2 = 0)
              ((λ d : pos, (g.1 + d.1, g.2 + d.2)) <$> directions)) in
  Z.of_nat (base.size liberties).

(** [is_valid_move(x, y)]. *)
Definition is_valid_move (s : GoBoard) (x y : Z) : bool :=
  if negb (in_bounds (size s) x y) then false
  else if negb (bool_decide (cell (board s) x y = 0)) then false
  else if bool_decide (ko_point s = Some (x, y)) then false
  else
    let temp_board := set_cell (board s) x y (current_player s) in
    let opponent := 3 - current_player s in
    let can_capture :=
      _can_capture_anything (size s) temp_board x y opponent in
    if negb can_capture then
      if negb (_has_any_liberty (size s) temp_board x y (current_player s))
      then false
      else true
    else true.

(** One round of the [for dx, dy in directions] loop of
    [_find_and_capture_stones]; the state is [(all_captured, checked_groups)]. *)
Definition capture_step (sz : Z) (b : grid) (x y opponent : Z)
    (st : gset pos * gset (gset pos)) (d : pos) : gset pos * gset (gset pos) :=
  let nx := x + d.1 in
  let ny := y + d.2 in
  if negb (in_bounds sz nx ny) then st
  else if negb (bool_decide (cell b nx ny = opponent)) then st
  else if bool_decide ((nx, ny) ∈ st.1) then st
  else
    let opponent_group := _get_group_at sz b nx ny opponent in
    if bool_decide (opponent_group ∈ st.2) then st
    else
      let checked_groups := st.2 ∪ {[ opponent_group ]} in
      let has_liberty :=
        _group_has_liberty_excluding sz b opponent_group opponent x y in
      if negb has_liberty then (st.1 ∪ opponent_group, checked_groups)
      else (st.1, checked_groups).

(** The stones that [_find_and_capture_stones] collects in [all_captured]. *)
Definition captured_set (sz : Z) (b : grid) (x y opponent : Z) : gset pos :=
  (foldl (capture_step sz b x y opponent) (∅, ∅) directions).1.

(** [for cx, cy in all_captured: self.board[cy][cx] = 0]. *)
Definition remove_stones (b : grid) (cs : list pos) : grid :=
  foldl (λ b' c, set_cell b' c.1 c.2 0) b cs.

(** [_find_and_capture_stones(x, y, opponent)]: the captured set and the
    grid after the removal. *)
Definition _find_and_capture_stones (sz : Z) (b : grid) (x y opponent : Z)
    : gset pos * grid :=
  let all_captured := captured_set sz b x y opponent in
  (all_captured, remove_stones b (elements all_captured)).

(** [str(n)] for the counts printed in messages. *)
Definition str (n : Z) : string := NilZero.string_of_int (Z.to_int n).

(** [place_stone(x, y)]: the returned pair and the state afterwards. *)
Definition place_stone (s : GoBoard) (x y : Z) : (bool * string) * GoBoard :=
  if negb (is_valid_move s x y) then ((false, "无效的落子位置"), s)
  else
    let b1 := set_cell (board s) x y (current_player s) in
    let opponent := 3 - current_player s in
    let '(captured, b2) :=
      _find_and_capture_stones (size s) b1 x y opponent in
    let captured_count := Z.of_nat (base.size captured) in
    let has_captured := negb (bool_decide (captured = ∅)) in
    let captured_black' :=
      if has_captured && bool_decide (current_player s = 1)
      then captured_black s + captured_count else captured_black s in
    let captured_white' :=
      if has_captured && negb (bool_decide (current_player s = 1))
      then captured_white s + captured_count else captured_white s in
    let ko_point' :=
      if has_captured && bool_decide (captured_count = 1) then
        let my_group := _get_group_at (size s) b2 x y (current_player s) in
        if bool_decide (_count_liberties_of_group (size s) b2 my_group = 1)
        then head (elements captured)
        else None
      else None in
    ((true, "落子成功，提子" +:+ str captured_count +:+ "颗"),
     {| size := size s;
        board := b2;
        current_player := opponent;
        move_history :=
          move_history s ++ [mkMove x y (current_player s) captured_count];
        captured_black := captured_black';
        captured_white := captured_white';
        ko_point := ko_point';
        last_move := Some (x, y) |}).

(** [pass_move()]. *)
Definition pass_move (s : GoBoard) : GoBoard :=
  {| size := size s;
     board := board s;
     current_player := 3 - current_player s;
     move_history :=
       move_history s ++ [mkMove (-1) (-1) (current_player s) 0];
     captured_black := captured_black s;
     captured_white := captured_white s;
     ko_point := None;
     last_move := last_move s |}.

(** [get_valid_moves()]: [for y in range(size): for x in range(size)]. *)
Definition get_valid_moves (s : GoBoard) : list pos :=
  y ← range (size s);
  x ← range (size s);
  if is_valid_move s x y then [(x, y)] else [].

(** [is_game_over()]. *)
Definition is_game_over (s : GoBoard) : bool :=
  match rev (move_history s) with
  | m1 :: m2 :: _ => bool_decide (mv_x m1 = -1) && bool_decide (mv_x m2 = -1)
  | _ => false
  end.

(** [row.count(v)]. *)
Definition row_count (v : Z) (row : list Z) : nat :=
  length (filter (λ c, c = v) row).

(** [sum(row.count(v) for row in self.board)], as in
    [_find_and_capture_stones]. *)
Definition count_stones (v : Z) (b : grid) : Z :=
  Z.of_nat (sum_list (row_count v <$> b)).

(** The [while stack:] loop of [_get_territory_owner]; the state is
    [(visited, touches_black, touches_white)].  ([empty_region] is filled by
    the source but never read.) *)
Fixpoint territory_loop (fuel : nat) (sz : Z) (b : grid) (stack : list pos)
    (st : gset pos * bool * bool) : option (gset pos * bool * bool) :=
  match fuel with
  | O => None
  | S fuel' =>
    match stack with
    | [] => Some st
    | (cx, cy) :: rest =>
      let '(visited, touches_black, touches_white) := st in
      if bool_decide ((cx, cy) ∈ visited) then
        territory_loop fuel' sz b rest st
      else
        let visited' := visited ∪ {[ (cx, cy) ]} in
        if negb (in_bounds sz cx cy) then
          territory_loop fuel' sz b rest (visited', touches_black, touches_white)
        else
          let cell_value := cell b cx cy in
          if bool_decide (cell_value = 1) then
            territory_loop fuel' sz b rest (visited', true, touches_white)
          else if bool_decide (cell_value = 2) then
            territory_loop fuel' sz b rest (visited', touches_black, true)
          else
            territory_loop fuel' sz b
              (reverse ((λ d : pos, (cx + d.1, cy + d.2)) <$> directions) ++ rest)
              (visited', touches_black, touches_white)
    end
  end.

(** [_get_territory_owner(x, y)]. *)
Definition _get_territory_owner (s : GoBoard) (x y : Z) : Z :=
  if negb (bool_decide (cell (board s) x y = 0)) then 0
  else
    match territory_loop (group_fuel (size s)) (size s) (board s) [(x, y)]
            (∅, false, false) with
    | Some (_, touches_black, touches_white) =>
      if touches_black && negb touches_white then 1
      else if touches_white && negb touches_black then 2
      else 0
    | None => 0
    end.

(** The body of the two [for] loops of [get_score] at one cell. *)
Definition score_cell (s : GoBoard) (acc : Z * Q) (x y : Z) : Z * Q :=
  let '(black_score, white_score) := acc in
  if bool_decide (cell (board s) x y = 1) then (black_score + 1, white_score)
  else if bool_decide (cell (board s) x y = 2) then
    (black_score, (white_score + 1)%Q)
  else
    let territory := _get_territory_owner s x y in
    if bool_decide (territory = 1) then (black_score + 1, white_score)
    else if bool_decide (territory = 2) then (black_score, (white_score + 1)%Q)
    else (black_score, white_score).

(** [get_score()].  The white score starts from [captured_white + 6.5]; the
    sums stay half-integers, which binary floating point holds exactly. *)
Definition get_score (s : GoBoard) : Z * Q :=
  foldl (λ acc y, foldl (λ acc x, score_cell s acc x y) acc (range (size s)))
        (captured_black s, (inject_Z (captured_white s) + 6.5)%Q)
        (range (size s)).

(* ===================================================================== *)
(** * The move selector ([go_ai.py], class [AdvancedAI]) *)
(* ===================================================================== *)

Module AdvancedAI.

(** The attributes that [AdvancedAI.__init__] stores.  [self.board] is a
    reference to the live [GoBoard]: every method below takes the board's
    current state as an argument, while [move_count] and [game_phase] are
    the values stored at construction. *)
Record AdvancedAI := mkAI {
  player : Z;
  difficulty : string;
  opponent : Z;
  move_count : Z;
  game_phase : string
}.

(** [_determine_game_phase()], as a function of [self.move_count]. *)
Definition _determine_game_phase (move_count : Z) : string :=
  if bool_decide (move_count < 40) then "opening"
  else if bool_decide (move_count < 120) then "middlegame"
  else "endgame".

(** [AdvancedAI.__init__(board, player, difficulty)]. *)
Definition new (b : GoBoard) (player : Z) (difficulty : string) : AdvancedAI :=
  let move_count := Z.of_nat (length (move_history b)) in
  {| player := player;
     difficulty := difficulty;
     opponent := 3 - player;
     move_count := move_count;
     game_phase := _determine_game_phase move_count |}.

(** [create_ai(board, player, difficulty)]. *)
Definition create_ai (b : GoBoard) (player : Z) (difficulty : string) : AdvancedAI :=
  new b player difficulty.

(** What a method can raise. *)
Inductive exn := NameError | TypeError | IndexError.

(** A computation that returns or raises. *)
Definition result (A : Type) : Type := exn + A.

Definition ret {A} (a : A) : result A := inr a.

Definition raise {A} (e : exn) : result A := inl e.

Definition bind {A B} (m : result A) (k : A → result B) : result B :=
  match m with
  | inl e => inl e
  | inr a => k a
  end.

(** [sep.join(l)]. *)
Fixpoint join (sep : string) (l : list string) : string :=
  match l with
  | [] => ""
  | [a] => a
  | a :: l' => a +:+ sep +:+ join sep l'
  end.

(** The stone on [(x, y)] if the coordinate is in range. *)
Definition stone (b : GoBoard) (x y : Z) : option Z :=
  if in_bounds (size b) x y then Some (cell (board b) x y) else None.

(** The number of in-range cells among [ps], shifted to [(x, y)], that hold
    colour [c]. *)
Definition count_around (b : GoBoard) (x y c : Z) (ps : list pos) : Z :=
  Z.of_nat (length (filter (λ d : pos, stone b (x + d.1) (y + d.2) = Some c) ps)).

Definition diagonals : list pos := [(1, 1); (1, -1); (-1, 1); (-1, -1)].

(** [_is_corner_star(x, y)]. *)
Definition _is_corner_star (b : GoBoard) (x y : Z) : bool :=
  if bool_decide (size b = 19) then
    bool_decide ((x, y) ∈ [(3, 3); (3, 15); (15, 3); (15, 15)])
  else if bool_decide (size b = 13) then
    bool_decide ((x, y) ∈ [(3, 3); (3, 9); (9, 3); (9, 9)])
  else false.

(** [_is_side_star(x, y)]. *)
Definition _is_side_star (b : GoBoard) (x y : Z) : bool :=
  if bool_decide (size b = 19) then
    bool_decide ((x, y) ∈ [(9, 3); (9, 15); (3, 9); (15, 9)])
  else if bool_decide (size b = 13) then
    bool_decide ((x, y) ∈ [(6, 3); (6, 9); (3, 6); (9, 6)])
  else false.

(** [_is_good_opening_point(x, y)]. *)
Definition _is_good_opening_point (b : GoBoard) (x y : Z) : bool :=
  if bool_decide (size b = 19) then
    bool_decide ((x, y) ∈ [(2, 3); (3, 2); (2, 15); (15, 2); (16, 3);
                           (3, 16); (16, 15); (15, 16)])
  else false.

(** [range(lo, hi)] of Python. *)
Definition range_from (lo hi : Z) : list Z := (λ i, lo + i) <$> range (hi - lo).

(** The offsets [(dx, dy)] with both coordinates in [-r .. r], in the order
    of [for dx in range(-r, r + 1): for dy in range(-r, r + 1)]. *)
Definition window (r : Z) : list pos :=
  dx ← range_from (- r) (r + 1); dy ← range_from (- r) (r + 1); [(dx, dy)].

(** [_near_enemy_stones(x, y, distance)]. *)
Definition _near_enemy_stones (ai : AdvancedAI) (b : GoBoard) (x y distance : Z) : bool :=
  existsb (λ d : pos, bool_decide (stone b (x + d.1) (y + d.2) = Some (opponent ai)))
          (window distance).

(** [_makes_good_shape(x, y)]. *)
Definition _makes_good_shape (ai : AdvancedAI) (b : GoBoard) (x y : Z) : bool :=
  let friendly := count_around b x y (player ai) directions in
  bool_decide (2 ≤ friendly).

(** [_makes_bad_shape(x, y)]. *)
Definition _makes_bad_shape (ai : AdvancedAI) (b : GoBoard) (x y : Z) : bool :=
  let friendly_count := count_around b x y (player ai) directions in
  let diagonal_count := count_around b x y (player ai) diagonals in
  bool_decide (friendly_count = 2) && bool_decide (1 ≤ diagonal_count).

(** [_calculate_efficiency(x, y)]: for each radius 1, 2, 3 the stones in the
    window, the mover's at weight 1 and the opponent's at weight 0.5, divided
    by the radius. *)
Definition _calculate_efficiency (ai : AdvancedAI) (b : GoBoard) (x y : Z) : Q :=
  foldl (λ efficiency r,
           let influence_count :=
             (inject_Z (count_around b x y (player ai) (window r))
              + 0.5 * inject_Z (count_around b x y (opponent ai) (window r)))%Q in
           (efficiency + influence_count / inject_Z r)%Q)
        0%Q (range_from 1 4).

(** [a > b] on scores. *)
Definition Qgtb (a b : Q) : bool := negb (Qle_bool a b).

(** [_evaluate_shape(x, y)].  The last [return] formats [effiveness], a name
    that is bound nowhere: reaching it raises [NameError]. *)
Definition _evaluate_shape (ai : AdvancedAI) (b : GoBoard) (x y : Z)
    : result (Q * string) :=
  if _makes_good_shape ai b x y then ret (15%Q, "好形")
  else if _makes_bad_shape ai b x y then ret ((-15)%Q, "愚形(避免)")
  else
    let efficiency := _calculate_efficiency ai b x y in
    if Qgtb efficiency 12 then raise NameError
    else ret (efficiency, "").


(** [_count_endgame_value(x, y)]. *)
Definition _count_endgame_value (ai : AdvancedAI) (b : GoBoard) (x y : Z) : Z :=
  let value := 5 in
  let edge_dist := Z.min (Z.min x y) (Z.min (size b - 1 - x) (size b - 1 - y)) in
  let value := if bool_decide (edge_dist ≤ 2) then value + 5 else value in
  value + 3 * count_around b x y (player ai) directions.

(** [_evaluate_position_advanced(x, y)].  The phase is [self.game_phase]. *)
Definition _evaluate_position_advanced (ai : AdvancedAI) (b : GoBoard) (x y : Z)
    : Q * string :=
  if bool_decide (game_phase ai = "opening") then
    if _is_corner_star b x y then (25%Q, "占据星位")
    else if _is_side_star b x y then (20%Q, "边星位")
    else if _is_good_opening_point b x y then (18%Q, "好点")
    else
      let line := Z.min (Z.min x y) (Z.min (size b - 1 - x) (size b - 1 - y)) in
      if bool_decide (2 ≤ line ≤ 4) then (12%Q, "第三、四线")
      else if bool_decide (4 < line) then ((-5)%Q, "")
      else (0%Q, "")
  else if bool_decide (game_phase ai = "middlegame") then
    let center_dist := Z.abs (x - size b / 2) + Z.abs (y - size b / 2) in
    let v := (15 - inject_Z center_dist * 0.5)%Q in
    let score := if Qgtb v 0 then v else 0%Q in
    if _near_enemy_stones ai b x y 2 then ((score + 15)%Q, "接近战斗")
    else (score, "")
  else if bool_decide (game_phase ai = "endgame") then
    let territory_value := _count_endgame_value ai b x y in
    if bool_decide (10 < territory_value) then
      (inject_Z territory_value, "官子价值" +:+ str territory_value +:+ "目")
    else (inject_Z territory_value, "")
  else (0%Q, "").

(** [_calculate_thickness(x, y)]. *)
Definition _calculate_thickness (ai : AdvancedAI) (b : GoBoard) (x y : Z) : Q :=
  foldl (λ thickness (d : pos),
           if bool_decide (d = (0, 0)) then thickness
           else if bool_decide (stone b (x + d.1) (y + d.2) = Some (player ai)) then
             let dist := Z.max (Z.abs d.1) (Z.abs d.2) in
             (thickness + inject_Z (4 - dist) / 2)%Q
           else thickness)
        0%Q (window 3).

(** [_keeps_initiative(x, y)]. *)
Definition _keeps_initiative (ai : AdvancedAI) (b : GoBoard) (x y : Z) : bool :=
  _near_enemy_stones ai b x y 1.

(** [_evaluate_influence(x, y)]. *)
Definition _evaluate_influence (ai : AdvancedAI) (b : GoBoard) (x y : Z) : Q * string :=
  let thickness := _calculate_thickness ai b x y in
  let score := thickness in
  if _keeps_initiative ai b x y then
    let score := (score + 12)%Q in
    ((score + thickness)%Q, "保持先手")
  else (score, "").

(** [_can_connect(x, y)]. *)
Definition _can_connect (ai : AdvancedAI) (b : GoBoard) (x y : Z) : bool :=
  bool_decide (2 ≤ count_around b x y (player ai) directions).

(** [_is_ladder(x, y)]. *)
Definition _is_ladder (ai : AdvancedAI) (b : GoBoard) (x y : Z) : bool := false.

(** [_format_explanation(x, y, analyses)]. *)
Definition _format_explanation (x y : Z) (analyses : list string) : string :=
  match analyses with
  | [] =>
    "选择 (" +:+ str (x + 1) +:+ "," +:+ str (y + 1)
    +:+ ")：经过综合分析，这是当前最佳选择"
  | main_analysis :: _ =>
    "选择 (" +:+ str (x + 1) +:+ "," +:+ str (y + 1) +:+ ")："
    +:+ String (Ascii.ascii_of_nat 10) "  • " +:+ main_analysis
  end.

(** The helpers that read groups off the board ([_get_group] and
    [_get_group_board], and [_can_capture_stones], [_can_save_stones],
    [_will_be_captured], [_can_cut] and [_estimate_territory_control], which
    are built on them) return a value and raise nothing; they are taken as
    given, together with the [random] module: [random h k] is the value of
    the [k]-th call of [random.random()], and [choice h k l] that of
    [random.choice(l)] made as the [k]-th draw.  What is proved below holds
    whatever they return. *)
Record helpers := mkHelpers {
  _can_capture_stones : AdvancedAI → GoBoard → Z → Z → bool * Z;
  _can_save_stones : AdvancedAI → GoBoard → Z → Z → bool * Z;
  _will_be_captured : AdvancedAI → GoBoard → Z → Z → bool;
  _can_cut : AdvancedAI → GoBoard → Z → Z → bool;
  _estimate_territory_control : AdvancedAI → GoBoard → Z → Z → Z;
  random : nat → Q;
  choice : nat → list pos → pos
}.

(** [_evaluate_tactical(x, y)]. *)
Definition _evaluate_tactical (h : helpers) (ai : AdvancedAI) (b : GoBoard) (x y : Z) : Q * string :=
  let '(can_capture, capture_count) := _can_capture_stones h ai b x y in
  let '(score, reasons) :=
    if can_capture
    then (inject_Z (30 + capture_count * 5),
          ["可提吃" +:+ str capture_count +:+ "子"])
    else (0%Q, []) in
  let '(can_save, save_count) := _can_save_stones h ai b x y in
  let '(score, reasons) :=
    if can_save
    then ((score + inject_Z (25 + save_count * 3))%Q,
          reasons ++ ["救回" +:+ str save_count +:+ "子"])
    else (score, reasons) in
  let '(score, reasons) :=
    if _will_be_captured h ai b x y
    then ((score - 50)%Q, reasons ++ ["会被提吃"]) else (score, reasons) in
  let '(score, reasons) :=
    if _can_cut h ai b x y
    then ((score + 20)%Q, reasons ++ ["切断对方"]) else (score, reasons) in
  let '(score, reasons) :=
    if _can_connect ai b x y
    then ((score + 15)%Q, reasons ++ ["连接己方"]) else (score, reasons) in
  let '(score, reasons) :=
    if _is_ladder ai b x y
    then ((score - 30)%Q, reasons ++ ["会被征吃"]) else (score, reasons) in
  (score, join "、" reasons).

(** [_evaluate_territory(x, y)]. *)
Definition _evaluate_territory (h : helpers) (ai : AdvancedAI) (b : GoBoard) (x y : Z) : Q * string :=
  let territory := _estimate_territory_control h ai b x y in
  (inject_Z territory, "控制" +:+ str territory +:+ "目").

(** [_evaluate_move_deep(x, y)]. *)
Definition _evaluate_move_deep (h : helpers) (ai : AdvancedAI) (b : GoBoard) (x y : Z)
    : result (Q * string) :=
  let '(tactical_score, tactical_reason) := _evaluate_tactical h ai b x y in
  let score := (0 + tactical_score * 2.5)%Q in
  let reasons := if Qgtb tactical_score 10 then [tactical_reason] else [] in
  let '(position_score, position_reason) := _evaluate_position_advanced ai b x y in
  let score := (score + position_score * 1.5)%Q in
  let reasons :=
    if Qgtb position_score 15 then reasons ++ [position_reason] else reasons in
  bind (_evaluate_shape ai b x y) (λ '(shape_score, shape_reason),
  let score := (score + shape_score * 1.2)%Q in
  let reasons :=
    if Qgtb shape_score 10 then reasons ++ [shape_reason] else reasons in
  let '(influence_score, influence_reason) := _evaluate_influence ai b x y in
  let score := (score + influence_score)%Q in
  let reasons :=
    if Qgtb influence_score 8 then reasons ++ [influence_reason] else reasons in
  let '(territory_score, territory_reason) := _evaluate_territory h ai b x y in
  let score := (score + territory_score)%Q in
  let reasons :=
    if Qgtb territory_score 8 then reasons ++ [territory_reason] else reasons in
  let analysis :=
    match reasons with
    | [] => "(" +:+ str (x + 1) +:+ "," +:+ str (y + 1) +:+ ") 综合评估"
    | _ => "(" +:+ str (x + 1) +:+ "," +:+ str (y + 1) +:+ ") "
           +:+ join "、" (take 3 reasons)
    end in
  ret (score, analysis)).

(** The loop of [_get_move_advanced] from the [k]-th draw on; the state is
    [(best_score, best_move, analyses)], with [None] for [-inf] and for the
    [best_move] that is not set yet. *)
Fixpoint advanced_loop (h : helpers) (ai : AdvancedAI) (b : GoBoard) (k : nat)
    (moves : list pos) (st : option Q * option pos * list string)
    : result (option Q * option pos * list string) :=
  match moves with
  | [] => ret st
  | (x, y) :: rest =>
    bind (_evaluate_move_deep h ai b x y) (λ '(score, analysis),
    let score := (score + random h k * 0.5)%Q in
    let '(best_score, best_move, analyses) := st in
    let better :=
      match best_score with None => true | Some bs => Qgtb score bs end in
    let close :=
      match best_score with None => true | Some bs => Qgtb score (bs - 2) end in
    let st' :=
      if better then (Some score, Some (x, y), [analysis])
      else if close then (best_score, best_move, analyses ++ [analysis])
      else st in
    advanced_loop h ai b (S k) rest st')
  end.

(** [_get_move_advanced(valid_moves)]. *)
Definition _get_move_advanced (h : helpers) (ai : AdvancedAI) (b : GoBoard)
    (valid_moves : list pos) : result (Z * Z * string) :=
  bind (advanced_loop h ai b 0 valid_moves (None, None, []))
       (λ '(_, best_move, analyses),
  match best_move with
  | None => raise TypeError
  | Some (x, y) => ret (x, y, _format_explanation x y (take 3 analyses))
  end).

(** The loop of [_get_move_medium]; the state is [(best_score, best_move)]. *)
Fixpoint medium_loop (h : helpers) (ai : AdvancedAI) (b : GoBoard) (k : nat)
    (moves : list pos) (st : option Q * pos) : option Q * pos :=
  match moves with
  | [] => st
  | (x, y) :: rest =>
    let score := 0%Q in
    let score := if (_can_capture_stones h ai b x y).1 then (score + 25)%Q else score in
    let score := if (_can_save_stones h ai b x y).1 then (score + 20)%Q else score in
    let score := if _will_be_captured h ai b x y then (score - 40)%Q else score in
    let score := if _can_cut h ai b x y then (score + 15)%Q else score in
    let score := if _can_connect ai b x y then (score + 12)%Q else score in
    let position_score := (_evaluate_position_advanced ai b x y).1 in
    let score := (score + position_score * 0.8)%Q in
    let score := (score + random h k * 3)%Q in
    let better :=
      match st.1 with None => true | Some bs => Qgtb score bs end in
    medium_loop h ai b (S k) rest (if better then (Some score, (x, y)) else st)
  end.

(** [_get_move_medium(valid_moves)]. *)
Definition _get_move_medium (h : helpers) (ai : AdvancedAI) (b : GoBoard)
    (valid_moves : list pos) : result (Z * Z * string) :=
  match valid_moves with
  | [] => raise IndexError
  | first :: _ =>
    let '(x, y) := (medium_loop h ai b 0 valid_moves (None, first)).2 in
    ret (x, y, "选择 (" +:+ str (x + 1) +:+ "," +:+ str (y + 1)
               +:+ ")：综合评估后的最佳选择")
  end.

(** The loop of [_get_move_simple]. *)
Fixpoint simple_loop (h : helpers) (ai : AdvancedAI) (b : GoBoard) (k : nat)
    (moves : list pos) (st : option Q * pos) : option Q * pos :=
  match moves with
  | [] => st
  | (x, y) :: rest =>
    let score := 0%Q in
    let score := if (_can_capture_stones h ai b x y).1 then (score + 20)%Q else score in
    let score := if (_can_save_stones h ai b x y).1 then (score + 15)%Q else score in
    let score := if _will_be_captured h ai b x y then (score - 30)%Q else score in
    let score :=
      if bool_decide (game_phase ai = "opening")
         && (_is_corner_star b x y || _is_side_star b x y)
      then (score + 15)%Q else score in
    let score := (score + random h k * 5)%Q in
    let better :=
      match st.1 with None => true | Some bs => Qgtb score bs end in
    simple_loop h ai b (S k) rest (if better then (Some score, (x, y)) else st)
  end.

(** [_get_move_simple(valid_moves)]. *)
Definition _get_move_simple (h : helpers) (ai : AdvancedAI) (b : GoBoard)
    (valid_moves : list pos) : result (Z * Z * string) :=
  if Qgtb 0.3 (random h 0) then
    let '(x, y) := choice h 1 valid_moves in
    ret (x, y, "选择 (" +:+ str (x + 1) +:+ "," +:+ str (y + 1)
               +:+ ")：尝试这个位置")
  else
    match valid_moves with
    | [] => raise IndexError
    | first :: _ =>
      let '(x, y) := (simple_loop h ai b 1 valid_moves (None, first)).2 in
      ret (x, y, "选择 (" +:+ str (x + 1) +:+ "," +:+ str (y + 1)
                 +:+ ")：这步棋看起来不错")
    end.

(** [get_move()]. *)
Definition get_move (h : helpers) (ai : AdvancedAI) (b : GoBoard) : result (Z * Z * string) :=
  let valid_moves := get_valid_moves b in
  match valid_moves with
  | [] => ret (-1, -1, "没有合法的落子位置，选择虚着")
  | _ =>
    if bool_decide (difficulty ai = "easy") then _get_move_simple h ai b valid_moves
    else if bool_decide (difficulty ai = "hard") then _get_move_advanced h ai b valid_moves
    else _get_move_medium h ai b valid_moves
  end.


End AdvancedAI.

(* ===================================================================== *)
(** * The group helpers of the move selector ([go_ai.py]) *)
(* ===================================================================== *)

Module Tactical.

Import AdvancedAI.

(** The [while stack:] loop of [_get_group_board] and of [_get_group]; the
    state is [(group, visited)].  Unlike [_get_group_at] it marks every
    popped coordinate in [visited] and pushes the four neighbours unfiltered. *)
Fixpoint group_board_loop (fuel : nat) (sz : Z) (b : grid) (player : Z)
    (stack : list pos) (st : gset pos * gset pos) : option (gset pos) :=
  match fuel with
  | O => None
  | S fuel' =>
    match stack with
    | [] => Some st.1
    | (cx, cy) :: rest =>
      let '(group, visited) := st in
      if bool_decide ((cx, cy) ∈ visited) then
        group_board_loop fuel' sz b player rest st
      else
        let visited' := visited ∪ {[ (cx, cy) ]} in
        if in_bounds sz cx cy && bool_decide (cell b cx cy = player) then
          group_board_loop fuel' sz b player
            (reverse ((λ d : pos, (cx + d.1, cy + d.2)) <$> directions) ++ rest)
            (group ∪ {[ (cx, cy) ]}, visited')
        else
          group_board_loop fuel' sz b player rest (group, visited')
    end
  end.

(** [_get_group_board(board, x, y, player)], with [sz] for
    [self.board.size]. *)
Definition _get_group_board (sz : Z) (b : grid) (x y player : Z) : gset pos :=
  default ∅ (group_board_loop (group_fuel sz) sz b player [(x, y)] (∅, ∅)).

(** [_get_group(x, y, player)]: the same loop, on [self.board.board]. *)
Definition _get_group (b : GoBoard) (x y player : Z) : gset pos :=
  default ∅ (group_board_loop (group_fuel (size b)) (size b) (board b) player
               [(x, y)] (∅, ∅)).

(** [_has_liberty_board(board, x, y, player)]. *)
Definition _has_liberty_board (sz : Z) (b : grid) (x y player : Z) : bool :=
  let group := _get_group_board sz b x y player in
  existsb (λ g : pos,
    existsb (λ d : pos,
      let nx := g.1 + d.1 in
      let ny := g.2 + d.2 in
      in_bounds sz nx ny && bool_decide (cell b nx ny = 0))
    directions)
  (elements group).

(** [_count_group_liberties_board(x, y, player)]. *)
Definition _count_group_liberties_board (b : GoBoard) (x y player : Z) : Z :=
  let group := _get_group b x y player in
  let liberties : gset pos :=
    list_to_set
      (g ← elements group;
       filter (λ n : pos,
                 in_bounds (size b) n.1 n.2 = true ∧ cell (board b) n.1 n.2 = 0)
              ((λ d : pos, (g.1 + d.1, g.2 + d.2)) <$> directions)) in
  Z.of_nat (base.size liberties).

(** [_can_capture_stones(x, y)].  [captured] is a list: a group that touches
    [(x, y)] from two sides is appended twice.  The write
    [temp_board[y][x] = self.player] is in range at every call: the callers
    pass members of [valid_moves]. *)
Definition _can_capture_stones (ai : AdvancedAI) (b : GoBoard) (x y : Z)
    : bool * Z :=
  let temp_board := set_cell (board b) x y (player ai) in
  let captured : list pos :=
    d ← directions;
    let nx := x + d.1 in
    let ny := y + d.2 in
    if in_bounds (size b) nx ny
       && bool_decide (cell temp_board nx ny = opponent ai)
       && negb (_has_liberty_board (size b) temp_board nx ny (opponent ai))
    then elements (_get_group_board (size b) temp_board nx ny (opponent ai))
    else [] in
  (bool_decide (0 < Z.of_nat (length captured)), Z.of_nat (length captured)).

(** [_can_save_stones(x, y)]. *)
Definition _can_save_stones (ai : AdvancedAI) (b : GoBoard) (x y : Z)
    : bool * Z :=
  let saved_count :=
    foldl (λ saved_count (d : pos),
             let nx := x + d.1 in
             let ny := y + d.2 in
             if in_bounds (size b) nx ny
                && bool_decide (cell (board b) nx ny = player ai)
                && bool_decide
                     (_count_group_liberties_board b nx ny (player ai) = 1)
             then saved_count
                  + Z.of_nat (base.size (_get_group b nx ny (player ai)))
             else saved_count)
          0 directions in
  (bool_decide (0 < saved_count), saved_count).

(** [_will_be_captured(x, y)]. *)
Definition _will_be_captured (ai : AdvancedAI) (b : GoBoard) (x y : Z) : bool :=
  let temp_board := set_cell (board b) x y (player ai) in
  if negb (_has_liberty_board (size b) temp_board x y (player ai)) then
    let captured :=
      foldl (λ captured (d : pos),
               let nx := x + d.1 in
               let ny := y + d.2 in
               if in_bounds (size b) nx ny
                  && bool_decide (cell temp_board nx ny = opponent ai)
                  && negb (_has_liberty_board (size b) temp_board nx ny
                             (opponent ai))
               then captured + 1 else captured)
            0 directions in
    bool_decide (captured = 0)
  else false.

(** [_can_cut(x, y)]. *)
Definition _can_cut (ai : AdvancedAI) (b : GoBoard) (x y : Z) : bool :=
  let enemy_neighbors :=
    filter (λ n : pos, in_bounds (size b) n.1 n.2 = true
                       ∧ cell (board b) n.1 n.2 = opponent ai)
           ((λ d : pos, (x + d.1, y + d.2)) <$> directions) in
  if bool_decide (2 ≤ length enemy_neighbors)%nat then
    let groups : gset (gset pos) :=
      list_to_set
        ((λ n : pos, _get_group b n.1 n.2 (opponent ai)) <$> enemy_neighbors) in
    bool_decide (2 ≤ base.size groups)%nat
  else false.

(** The loop [while stack and len(checked) < 20] of
    [_estimate_territory_control]; the state is [(territory, checked)]. *)
Fixpoint estimate_loop (fuel : nat) (sz : Z) (b : grid) (stack : list pos)
    (st : Z * gset pos) : option Z :=
  match fuel with
  | O => None
  | S fuel' =>
    match stack with
    | [] => Some st.1
    | (cx, cy) :: rest =>
      let '(territory, checked) := st in
      if negb (bool_decide (base.size checked < 20)%nat) then Some territory
      else if bool_decide ((cx, cy) ∈ checked) then
        estimate_loop fuel' sz b rest st
      else
        let checked' := checked ∪ {[ (cx, cy) ]} in
        if negb (in_bounds sz cx cy) then
          estimate_loop fuel' sz b rest (territory, checked')
        else if bool_decide (cell b cx cy = 0) then
          estimate_loop fuel' sz b
            (reverse ((λ d : pos, (cx + d.1, cy + d.2)) <$> directions) ++ rest)
            (territory + 1, checked')
        else estimate_loop fuel' sz b rest (territory, checked')
    end
  end.

(** Each round drops a stack entry or checks a new coordinate, and at most
    twenty coordinates are checked. *)
Definition estimate_fuel : nat := 102.

(** [_estimate_territory_control(x, y)]. *)
Definition _estimate_territory_control (ai : AdvancedAI) (b : GoBoard)
    (x y : Z) : Z :=
  default 0 (estimate_loop estimate_fuel (size b) (board b) [(x, y)] (0, ∅)).

(** The helpers as the source defines them, with the draws of [random] left
    open. *)
Definition source_helpers (random : nat → Q) (choice : nat → list pos → pos)
    : helpers :=
  {| AdvancedAI._can_capture_stones := _can_capture_stones;
     AdvancedAI._can_save_stones := _can_save_stones;
     AdvancedAI._will_be_captured := _will_be_captured;
     AdvancedAI._can_cut := _can_cut;
     AdvancedAI._estimate_territory_control := _estimate_territory_control;
     AdvancedAI.random := random;
     AdvancedAI.choice := choice |}.

End Tactical.

(* ===================================================================== *)
(** * The game manager ([game_manager.py], class [GameManager]) *)
(* ===================================================================== *)

Module GameManager.

Import AdvancedAI.

(** A value of a response dict.  [VMove x y] is the dict
    [{'x': x, 'y': y}] and [VScore black white] the dict
    [{'black': black, 'white': white}]. *)
Inductive value :=
  | VNone
  | VBool (v : bool)
  | VInt (n : Z)
  | VNum (q : Q)
  | VStr (s : string)
  | VPos (p : pos)
  | VGrid (g : grid)
  | VMoves (l : list pos)
  | VMove (x y : Z)
  | VScore (black : Z) (white : Q).

(** The dict that a method returns. *)
Abbreviation response := (gmap string value).

(** One entry of [self.games].  [game_board] is the [GoBoard] object that
    [game_ai] was built on and keeps a reference to: the selector is always
    run on the current state of [game_board]. *)
Record Game := mkGame {
  game_board : GoBoard;
  game_difficulty : string;
  game_ai_color : Z;
  game_ai : AdvancedAI;
  game_over : bool;
  use_deepseek : bool
}.

(** [self.games]. *)
Abbreviation games := (gmap string Game).

(** The entry with [game['board']] in the state [b], and with
    [game['game_over']] set when [over] holds. *)
Definition with_board (game : Game) (b : GoBoard) (over : bool) : Game :=
  {| game_board := b;
     game_difficulty := game_difficulty game;
     game_ai_color := game_ai_color game;
     game_ai := game_ai game;
     game_over := if over then true else game_over game;
     use_deepseek := use_deepseek game |}.

(** [board.last_move] as a value: [None] or a pair. *)
Definition last_move_value (b : GoBoard) : value :=
  match last_move b with
  | Some p => VPos p
  | None => VNone
  end.

(** ['black' if black_score > white_score else 'white']. *)
Definition winner (black_score : Z) (white_score : Q) : string :=
  if Qgtb (inject_Z black_score) white_score then "black" else "white".

(** [create_game(game_id, difficulty, size, ai_color)]. *)
Definition create_game (gm : games) (game_id difficulty : string)
    (size ai_color : Z) : response * games :=
  let board := init size in
  let ai := create_ai board ai_color difficulty in
  (list_to_map
     [("game_id", VStr game_id); ("board_size", VInt size);
      ("current_player", VInt (current_player board));
      ("ai_color", VInt ai_color)],
   <[game_id := {| game_board := board;
                   game_difficulty := difficulty;
                   game_ai_color := ai_color;
                   game_ai := ai;
                   game_over := false;
                   use_deepseek := true |}]> gm).

(** [get_game(game_id)]. *)
Definition get_game (gm : games) (game_id : string) : option Game :=
  gm !! game_id.

(** The five assignments [result['board'] = board.get_board_state()] ...
    [result['last_move'] = board.last_move] made after the move of the
    selector. *)
Definition refresh (b : GoBoard) (with_last_move : bool) (result : response)
    : response :=
  let result := <["board" := VGrid (board b)]> result in
  let result := <["current_player" := VInt (current_player b)]> result in
  let result := <["captured_black" := VInt (captured_black b)]> result in
  let result := <["captured_white" := VInt (captured_white b)]> result in
  if with_last_move then <["last_move" := last_move_value b]> result
  else result.

(** [result['score'] = {'black': .., 'white': ..}] and [result['winner']]
    from [board.get_score()]. *)
Definition with_score (b : GoBoard) (result : response) : response :=
  let '(black_score, white_score) := get_score b in
  let result := <["score" := VScore black_score white_score]> result in
  <["winner" := VStr (winner black_score white_score)]> result.

(** [make_move(game_id, x, y)]: what it returns or raises, and [self.games]
    afterwards. *)
Definition make_move (h : helpers) (gm : games) (game_id : string) (x y : Z)
    : result response * games :=
  match get_game gm game_id with
  | None => (ret {[ "error" := VStr "游戏不存在" ]}, gm)
  | Some game =>
    if game_over game then (ret {[ "error" := VStr "游戏已结束" ]}, gm)
    else
      let b := game_board game in
      if bool_decide (current_player b = game_ai_color game) then
        match get_move h (game_ai game) b with
        | inl e => (inl e, gm)
        | inr (ai_x, ai_y, explanation) =>
          let result : response :=
            list_to_map
              [("success", VBool true); ("message", VStr "AI回合");
               ("board", VGrid (board b));
               ("current_player", VInt (current_player b));
               ("captured_black", VInt (captured_black b));
               ("captured_white", VInt (captured_white b));
               ("last_move", last_move_value b);
               ("game_over", VBool (is_game_over b));
               ("is_ai_turn", VBool true)] in
          let '(b, result) :=
            if bool_decide (0 ≤ ai_x) then
              let '((success, ai_message), b) :=
                place_stone b ai_x ai_y in
              let result := <["ai_move" := VMove ai_x ai_y]> result in
              let result := <["ai_explanation" := VStr explanation]> result in
              (b, <["message" := VStr ai_message]> result)
            else
              let result := <["ai_move" := VNone]> result in
              (pass_move b,
               <["ai_explanation" := VStr "我选择虚着"]> result) in
          let result := refresh b true result in
          if is_game_over b then
            let result := <["game_over" := VBool true]> result in
            (ret (with_score b result),
             <[game_id := with_board game b true]> gm)
          else (ret result, <[game_id := with_board game b false]> gm)
        end
      else
        let '((success, message), b) := place_stone b x y in
        if negb success then (ret {[ "error" := VStr message ]}, gm)
        else
          let result : response :=
            list_to_map
              [("success", VBool true); ("message", VStr message);
               ("board", VGrid (board b));
               ("current_player", VInt (current_player b));
               ("captured_black", VInt (captured_black b));
               ("captured_white", VInt (captured_white b));
               ("last_move", last_move_value b);
               ("game_over", VBool (is_game_over b));
               ("is_ai_turn", VBool true)] in
          if is_game_over b then
            let result := with_score b result in
            (ret (<["is_ai_turn" := VBool false]> result),
             <[game_id := with_board game b true]> gm)
          else (ret result, <[game_id := with_board game b false]> gm)
  end.

(** [make_ai_move(game_id)]. *)
Definition make_ai_move (h : helpers) (gm : games) (game_id : string)
    : result response * games :=
  match get_game gm game_id with
  | None => (ret {[ "error" := VStr "游戏不存在" ]}, gm)
  | Some game =>
    if game_over game then (ret {[ "error" := VStr "游戏已结束" ]}, gm)
    else
      let b := game_board game in
      if negb (bool_decide (current_player b = game_ai_color game)) then
        (ret {[ "error" := VStr "不是AI回合" ]}, gm)
      else
        match get_move h (game_ai game) b with
        | inl e => (inl e, gm)
        | inr (ai_x, ai_y, basic_explanation) =>
          let result : response :=
            list_to_map
              [("success", VBool true);
               ("board", VGrid (board b));
               ("current_player", VInt (current_player b));
               ("captured_black", VInt (captured_black b));
               ("captured_white", VInt (captured_white b));
               ("last_move", last_move_value b);
               ("game_over", VBool (is_game_over b))] in
          let '(b, result) :=
            if bool_decide (0 ≤ ai_x) then
              let '((success, message), b) :=
                place_stone b ai_x ai_y in
              let result := <["ai_move" := VMove ai_x ai_y]> result in
              let result :=
                <["ai_explanation" := VStr basic_explanation]> result in
              (b, <["message" := VStr message]> result)
            else
              let result := <["ai_move" := VNone]> result in
              let result :=
                <["ai_explanation" := VStr "我选择虚着"]> result in
              (pass_move b, <["message" := VStr "AI虚着"]> result) in
          let result := refresh b true result in
          if is_game_over b then
            let result := <["game_over" := VBool true]> result in
            (ret (with_score b result),
             <[game_id := with_board game b true]> gm)
          else (ret result, <[game_id := with_board game b false]> gm)
        end
  end.

(** [pass_turn(game_id)].  The pass of the player is on the board before
    the selector is asked, so it stays there when the selector raises. *)
Definition pass_turn (h : helpers) (gm : games) (game_id : string)
    : result response * games :=
  match get_game gm game_id with
  | None => (ret {[ "error" := VStr "游戏不存在" ]}, gm)
  | Some game =>
    if game_over game then (ret {[ "error" := VStr "游戏已结束" ]}, gm)
    else
      let b := pass_move (game_board game) in
      let result : response :=
        list_to_map
          [("success", VBool true); ("message", VStr "虚着");
           ("board", VGrid (board b));
           ("current_player", VInt (current_player b))] in
      if bool_decide (current_player b = game_ai_color game) then
        match get_move h (game_ai game) b with
        | inl e => (inl e, <[game_id := with_board game b false]> gm)
        | inr (ai_x, ai_y, explanation) =>
          let '(b, result) :=
            if bool_decide (0 ≤ ai_x) then
              let result := <["ai_move" := VMove ai_x ai_y]> result in
              ((place_stone b ai_x ai_y).2,
               <["ai_explanation" := VStr explanation]> result)
            else
              let result := <["ai_move" := VNone]> result in
              (pass_move b,
               <["ai_explanation" := VStr "我选择虚着"]> result) in
          let result := refresh b false result in
          if is_game_over b then
            let result := <["game_over" := VBool true]> result in
            (ret (with_score b result),
             <[game_id := with_board game b true]> gm)
          else (ret result, <[game_id := with_board game b false]> gm)
        end
      else (ret result, <[game_id := with_board game b false]> gm)
  end.

(** [get_valid_moves(game_id)]. *)
Definition get_valid_moves (gm : games) (game_id : string) : response :=
  match get_game gm game_id with
  | None => {[ "error" := VStr "游戏不存在" ]}
  | Some game =>
    {[ "valid_moves" := VMoves (get_valid_moves (game_board game)) ]}
  end.

(** [undo_move(game_id)]: the two [pop()]s shorten [move_history]; nothing
    else of the board is touched, and the answer is an error in any case. *)
Definition undo_move (gm : games) (game_id : string) : response * games :=
  match get_game gm game_id with
  | None => ({[ "error" := VStr "游戏不存在" ]}, gm)
  | Some game =>
    let b := game_board game in
    if bool_decide (length (move_history b) < 2)%nat then
      ({[ "error" := VStr "没有可以悔棋的步骤" ]}, gm)
    else
      let history := removelast (removelast (move_history b)) in
      let b' :=
        {| size := size b;
           board := board b;
           current_player := current_player b;
           move_history := history;
           captured_black := captured_black b;
           captured_white := captured_white b;
           ko_point := ko_point b;
           last_move := last_move b |} in
      ({[ "error" := VStr "悔棋功能需要重新实现" ]},
       <[game_id := with_board game b' false]> gm)
  end.

(** [get_score(game_id)]. *)
Definition get_score (gm : games) (game_id : string) : response :=
  match get_game gm game_id with
  | None => {[ "error" := VStr "游戏不存在" ]}
  | Some game =>
    let '(black_score, white_score) := get_score (game_board game) in
    list_to_map
      [("black_score", VInt black_score); ("white_score", VNum white_score)]
  end.

End GameManager.

(* ===================================================================== *)
(** * The remote selector ([deepseek_ai.py], class [DeepSeekAI]) *)
(* ===================================================================== *)

Module DeepSeekAI.

Import AdvancedAI.

(** The attributes [player], [opponent] and [difficulty]; [self.board] is
    the live board, passed to every method, and [self.client] is the
    connection that [world] stands for. *)
Record DeepSeekAI := mkAI {
  player : Z;
  opponent : Z;
  difficulty : string
}.

(** [DeepSeekAI.__init__(board, player, difficulty)]. *)
Definition new (b : GoBoard) (player : Z) (difficulty : string) : DeepSeekAI :=
  {| player := player; opponent := 3 - player; difficulty := difficulty |}.

(** [create_deepseek_ai(board, player, difficulty)]. *)
Definition create_deepseek_ai (b : GoBoard) (player : Z) (difficulty : string)
    : DeepSeekAI :=
  new b player difficulty.

(** What lies outside the program, and the text processing that the
    properties below do not depend on.
    - [completion] is the outcome of [self.client.chat.completions.create]
      for the prompt that [_get_deepseek_move] sends: the text
      [response.choices[0].message.content], or an exception.
    - [coordinates content] is the outcome of the loop over
      [coord_patterns]: [None] when no pattern is found in [content], and
      otherwise the pair [(int(match.group(1)), int(match.group(2)))] of the
      first pattern that is.
    - [_extract_explanation] is the method of that name. *)
Record world := mkWorld {
  completion : result string;
  coordinates : string → option (Z * Z);
  _extract_explanation : string → string
}.

(** [_find_fight_areas()]. *)
Definition _find_fight_areas (b : GoBoard) : list pos :=
  let fight_areas : list pos :=
    y ← range (size b);
    x ← range (size b);
    if negb (bool_decide (cell (board b) x y = 0))
       && existsb (λ d : pos,
            let nx := x + d.1 in
            let ny := y + d.2 in
            in_bounds (size b) nx ny
            && negb (bool_decide (cell (board b) nx ny = 0))
            && negb (bool_decide (cell (board b) nx ny = cell (board b) x y)))
          directions
    then [(x, y)] else [] in
  take 10 fight_areas.

(** [_parse_response(content, valid_moves)]. *)
Definition _parse_response (w : world) (b : GoBoard) (content : string)
    (valid_moves : list pos) : result (Z * Z * string) :=
  let fallback : result (Z * Z * string) :=
    match valid_moves with
    | [] => raise IndexError
    | (fallback_x, fallback_y) :: _ =>
      ret (fallback_x, fallback_y,
           content +:+ String (Ascii.ascii_of_nat 10)
             (String (Ascii.ascii_of_nat 10)
                ("[注：推荐的坐标不可用，已选择备用位置 ("
                 +:+ str (fallback_x + 1) +:+ ", " +:+ str (fallback_y + 1)
                 +:+ ")]")))
    end in
  match coordinates w content with
  | Some (c1, c2) =>
    let x := c1 - 1 in
    let y := c2 - 1 in
    if in_bounds (size b) x y then
      if bool_decide ((x, y) ∈ valid_moves) then
        ret (x, y, _extract_explanation w content)
      else fallback
    else fallback
  | None => fallback
  end.

(** [_get_deepseek_move(valid_moves)]: the prompt is built and sent, and the
    answer parsed. *)
Definition _get_deepseek_move (w : world) (ai : DeepSeekAI) (b : GoBoard)
    (valid_moves : list pos) : result (Z * Z * string) :=
  bind (completion w) (λ content, _parse_response w b content valid_moves).

(** [get_move()]: [except Exception] catches whatever
    [_get_deepseek_move] raises. *)
Definition get_move (w : world) (ai : DeepSeekAI) (b : GoBoard)
    : Z * Z * string :=
  let valid_moves := get_valid_moves b in
  match valid_moves with
  | [] => (-1, -1, "没有合法的落子位置，选择虚着")
  | (x0, y0) :: _ =>
    match _get_deepseek_move w ai b valid_moves with
    | inr (x, y, explanation) => (x, y, explanation)
    | inl e =>
      (x0, y0,
       "选择 (" +:+ str (x0 + 1) +:+ ", " +:+ str (y0 + 1)
       +:+ ")：基础策略落子")
    end
  end.

End DeepSeekAI.

(* ===================================================================== *)
(** * The analysis of a position ([backend/app.py]) *)
(* ===================================================================== *)

Module App.

(** The dict that [_analyze_territory] returns. *)
Record territory_analysis := mkTerritory {
  black : Z;
  white : Z;
  neutral : Z;
  black_advantage : Z
}.

(** The body of the two [for] loops of [_analyze_territory] at one cell;
    the state is [(black_territory, white_territory, neutral)]. *)
Definition territory_cell (b : GoBoard) (acc : Z * Z * Z) (x y : Z) : Z * Z * Z :=
  let '(black_territory, white_territory, neutral) := acc in
  if bool_decide (cell (board b) x y = 0) then
    let owner := _get_territory_owner b x y in
    if bool_decide (owner = 1) then
      (black_territory + 1, white_territory, neutral)
    else if bool_decide (owner = 2) then
      (black_territory, white_territory + 1, neutral)
    else (black_territory, white_territory, neutral + 1)
  else if bool_decide (cell (board b) x y = 1) then
    (black_territory + 1, white_territory, neutral)
  else (black_territory, white_territory + 1, neutral).

(** [_analyze_territory(board)]. *)
Definition _analyze_territory (b : GoBoard) : territory_analysis :=
  let '(black_territory, white_territory, neutral) :=
    foldl (λ acc y, foldl (λ acc x, territory_cell b acc x y) acc (range (size b)))
          (0, 0, 0) (range (size b)) in
  {| black := black_territory;
     white := white_territory;
     neutral := neutral;
     black_advantage := black_territory - white_territory |}.

(** The dict that [_analyze_player_strength] returns. *)
Record player_strength := mkStrength {
  stones : Z;
  groups : Z;
  avg_group_size : Q;
  captured : Z
}.

(** The body of the two [for] loops of [_analyze_player_strength] at one
    cell; the state is [(stones, groups, visited)]. *)
Definition strength_cell (b : GoBoard) (player : Z)
    (st : Z * list Z * gset pos) (x y : Z) : Z * list Z * gset pos :=
  let '(stones, groups, visited) := st in
  if bool_decide (cell (board b) x y = player)
     && negb (bool_decide ((x, y) ∈ visited)) then
    let group := Tactical._get_group b x y player in
    (stones + Z.of_nat (base.size group),
     groups ++ [Z.of_nat (base.size group)],
     visited ∪ group)
  else st.

(** [sum(l)]. *)
Definition sum (l : list Z) : Z := foldr Z.add 0 l.

(** [_analyze_player_strength(board, player)].  [round1 q] stands for
    [round(v, 1)] at the float [v] that the division of the source gives for
    the quotient [q]. *)
Definition _analyze_player_strength (round1 : Q → Q) (b : GoBoard)
    (player : Z) : player_strength :=
  let '(stones, groups, visited) :=
    foldl (λ st y, foldl (λ st x, strength_cell b player st x y) st
                         (range (size b)))
          (0, [], ∅) (range (size b)) in
  let avg_group_size :=
    match groups with
    | [] => 0%Q
    | _ => (inject_Z (sum groups) / inject_Z (Z.of_nat (length groups)))%Q
    end in
  {| stones := stones;
     groups := Z.of_nat (length groups);
     avg_group_size := round1 avg_group_size;
     captured := if bool_decide (player = 1) then captured_black b
                 else captured_white b |}.

End App.

(* ===================================================================== *)
(** * Vocabulary of the properties *)
(* ===================================================================== *)

(** The shape that [__init__] builds and every write keeps: [sz] rows of
    [sz] cells. *)
Definition square (sz : Z) (b : grid) : Prop :=
  length b = Z.to_nat sz ∧ Forall (λ row, length row = Z.to_nat sz) b.

Definition neighbours (p : pos) : list pos :=
  (λ d : pos, (p.1 + d.1, p.2 + d.2)) <$> directions.

(** [q] is one orthogonal step away from [p]. *)
Definition adjacent (p q : pos) : Prop := q ∈ neighbours p.

(** An in-range cell that holds colour [c]. *)
Definition stone_at (sz : Z) (b : grid) (c : Z) (p : pos) : Prop :=
  in_bounds sz p.1 p.2 = true ∧ cell b p.1 p.2 = c.

(** [connected sz b c p q]: a path of orthogonal steps from [p] to [q] through
    in-range cells of colour [c]. *)
Inductive connected (sz : Z) (b : grid) (c : Z) (p : pos) : pos → Prop :=
  | connected_refl : stone_at sz b c p → connected sz b c p p
  | connected_step q r :
      connected sz b c p q → adjacent q r → stone_at sz b c r →
      connected sz b c p r.

(** An empty in-range cell next to [g]. *)
Definition liberty_of (sz : Z) (b : grid) (g l : pos) : Prop :=
  adjacent g l ∧ in_bounds sz l.1 l.2 = true ∧ cell b l.1 l.2 = 0.

(** All in-range coordinates, in the order of
    [for y in range(size): for x in range(size)]. *)
Definition all_cells (sz : Z) : list pos :=
  y ← range sz; x ← range sz; [(x, y)].

(** An opposing stone next to [(x, y)] whose group has no liberty left once
    [(x, y)] is taken. *)
Definition dead_neighbour (sz : Z) (b : grid) (x y opponent : Z) (n : pos) : Prop :=
  adjacent (x, y) n ∧ stone_at sz b opponent n ∧
  _group_has_liberty_excluding sz b
    (_get_group_at sz b n.1 n.2 opponent) opponent x y = false.

(** An opposing stone at [n] whose group has no liberty besides [(x, y)]. *)
Definition dead_at (sz : Z) (b : grid) (x y o : Z) (n : pos) : Prop :=
  stone_at sz b o n ∧
  _group_has_liberty_excluding sz b
    (_get_group_at sz b n.1 n.2 o) o x y = false.

(** The state of the loop of [_find_and_capture_stones] after the directions
    [seen]: [all_captured] holds the groups of the dead neighbours met so
    far, and a group in [checked_groups] that has no liberty is already in
    [all_captured]. *)
Definition capture_inv (sz : Z) (b : grid) (x y o : Z) (seen : list pos)
    (st : gset pos * gset (gset pos)) : Prop :=
  (∀ q, q ∈ st.1 ↔
     ∃ d, d ∈ seen ∧ dead_at sz b x y o (x + d.1, y + d.2) ∧
          connected sz b o (x + d.1, y + d.2) q) ∧
  (∀ G, G ∈ st.2 →
     _group_has_liberty_excluding sz b G o x y = false → G ⊆ st.1).

(** A group with a liberty, as a relation: some stone joined to [p] has an
    empty in-range neighbour. *)
Definition has_liberty (sz : Z) (b : grid) (c : Z) (p : pos) : Prop :=
  ∃ g l, connected sz b c p g ∧ liberty_of sz b g l.

(** The state that a successful [place_stone] leaves. *)
Definition placed (s : GoBoard) (x y : Z) : GoBoard :=
  let b1 := set_cell (board s) x y (current_player s) in
  let captured := captured_set (size s) b1 x y (3 - current_player s) in
  let b2 := remove_stones b1 (elements captured) in
  let n := Z.of_nat (base.size captured) in
  {| size := size s;
     board := b2;
     current_player := 3 - current_player s;
     move_history := move_history s ++ [mkMove x y (current_player s) n];
     captured_black :=
       if bool_decide (current_player s = 1) then captured_black s + n
       else captured_black s;
     captured_white :=
       if bool_decide (current_player s = 1) then captured_white s
       else captured_white s + n;
     ko_point :=
       if bool_decide (n = 1) then
         if bool_decide
              (_count_liberties_of_group (size s) b2
                 (_get_group_at (size s) b2 x y (current_player s)) = 1)
         then head (elements captured) else None
       else None;
     last_move := Some (x, y) |}.

(** The states of a board created with [GoBoard(n)] and then driven through
    [place_stone] (accepted or refused) and [pass_move]. *)
Inductive reachable (n : Z) : GoBoard → Prop :=
  | reachable_init : reachable n (init n)
  | reachable_place s x y :
      reachable n s → reachable n (place_stone s x y).2
  | reachable_pass s : reachable n s → reachable n (pass_move s).

Definition cells_ok (b : grid) : Prop :=
  Forall (Forall (λ v, v = 0 ∨ v = 1 ∨ v = 2)) b.

(** Every group of stones on the grid has a liberty. *)
Definition all_alive (sz : Z) (b : grid) : Prop :=
  ∀ c q, c = 1 ∨ c = 2 → stone_at sz b c q → has_liberty sz b c q.

Record board_ok (s : GoBoard) : Prop := mk_board_ok {
  ok_square : square (size s) (board s);
  ok_cells : cells_ok (board s);
  ok_player : current_player s = 1 ∨ current_player s = 2;
  ok_alive : all_alive (size s) (board s)
}.

(** [l] is a liberty of the group of [n], other than the point [ex]. *)
Definition group_liberty_excluding (sz : Z) (b : grid) (c : Z) (n ex l : pos) : Prop :=
  ∃ g, connected sz b c n g ∧ liberty_of sz b g l ∧ l ≠ ex.

(** With the mover's stone on [(x, y)], some opposing group next to it has
    no liberty left (not counting [(x, y)] itself). *)
Definition would_capture (s : GoBoard) (x y : Z) : Prop :=
  let b1 := set_cell (board s) x y (current_player s) in
  let opponent := 3 - current_player s in
  ∃ n, adjacent (x, y) n ∧ stone_at (size s) b1 opponent n ∧
       ∀ l, ¬ group_liberty_excluding (size s) b1 opponent n (x, y) l.

(** With the mover's stone on [(x, y)], its own group has a liberty. *)
Definition own_group_has_liberty (s : GoBoard) (x y : Z) : Prop :=
  has_liberty (size s) (set_cell (board s) x y (current_player s))
              (current_player s) (x, y).

(** A move of a game record: a placement or a pass. *)
Definition play (s : GoBoard) (m : option pos) : GoBoard :=
  match m with
  | Some (x, y) => (place_stone s x y).2
  | None => pass_move s
  end.

Definition plays (s : GoBoard) (ms : list (option pos)) : GoBoard :=
  foldl play s ms.

(** A white stone on (1,1) with black stones on (0,1), (2,1) and (1,0);
    black to move. *)
Definition atari_position : GoBoard :=
  plays (init 9)
    [Some (0, 1); Some (1, 1); Some (2, 1); None; Some (1, 0); None].

(** Black has just taken the white stone on (1,1) by playing (2,1); white
    could take back at once on (1,1) but for the ko. *)
Definition ko_position : GoBoard :=
  plays (init 9)
    [Some (1, 0); Some (2, 0); Some (0, 1); Some (3, 1); Some (1, 2);
     Some (2, 2); None; Some (1, 1); Some (2, 1)].

(** Both sides have passed. *)
Definition finished_position : GoBoard :=
  plays (init 9) [Some (2, 2); None; None].


(** The reading of C4: once [is_game_over()] holds, every [place_stone] is
    refused and neither it nor [pass_move] changes the state. *)
Definition mutations_refused_after_end (s : GoBoard) : Prop :=
  is_game_over s = true →
  (∀ x y, (place_stone s x y).1.1 = false ∧ (place_stone s x y).2 = s) ∧
  pass_move s = s.

(** The empty region of [start] touches a stone of colour [c]. *)
Definition borders (sz : Z) (b : grid) (start : pos) (c : Z) : Prop :=
  ∃ g r, connected sz b 0 start g ∧ adjacent g r ∧ stone_at sz b c r.

(** What may sit on the stack of [_get_territory_owner]: a cell that, if
    empty, belongs to the region of [start], and, if a stone, borders it. *)
Definition frontier (sz : Z) (b : grid) (start q : pos) : Prop :=
  (stone_at sz b 0 q → connected sz b 0 start q) ∧
  (∀ c, c = 1 ∨ c = 2 → stone_at sz b c q → borders sz b start c).

(** The state of the fill is closed: next to a visited empty cell everything
    is visited or waiting on the stack, and a visited stone has set its
    flag. *)
Definition territory_inv (sz : Z) (b : grid) (stack : list pos)
    (st : gset pos * bool * bool) : Prop :=
  (∀ g r, g ∈ st.1.1 → stone_at sz b 0 g → adjacent g r →
          r ∈ st.1.1 ∨ r ∈ stack) ∧
  (∀ q, q ∈ st.1.1 → stone_at sz b 1 q → st.1.2 = true) ∧
  (∀ q, q ∈ st.1.1 → stone_at sz b 2 q → st.2 = true).

(** Stones of colour [c] on the board, and cells that
    [_get_territory_owner] gives to [c], counted over the scan of the grid. *)
Definition stones_in (s : GoBoard) (c : Z) (l : list pos) : Z :=
  Z.of_nat (length (filter (λ p : pos, cell (board s) p.1 p.2 = c) l)).

Definition owned_in (s : GoBoard) (c : Z) (l : list pos) : Z :=
  Z.of_nat (length (filter (λ p : pos, _get_territory_owner s p.1 p.2 = c) l)).

Definition on_board (s : GoBoard) (c : Z) : Z :=
  stones_in s c (all_cells (size s)).

Definition territory (s : GoBoard) (c : Z) : Z :=
  owned_in s c (all_cells (size s)).

(** A 19 by 19 board after 57 placements and no pass: black and white have
    filled the rows 0, 2 and 4 from left to right, one stone each in turn;
    every stone has an empty cell above or below it and nothing was
    captured.  White is to move. *)
Definition row_moves (y : Z) : list (option pos) :=
  (λ x, Some (x, y)) <$> range 19.

Definition crowded_position : GoBoard :=
  plays (init 19) (row_moves 0 ++ row_moves 2 ++ row_moves 4).

(** The placements of colour [c] in a move history: the entries of [c] that
    are not passes. *)
Definition placements (c : Z) (hist : list Move) : Z :=
  Z.of_nat (length (filter (λ m, mv_player m = c ∧ mv_x m ≠ -1) hist)).

(** The stones that colour [c] has taken, added up over the [captured]
    entries of a move history. *)
Definition taken (c : Z) (hist : list Move) : Z :=
  foldr (λ m acc, if bool_decide (mv_player m = c) then mv_captured m + acc
                  else acc) 0 hist.

(** A call of one of the methods of [GameManager] that write to
    [self.games] or to a board. *)
Inductive request :=
  | CreateGame (game_id difficulty : string) (size ai_color : Z)
  | MakeMove (game_id : string) (x y : Z)
  | MakeAiMove (game_id : string)
  | PassTurn (game_id : string)
  | UndoMove (game_id : string).

(** [self.games] after the call, whether it returned or raised; [h] holds
    the helpers and the draws of [random] that the call sees. *)
Definition serve (h : AdvancedAI.helpers) (gm : GameManager.games)
    (r : request) : GameManager.games :=
  match r with
  | CreateGame game_id difficulty size ai_color =>
      (GameManager.create_game gm game_id difficulty size ai_color).2
  | MakeMove game_id x y => (GameManager.make_move h gm game_id x y).2
  | MakeAiMove game_id => (GameManager.make_ai_move h gm game_id).2
  | PassTurn game_id => (GameManager.pass_turn h gm game_id).2
  | UndoMove game_id => (GameManager.undo_move gm game_id).2
  end.

(** The game that a call addresses. *)
Definition target (r : request) : string :=
  match r with
  | CreateGame game_id _ _ _ => game_id
  | MakeMove game_id _ _ => game_id
  | MakeAiMove game_id => game_id
  | PassTurn game_id => game_id
  | UndoMove game_id => game_id
  end.

(** [serves gm rs gm']: the calls [rs], each with helpers and draws of its
    own, take [self.games] from [gm] to [gm']. *)
Inductive serves (gm : GameManager.games)
    : list request → GameManager.games → Prop :=
  | serves_nil : serves gm [] gm
  | serves_snoc rs gm' h r :
      serves gm rs gm' → serves gm (rs ++ [r]) (serve h gm' r).


Definition is_undo (r : request) : Prop :=
  match r with UndoMove _ => True | _ => False end.

Definition is_create (r : request) : Prop :=
  match r with CreateGame _ _ _ _ => True | _ => False end.


(** What a call can do to [self.games]: nothing, or replace the board of the
    addressed game, which was not marked over, by a state that [place_stone]
    and [pass_move] lead to, marking the game over only when that board is
    over. *)
Definition board_step (gm gm' : GameManager.games) (game_id : string) : Prop :=
  gm' = gm ∨
  ∃ game ms over,
    gm !! game_id = Some game ∧ GameManager.game_over game = false ∧
    (over = true → is_game_over (plays (GameManager.game_board game) ms) = true) ∧
    gm' = <[game_id :=
              GameManager.with_board game
                (plays (GameManager.game_board game) ms) over]> gm.

(** A stone with an in-range neighbour that holds a stone of the other
    colour. *)
Definition contested (b : GoBoard) (p : pos) : Prop :=
  in_bounds (size b) p.1 p.2 = true ∧ cell (board b) p.1 p.2 ≠ 0 ∧
  ∃ n, adjacent p n ∧ in_bounds (size b) n.1 n.2 = true ∧
       cell (board b) n.1 n.2 ≠ 0 ∧
       cell (board b) n.1 n.2 ≠ cell (board b) p.1 p.2.

(** The groups of colour [c] on the board, each as the set of its cells. *)
Definition groups_of (b : GoBoard) (c : Z) : gset (gset pos) :=
  list_to_set
    ((λ p : pos, _get_group_at (size b) (board b) p.1 p.2 c)
       <$> filter (λ p : pos, cell (board b) p.1 p.2 = c) (all_cells (size b))).

(** The state of the scan of [_analyze_player_strength] after the cells
    [seen]: [visited] holds the groups of the stones met so far, [stones] is
    its number of cells, and [groups] has one entry for each of these
    groups. *)
Definition strength_inv (b : GoBoard) (c : Z) (seen : list pos)
    (st : Z * list Z * gset pos) : Prop :=
  (∀ q, q ∈ st.2 ↔ ∃ p, p ∈ seen ∧ connected (size b) (board b) c p q) ∧
  st.1.1 = Z.of_nat (base.size st.2) ∧
  length st.1.2
  = base.size
      (list_to_set
         ((λ p : pos, _get_group_at (size b) (board b) p.1 p.2 c)
            <$> filter (λ p : pos, cell (board b) p.1 p.2 = c) seen)
       : gset (gset pos)).







(* ===================================================================== *)
(** * Grid reads and writes                                               *)
(* ===================================================================== *)

Lemma in_bounds_spec sz x y :
  in_bounds sz x y = true ↔ 0 ≤ x < sz ∧ 0 ≤ y < sz.
Proof. unfold in_bounds. by rewrite bool_decide_eq_true. Qed.

Lemma set_cell_square sz b x y v : square sz b → square sz (set_cell b x y v).
Proof.
  intros [Hl Hr]. split.
  - unfold set_cell. by rewrite length_alter.
  - unfold set_cell. apply Forall_alter; [done|].
    intros row _. rewrite length_insert.
    intros Hrow. done.
Qed.

Lemma cell_set_cell_eq sz b x y v :
  square sz b → in_bounds sz x y = true → cell (set_cell b x y v) x y = v.
Proof.
  intros [Hl Hr] [Hx Hy]%in_bounds_spec. unfold cell, set_cell.
  destruct (lookup_lt_is_Some_2 b (Z.to_nat y)) as [row Hrow]; [lia|].
  rewrite list_lookup_alter_eq Hrow /=.
  rewrite list_lookup_insert_eq; [|done].
  rewrite Forall_forall in Hr.
  rewrite (Hr row); [exact (list_elem_of_lookup_2 _ _ _ Hrow)|lia].
Qed.

Lemma cell_set_cell_ne b x y v x' y' :
  0 ≤ x → 0 ≤ y → 0 ≤ x' → 0 ≤ y' → (x, y) ≠ (x', y') →
  cell (set_cell b x y v) x' y' = cell b x' y'.
Proof.
  intros Hx Hy Hx' Hy' Hne. unfold cell, set_cell.
  destruct (decide (Z.to_nat y = Z.to_nat y')) as [Heq|Hney].
  - rewrite Heq list_lookup_alter_eq.
    destruct (b !! Z.to_nat y') as [row|]; [|done]. simpl.
    rewrite list_lookup_insert_ne; [|done].
    intros Heqx. apply Hne. f_equal; lia.
  - by rewrite list_lookup_alter_ne.
Qed.

Lemma cell_init sz x y : cell (board (init sz)) x y = 0.
Proof.
  unfold cell. simpl.
  rewrite list_lookup_fmap.
  destruct (range sz !! Z.to_nat y); [|done]. simpl.
  rewrite list_lookup_fmap.
  by destruct (range sz !! Z.to_nat x).
Qed.

(** On a square grid a read at an in-range coordinate finds a cell: the
    default of [cell] is never used there. *)
Lemma cell_in_range sz b x y :
  square sz b → in_bounds sz x y = true →
  b !! Z.to_nat y ≫= lookup (Z.to_nat x) = Some (cell b x y).
Proof.
  intros [Hl Hr] [Hx Hy]%in_bounds_spec. unfold cell.
  destruct (lookup_lt_is_Some_2 b (Z.to_nat y)) as [row Hrow]; [lia|].
  rewrite Hrow /=. rewrite Forall_forall in Hr.
  destruct (lookup_lt_is_Some_2 row (Z.to_nat x)) as [v Hv].
  { rewrite (Hr row); [exact (list_elem_of_lookup_2 _ _ _ Hrow)|lia]. }
  by rewrite Hv.
Qed.

Lemma length_range sz : length (range sz) = Z.to_nat sz.
Proof. unfold range. by rewrite length_fmap length_seq. Qed.

Lemma elem_of_range sz x : x ∈ range sz ↔ 0 ≤ x < sz.
Proof.
  unfold range. rewrite list_elem_of_fmap. split.
  - intros (n & -> & Hn%elem_of_seq). lia.
  - intros Hx. exists (Z.to_nat x). split; [lia|]. apply elem_of_seq. lia.
Qed.

Lemma init_square sz : square sz (board (init sz)).
Proof.
  split; simpl.
  - by rewrite length_fmap length_range.
  - apply Forall_fmap, Forall_forall. intros ? _. simpl.
    by rewrite length_fmap length_range.
Qed.

(* ===================================================================== *)
(** * Connected groups, as a relation on the grid                          *)
(* ===================================================================== *)

Lemma adjacent_spec p q :
  adjacent p q ↔
  q = (p.1, p.2 + 1) ∨ q = (p.1, p.2 - 1) ∨ q = (p.1 + 1, p.2) ∨ q = (p.1 - 1, p.2).
Proof.
  unfold adjacent, neighbours, directions. simpl.
  rewrite !elem_of_cons elem_of_nil.
  replace (p.1 + 0) with p.1 by lia. replace (p.2 + 0) with p.2 by lia.
  replace (p.2 + -1) with (p.2 - 1) by lia.
  replace (p.1 + -1) with (p.1 - 1) by lia. tauto.
Qed.

Lemma adjacent_sym p q : adjacent p q → adjacent q p.
Proof.
  rewrite !adjacent_spec. destruct p as [px py], q as [qx qy]. simpl.
  intros [H|[H|[H|H]]]; inversion H; subst.
  - right; left. f_equal; lia.
  - left. f_equal; lia.
  - do 3 right. f_equal; lia.
  - do 2 right; left. f_equal; lia.
Qed.

Lemma adjacent_ne p q : adjacent p q → p ≠ q.
Proof.
  rewrite adjacent_spec. destruct p as [px py], q as [qx qy]. simpl.
  intros [H|[H|[H|H]]] Heq; inversion H; inversion Heq; lia.
Qed.

Section connectivity.

Context (sz : Z) (b : grid) (c : Z).

Lemma connected_stone_l p q : connected sz b c p q → stone_at sz b c p.
Proof. induction 1; auto. Qed.

Lemma connected_stone_r p q : connected sz b c p q → stone_at sz b c q.
Proof. destruct 1; auto. Qed.

Lemma connected_trans p q r :
  connected sz b c p q → connected sz b c q r → connected sz b c p r.
Proof.
  intros Hpq Hqr. induction Hqr as [|r' r'' _ IH Hadj Hst]; [done|].
  eapply connected_step; [exact IH|exact Hadj|exact Hst].
Qed.

Lemma connected_one p q :
  stone_at sz b c p → adjacent p q → stone_at sz b c q → connected sz b c p q.
Proof. intros Hp Hadj Hq. eapply connected_step; [by apply connected_refl|done..]. Qed.

Lemma connected_sym p q : connected sz b c p q → connected sz b c q p.
Proof.
  induction 1 as [|q r Hpq IH Hadj Hst]; [by apply connected_refl|].
  eapply connected_trans; [|exact IH].
  apply connected_one; [done|by apply adjacent_sym|].
  exact (connected_stone_r _ _ Hpq).
Qed.

End connectivity.

(* ===================================================================== *)
(** * The flood fill of [_get_group_at]                                   *)
(* ===================================================================== *)

Lemma elem_of_all_cells sz p :
  p ∈ all_cells sz ↔ in_bounds sz p.1 p.2 = true.
Proof.
  unfold all_cells. rewrite in_bounds_spec list_elem_of_bind. split.
  - intros (y & (x & Hp & Hx%elem_of_range)%list_elem_of_bind & Hy%elem_of_range).
    apply list_elem_of_singleton in Hp as ->. simpl. lia.
  - intros [Hx Hy]. exists p.2. split; [|by apply elem_of_range].
    apply list_elem_of_bind. exists p.1. split; [|by apply elem_of_range].
    destruct p. by apply list_elem_of_singleton.
Qed.

Lemma length_bind_const {A B} (f : A → list B) (l : list A) (n : nat) :
  (∀ a, a ∈ l → length (f a) = n) → length (l ≫= f) = (length l * n)%nat.
Proof.
  induction l as [|a l IH]; intros Hf; [done|].
  simpl. rewrite length_app IH.
  - intros a' Ha'. apply Hf. by right.
  - rewrite Hf; [by left|lia].
Qed.

Lemma length_all_cells sz :
  length (all_cells sz) = (Z.to_nat sz * Z.to_nat sz)%nat.
Proof.
  unfold all_cells.
  rewrite (length_bind_const _ _ (Z.to_nat sz)); [|by rewrite length_range].
  intros y _. rewrite (length_bind_const _ _ 1%nat); [done|].
  rewrite length_range. lia.
Qed.

Lemma size_list_to_set_le (l : list pos) :
  (base.size (list_to_set l : gset pos) ≤ length l)%nat.
Proof.
  induction l as [|a l IH]; [by rewrite list_to_set_nil size_empty|].
  rewrite list_to_set_cons /=.
  pose proof (size_union_alt ({[a]} : gset pos) (list_to_set l)) as Hu.
  rewrite size_singleton in Hu.
  pose proof (subseteq_size (list_to_set l ∖ {[a]} : gset pos) (list_to_set l)) as Hd.
  rewrite Hu. etrans; [apply Nat.add_le_mono_l, Hd; set_solver|]. lia.
Qed.

Section flood_fill.

Context (sz : Z) (b : grid) (c : Z).

Abbreviation cells := (list_to_set (all_cells sz) : gset pos).

Lemma size_cells : (base.size cells ≤ Z.to_nat sz * Z.to_nat sz)%nat.
Proof. rewrite -length_all_cells. apply size_list_to_set_le. Qed.

(** The loop stops before the fuel does: each round either drops a stack
    entry or claims a cell that had not been claimed. *)
Lemma group_loop_terminates fuel stack group :
  (length stack + 4 * base.size (cells ∖ group) < fuel)%nat →
  is_Some (group_loop fuel sz b c stack group).
Proof.
  revert stack group.
  induction fuel as [|fuel IH]; intros stack group Hfuel; [lia|].
  destruct stack as [|[cx cy] rest]; simpl; [by eexists|].
  simpl in Hfuel.
  case_bool_decide as Hin; [apply IH; lia|].
  destruct (in_bounds sz cx cy) eqn:Hb; simpl; [|apply IH; lia].
  case_bool_decide as Hc; simpl; [|apply IH; lia].
  apply IH.
  assert (cells ∖ (group ∪ {[(cx, cy)]}) ⊂ cells ∖ group) as Hsub.
  { assert ((cx, cy) ∈ cells).
    { apply elem_of_list_to_set, elem_of_all_cells. done. }
    set_solver. }
  apply subset_size in Hsub.
  rewrite length_app length_reverse.
  pose proof (length_filter (λ n, n ∉ group ∪ {[(cx, cy)]})
    ((λ d : pos, (cx + d.1, cy + d.2)) <$> directions)) as Hlen.
  rewrite length_fmap in Hlen. simpl in Hlen. lia.
Qed.

End flood_fill.

Section flood_fill_correct.

Context (sz : Z) (b : grid) (c : Z) (start : pos).

(** Everything the loop puts in the group is joined to the start. *)
Lemma group_loop_sound fuel stack group G :
  group_loop fuel sz b c stack group = Some G →
  (∀ q, q ∈ group → connected sz b c start q) →
  (∀ q, q ∈ stack → stone_at sz b c q → connected sz b c start q) →
  ∀ q, q ∈ G → connected sz b c start q.
Proof.
  revert stack group.
  induction fuel as [|fuel IH]; intros stack group Hrun Hgroup Hstack; [done|].
  destruct stack as [|[cx cy] rest]; simpl in Hrun.
  { by inversion Hrun; subst. }
  assert (∀ q, q ∈ rest → stone_at sz b c q → connected sz b c start q) as Hrest.
  { intros q Hq. apply Hstack. by right. }
  case_bool_decide as Hin; [exact (IH _ _ Hrun Hgroup Hrest)|].
  destruct (in_bounds sz cx cy) eqn:Hb; simpl in Hrun;
    [|exact (IH _ _ Hrun Hgroup Hrest)].
  case_bool_decide as Hc; simpl in Hrun;
    [|exact (IH _ _ Hrun Hgroup Hrest)].
  assert (connected sz b c start (cx, cy)) as Hcur.
  { apply Hstack; [by left|done]. }
  eapply IH; [exact Hrun| |].
  - intros q [Hq| ->%elem_of_singleton]%elem_of_union; auto.
  - intros q [Hq|Hq]%elem_of_app Hst; [|auto].
    apply elem_of_reverse, list_elem_of_filter in Hq as [_ Hq].
    eapply connected_step; [exact Hcur|exact Hq|exact Hst].
Qed.

(** What the loop returns contains the group it started from and every
    stone on the stack, and is closed under stepping to a neighbouring
    stone. *)
Lemma group_loop_closed fuel stack group G :
  group_loop fuel sz b c stack group = Some G →
  (∀ p q, p ∈ group → adjacent p q → stone_at sz b c q →
          q ∈ group ∨ q ∈ stack) →
  group ⊆ G ∧
  (∀ q, q ∈ stack → stone_at sz b c q → q ∈ G) ∧
  (∀ p q, p ∈ G → adjacent p q → stone_at sz b c q → q ∈ G).
Proof.
  revert stack group.
  induction fuel as [|fuel IH]; intros stack group Hrun Hinv; [done|].
  destruct stack as [|[cx cy] rest]; simpl in Hrun.
  { inversion Hrun; subst. split; [done|]. split.
    - by intros q ?%elem_of_nil.
    - intros p q Hp Hadj Hst.
      destruct (Hinv p q Hp Hadj Hst) as [?|?%elem_of_nil]; done. }
  assert (∀ skip : (cx, cy) ∈ group ∨ ¬ stone_at sz b c (cx, cy),
    group_loop fuel sz b c rest group = Some G →
    group ⊆ G ∧
    (∀ q, q ∈ (cx, cy) :: rest → stone_at sz b c q → q ∈ G) ∧
    (∀ p q, p ∈ G → adjacent p q → stone_at sz b c q → q ∈ G)) as Hskip.
  { intros Hsk Hrun'.
    destruct (IH rest group Hrun') as (Hsub & Hstk & Hcl).
    - intros p q Hp Hadj Hst.
      destruct (Hinv p q Hp Hadj Hst) as [?|[->|?]%elem_of_cons]; auto.
      destruct Hsk as [?|Hn]; [by left|by destruct Hn].
    - split; [done|]. split; [|done].
      intros q [->|Hq]%elem_of_cons Hst; [|by apply Hstk].
      destruct Hsk as [?|Hn]; [by apply Hsub|by destruct Hn]. }
  case_bool_decide as Hin; [apply Hskip; auto|].
  destruct (in_bounds sz cx cy) eqn:Hb; simpl in Hrun;
    [|apply Hskip; [right; intros [Hb' _]; simpl in Hb'; congruence|done]].
  case_bool_decide as Hc; simpl in Hrun;
    [|apply Hskip; [right; by intros [_ ?]|done]].
  clear Hskip.
  destruct (IH _ _ Hrun) as (Hsub & Hstk & Hcl).
  - intros p q [Hp| ->%elem_of_singleton]%elem_of_union Hadj Hst.
    + destruct (Hinv p q Hp Hadj Hst) as [?|[->|?]%elem_of_cons].
      * left. set_solver.
      * left. set_solver.
      * right. apply elem_of_app. by right.
    + destruct (decide (q ∈ group ∪ {[(cx, cy)]})) as [?|Hnot]; [by left|].
      right. apply elem_of_app. left.
      apply elem_of_reverse, list_elem_of_filter. split; [done|exact Hadj].
  - split; [set_solver|]. split; [|done].
    intros q [->|Hq]%elem_of_cons Hst; [set_solver|].
    apply Hstk; [|done]. apply elem_of_app. by right.
Qed.

End flood_fill_correct.

Lemma group_fuel_enough sz :
  (1 + 4 * (Z.to_nat sz * Z.to_nat sz) < group_fuel sz)%nat.
Proof.
  unfold group_fuel.
  destruct (decide (0 ≤ sz)) as [Hsz|Hsz].
  - rewrite Z2Nat.inj_add; [nia|lia|].
    rewrite Z2Nat.inj_mul; [lia|nia|].
    rewrite Z2Nat.inj_mul; [lia|lia|]. simpl. lia.
  - replace (Z.to_nat sz) with 0%nat by lia. simpl. nia.
Qed.

(** [_get_group_at] always comes back: its loop ends within [group_fuel]. *)
Lemma get_group_at_total sz b c x y :
  is_Some (group_loop (group_fuel sz) sz b c [(x, y)] ∅).
Proof.
  apply group_loop_terminates. simpl.
  pose proof (group_fuel_enough sz) as Hfuel.
  pose proof (size_cells sz) as Hcells.
  pose proof (subseteq_size (list_to_set (all_cells sz) ∖ ∅ : gset pos)
                (list_to_set (all_cells sz))) as Hsub.
  assert (base.size (list_to_set (all_cells sz) ∖ ∅ : gset pos)
          ≤ Z.to_nat sz * Z.to_nat sz)%nat as Hle.
  { etrans; [apply Hsub; set_solver|exact Hcells]. }
  revert Hfuel Hle. generalize (Z.to_nat sz * Z.to_nat sz)%nat. lia.
Qed.

(** [_get_group_at] returns the connected group of its start cell: the cells
    joined to [(x, y)] through stones of colour [c]. *)
Lemma get_group_at_spec sz b x y c q :
  q ∈ _get_group_at sz b x y c ↔ connected sz b c (x, y) q.
Proof.
  unfold _get_group_at. case_bool_decide as Hc; simpl.
  - destruct (get_group_at_total sz b c x y) as [G HG]. rewrite HG. simpl.
    split.
    + apply (group_loop_sound _ _ _ _ _ _ _ _ HG); [set_solver|].
      intros p ->%list_elem_of_singleton Hst. by apply connected_refl.
    + destruct (group_loop_closed sz b c _ _ _ _ HG) as (_ & Hstk & Hcl);
        [set_solver|].
      induction 1 as [Hst|p r _ IH Hadj Hst].
      * apply Hstk; [by left|done].
      * exact (Hcl _ _ IH Hadj Hst).
  - split; [set_solver|].
    intros [_ Hst]%connected_stone_l. done.
Qed.

Lemma get_group_at_stone sz b x y c q :
  q ∈ _get_group_at sz b x y c → stone_at sz b c q.
Proof. intros Hq%get_group_at_spec. exact (connected_stone_r _ _ _ _ _ Hq). Qed.

Lemma get_group_at_self sz b x y c :
  stone_at sz b c (x, y) → (x, y) ∈ _get_group_at sz b x y c.
Proof. intros Hst. by apply get_group_at_spec, connected_refl. Qed.

(** Two stones of one group have the same group. *)
Lemma get_group_at_eq sz b c x y x' y' :
  connected sz b c (x, y) (x', y') →
  _get_group_at sz b x y c = _get_group_at sz b x' y' c.
Proof.
  intros Hconn. apply set_eq. intros q. rewrite !get_group_at_spec. split.
  - intros Hq. eapply connected_trans; [|exact Hq]. by apply connected_sym.
  - intros Hq. exact (connected_trans _ _ _ _ _ _ Hconn Hq).
Qed.

(* ===================================================================== *)
(** * Liberties                                                           *)
(* ===================================================================== *)

Lemma adjacent_dir (g d : pos) :
  d ∈ directions → adjacent g (g.1 + d.1, g.2 + d.2).
Proof.
  intros Hd. unfold adjacent, neighbours.
  by apply (list_elem_of_fmap_2 (λ d : pos, (g.1 + d.1, g.2 + d.2))).
Qed.

Lemma group_has_liberty_spec sz b G p :
  _group_has_liberty sz b G p = true ↔
  ∃ g l, g ∈ G ∧ liberty_of sz b g l.
Proof.
  unfold _group_has_liberty. rewrite existsb_exists. split.
  - intros (g & Hg%list_elem_of_In%elem_of_elements & Hex).
    apply existsb_exists in Hex as (d & Hd%list_elem_of_In & Hl).
    apply andb_true_iff in Hl as [Hb Hc%bool_decide_eq_true].
    exists g, (g.1 + d.1, g.2 + d.2). split; [done|]. split; [|done].
    by apply adjacent_dir.
  - intros (g & l & Hg & Hadj & Hb & Hc).
    exists g. split; [by apply list_elem_of_In, elem_of_elements|].
    apply list_elem_of_fmap in Hadj as (d & -> & Hd).
    apply existsb_exists. exists d. split; [by apply list_elem_of_In|].
    apply andb_true_iff. split; [done|]. by apply bool_decide_eq_true.
Qed.

Lemma group_has_liberty_excluding_spec sz b G p ex ey :
  _group_has_liberty_excluding sz b G p ex ey = true ↔
  ∃ g l, g ∈ G ∧ liberty_of sz b g l ∧ l ≠ (ex, ey).
Proof.
  unfold _group_has_liberty_excluding. rewrite existsb_exists. split.
  - intros (g & Hg%list_elem_of_In%elem_of_elements & Hex).
    apply existsb_exists in Hex as (d & Hd%list_elem_of_In & Hl).
    case_bool_decide as Hne; [done|].
    apply andb_true_iff in Hl as [Hb Hc%bool_decide_eq_true].
    exists g, (g.1 + d.1, g.2 + d.2). split; [done|]. split; [|done].
    split; [|done].
    by apply adjacent_dir.
  - intros (g & l & Hg & (Hadj & Hb & Hc) & Hne).
    exists g. split; [by apply list_elem_of_In, elem_of_elements|].
    apply list_elem_of_fmap in Hadj as (d & -> & Hd).
    apply existsb_exists. exists d. split; [by apply list_elem_of_In|].
    rewrite bool_decide_eq_false_2; [done|].
    apply andb_true_iff. split; [done|]. by apply bool_decide_eq_true.
Qed.

(** Once a stone stands on the excluded point, excluding it changes nothing. *)
Lemma group_has_liberty_excluding_occupied sz b G p ex ey :
  cell b ex ey ≠ 0 →
  _group_has_liberty_excluding sz b G p ex ey = _group_has_liberty sz b G p.
Proof.
  intros Hocc. apply eq_true_iff_eq.
  rewrite group_has_liberty_excluding_spec group_has_liberty_spec. split.
  - intros (g & l & Hg & Hl & _). by exists g, l.
  - intros (g & l & Hg & Hl). exists g, l. split; [done|]. split; [done|].
    intros ->. by destruct Hl as (_ & _ & ?).
Qed.

Lemma can_capture_anything_spec sz b x y o :
  _can_capture_anything sz b x y o = true ↔ ∃ n, dead_neighbour sz b x y o n.
Proof.
  unfold _can_capture_anything. rewrite existsb_exists. split.
  - intros (d & Hd%list_elem_of_In & Hl).
    apply andb_true_iff in Hl as [Hl Hdead%negb_true_iff].
    apply andb_true_iff in Hl as [Hb Hc%bool_decide_eq_true].
    exists (x + d.1, y + d.2). split; [|done].
    by apply adjacent_dir.
  - intros (n & Hadj & [Hb Hc] & Hdead).
    apply list_elem_of_fmap in Hadj as (d & -> & Hd). simpl in Hb, Hc, Hdead.
    exists d. split; [by apply list_elem_of_In|].
    rewrite Hb Hdead. simpl. rewrite andb_true_r. by apply bool_decide_eq_true.
Qed.

(* ===================================================================== *)
(** * What [_find_and_capture_stones] captures                            *)
(* ===================================================================== *)

Section capture_loop.

Context (sz : Z) (b : grid) (x y o : Z).

Lemma capture_step_inv seen st d :
  capture_inv sz b x y o seen st →
  capture_inv sz b x y o (seen ++ [d]) (capture_step sz b x y o st d).
Proof.
  intros [HA HK].
  assert (∀ q, (∃ d', d' ∈ seen ++ [d] ∧
                 dead_at sz b x y o (x + d'.1, y + d'.2) ∧
                 connected sz b o (x + d'.1, y + d'.2) q) ↔
               q ∈ st.1 ∨
               (dead_at sz b x y o (x + d.1, y + d.2) ∧
                connected sz b o (x + d.1, y + d.2) q)) as Hsplit.
  { intros q. rewrite HA. split.
    - intros (d' & [Hd'| ->%list_elem_of_singleton]%elem_of_app & Hdead & Hconn);
        [left; by exists d'|by right].
    - intros [(d' & Hd' & Hrest)|Hnew].
      + exists d'. split; [apply elem_of_app; by left|done].
      + exists d. split; [apply elem_of_app; right; by left|done]. }
  assert (¬ stone_at sz b o (x + d.1, y + d.2) →
          capture_inv sz b x y o (seen ++ [d]) st) as Hno.
  { intros Hn. split; [|done]. intros q. rewrite Hsplit. split; [by left|].
    intros [?|[(Hst & _) _]]; [done|by destruct Hn]. }
  unfold capture_step.
  destruct (in_bounds sz (x + d.1) (y + d.2)) eqn:Hb; simpl;
    [|apply Hno; intros [Hb' _]; simpl in Hb'; congruence].
  case_bool_decide as Hc; simpl; [|apply Hno; by intros [_ ?]].
  assert (stone_at sz b o (x + d.1, y + d.2)) as Hst by done.
  case_bool_decide as Hin.
  { (* the stone is already marked: so is its whole group *)
    split; [|done]. intros q. rewrite Hsplit. split; [by left|].
    intros [?|[_ Hconn]]; [done|].
    apply HA in Hin as (d0 & Hd0 & Hdead0 & Hconn0).
    apply HA. exists d0. split; [done|]. split; [done|].
    exact (connected_trans _ _ _ _ _ _ Hconn0 Hconn). }
  case_bool_decide as Hchk.
  { (* the group has been looked at before *)
    split; [|done]. intros q. rewrite Hsplit. split; [by left|].
    intros [?|[(_ & Hdead) Hconn]]; [done|].
    apply (HK _ Hchk Hdead). by apply get_group_at_spec. }
  destruct (_group_has_liberty_excluding sz b
              (_get_group_at sz b (x + d.1) (y + d.2) o) o x y) eqn:Hlib; simpl.
  - (* the group keeps a liberty *)
    split; simpl.
    + intros q. rewrite Hsplit. split; [by left|].
      intros [?|[(_ & Hdead) _]]; [done|]. simpl in Hdead. congruence.
    + intros G [HG| ->%elem_of_singleton]%elem_of_union Hdead;
        [by apply HK|congruence].
  - (* the group is captured *)
    split; simpl.
    + intros q. rewrite Hsplit elem_of_union get_group_at_spec. split.
      * intros [?|Hconn]; [by left|]. right. by split.
      * intros [?|[_ ?]]; [by left|by right].
    + intros G [HG| ->%elem_of_singleton]%elem_of_union Hdead.
      * etrans; [by apply HK|]. apply union_subseteq_l.
      * apply union_subseteq_r.
Qed.

Lemma capture_fold_inv ds seen st :
  capture_inv sz b x y o seen st →
  capture_inv sz b x y o (seen ++ ds) (foldl (capture_step sz b x y o) st ds).
Proof.
  revert seen st. induction ds as [|d ds IH]; intros seen st Hinv; simpl.
  - by rewrite app_nil_r.
  - rewrite (assoc_L (++) seen [d] ds : seen ++ d :: ds = (seen ++ [d]) ++ ds).
    by apply IH, capture_step_inv.
Qed.

(** The captured stones are the groups of the dead neighbours of [(x, y)]. *)
Lemma captured_set_spec q :
  q ∈ captured_set sz b x y o ↔
  ∃ n, dead_neighbour sz b x y o n ∧ connected sz b o n q.
Proof.
  destruct (capture_fold_inv directions [] (∅, ∅)) as [HA _].
  { split; simpl; [|set_solver]. intros q'. split; [set_solver|].
    by intros (d & ?%elem_of_nil & _). }
  unfold captured_set. rewrite HA. simpl. split.
  - intros (d & Hd & [Hst Hdead] & Hconn).
    exists (x + d.1, y + d.2). split; [|done]. split; [|done].
    by apply (adjacent_dir (x, y)).
  - intros (n & (Hadj & Hst & Hdead) & Hconn).
    apply list_elem_of_fmap in Hadj as (d & -> & Hd).
    exists d. split; [exact Hd|]. split; [by split|exact Hconn].
Qed.

End capture_loop.

Lemma remove_stones_square sz b cs : square sz b → square sz (remove_stones b cs).
Proof.
  revert b. induction cs as [|c cs IH]; intros b Hsq; [done|].
  simpl. by apply IH, set_cell_square.
Qed.

(** Removing a list of in-range stones empties exactly those cells. *)
Lemma cell_remove_stones sz b cs x y :
  square sz b → (∀ c, c ∈ cs → in_bounds sz c.1 c.2 = true) →
  0 ≤ x → 0 ≤ y →
  cell (remove_stones b cs) x y = if bool_decide ((x, y) ∈ cs) then 0 else cell b x y.
Proof.
  revert b. induction cs as [|[cx cy] cs IH]; intros b Hsq Hcs Hx Hy.
  { unfold remove_stones. cbn [foldl].
    case_bool_decide as Hin; [by apply elem_of_nil in Hin|done]. }
  unfold remove_stones. cbn [foldl fst snd]. fold (remove_stones (set_cell b cx cy 0) cs).
  assert (in_bounds sz cx cy = true) as Hc by (apply (Hcs (cx, cy)); by left).
  rewrite IH; [by apply set_cell_square|intros c Hin; apply Hcs; by right|done..|].
  destruct (decide ((x, y) ∈ cs)) as [Hin|Hnin].
  - rewrite !bool_decide_eq_true_2; [done|by right|done].
  - rewrite (bool_decide_eq_false_2 _ Hnin).
    destruct (decide ((cx, cy) = (x, y))) as [Heq|Hne].
    + inversion Heq; subst. rewrite bool_decide_eq_true_2; [by left|].
      exact (cell_set_cell_eq sz _ _ _ _ Hsq Hc).
    + rewrite bool_decide_eq_false_2.
      { intros [Heq|?]%elem_of_cons; [by destruct Hne|done]. }
      apply in_bounds_spec in Hc. apply cell_set_cell_ne; [lia..|done].
Qed.

(** Paths survive when every stone of the colour survives. *)
Lemma connected_mono sz b b' c p q :
  (∀ r, stone_at sz b c r → stone_at sz b' c r) →
  connected sz b c p q → connected sz b' c p q.
Proof.
  intros Hmono. induction 1 as [Hst|q r _ IH Hadj Hst].
  - by apply connected_refl, Hmono.
  - eapply connected_step; [exact IH|exact Hadj|by apply Hmono].
Qed.

Lemma has_any_liberty_spec sz b x y c :
  _has_any_liberty sz b x y c = true ↔ has_liberty sz b c (x, y).
Proof.
  unfold _has_any_liberty, has_liberty. rewrite group_has_liberty_spec.
  split; intros (g & l & Hg & Hl); exists g, l; split; try done;
    by apply get_group_at_spec.
Qed.

Lemma has_liberty_connected sz b c p q :
  connected sz b c p q → has_liberty sz b c q → has_liberty sz b c p.
Proof.
  intros Hpq (g & l & Hg & Hl). exists g, l. split; [|done].
  exact (connected_trans _ _ _ _ _ _ Hpq Hg).
Qed.

(* ===================================================================== *)
(** * One placement: the grid before and after                            *)
(* ===================================================================== *)

Section one_move.

Context (sz : Z) (b : grid) (x y p : Z).
Hypothesis Hsq : square sz b.
Hypothesis Hxy : in_bounds sz x y = true.
Hypothesis Hempty : cell b x y = 0.
Hypothesis Hp : p = 1 ∨ p = 2.

(** The grid with the new stone, the captured set, the grid after the
    removal. *)
#[local] Abbreviation o := (3 - p).
#[local] Abbreviation b1 := (set_cell b x y p).
#[local] Abbreviation C := (captured_set sz b1 x y o).
#[local] Abbreviation b2 := (remove_stones b1 (elements C)).

Lemma cell_placed q :
  in_bounds sz q.1 q.2 = true →
  cell b1 q.1 q.2 = if decide (q = (x, y)) then p else cell b q.1 q.2.
Proof.
  intros Hq. destruct (decide (q = (x, y))) as [->|Hne].
  - exact (cell_set_cell_eq sz _ _ _ _ Hsq Hxy).
  - apply in_bounds_spec in Hq, Hxy.
    apply cell_set_cell_ne; [lia..|]. destruct q. naive_solver.
Qed.

Lemma captured_stone q : q ∈ C → stone_at sz b1 o q.
Proof.
  intros (n & _ & Hconn)%captured_set_spec.
  exact (connected_stone_r _ _ _ _ _ Hconn).
Qed.

Lemma captured_opponent q :
  q ∈ C → in_bounds sz q.1 q.2 = true ∧ q ≠ (x, y) ∧ cell b q.1 q.2 = o.
Proof.
  intros [Hb Hc]%captured_stone. split; [done|].
  rewrite cell_placed in Hc; [done|].
  destruct (decide (q = (x, y))); [lia|done].
Qed.

Lemma cell_after q :
  in_bounds sz q.1 q.2 = true →
  cell b2 q.1 q.2 =
    if decide (q ∈ C) then 0
    else if decide (q = (x, y)) then p else cell b q.1 q.2.
Proof.
  intros Hq. pose proof Hq as [??]%in_bounds_spec.
  rewrite (cell_remove_stones sz); [by apply set_cell_square| |lia..|].
  { intros c Hc%elem_of_elements. by apply captured_opponent. }
  rewrite -cell_placed; [done|].
  destruct q as [qx qy]. simpl.
  destruct (decide ((qx, qy) ∈ C)) as [Hin|Hnin].
  - rewrite bool_decide_eq_true_2; [by apply elem_of_elements|done].
  - rewrite bool_decide_eq_false_2; [by rewrite elem_of_elements|done].
Qed.

Lemma after_square : square sz b2.
Proof. by apply remove_stones_square, set_cell_square. Qed.

(** The stone just played stands, and no stone of the mover is taken. *)
Lemma new_stone_stands : cell b2 x y = p.
Proof.
  rewrite (cell_after (x, y)); [done|].
  destruct (decide ((x, y) ∈ C)) as [[_ [Hne _]]%captured_opponent|_]; [done|].
  by rewrite decide_True.
Qed.

Lemma mover_stones_stay q :
  in_bounds sz q.1 q.2 = true → cell b q.1 q.2 = p → cell b2 q.1 q.2 = p.
Proof.
  intros Hq Hc. rewrite cell_after; [done|].
  destruct (decide (q ∈ C)) as [(_ & _ & Ho)%captured_opponent|_]; [lia|].
  by destruct (decide (q = (x, y))).
Qed.

(** Captured cells were the opponent's; every other opposing stone stays. *)
Lemma opponent_after q :
  in_bounds sz q.1 q.2 = true →
  cell b2 q.1 q.2 = o ↔ cell b q.1 q.2 = o ∧ q ∉ C.
Proof.
  intros Hq. rewrite cell_after; [done|].
  destruct (decide (q ∈ C)); [split; [lia|tauto]|].
  destruct (decide (q = (x, y))) as [->|]; [simpl; split; [lia|]|tauto].
  intros [Hc _]. simpl in Hc. lia.
Qed.

End one_move.

Section one_move_alive.

Context (sz : Z) (b : grid) (x y p : Z).
Hypothesis Hsq : square sz b.
Hypothesis Hxy : in_bounds sz x y = true.
Hypothesis Hempty : cell b x y = 0.
Hypothesis Hp : p = 1 ∨ p = 2.
(** The test that [is_valid_move] makes on the grid with the new stone. *)
Hypothesis Hvalid :
  _can_capture_anything sz (set_cell b x y p) x y (3 - p) = true ∨
  _has_any_liberty sz (set_cell b x y p) x y p = true.
(** Before the move every group on the grid has a liberty. *)
Hypothesis Halive :
  ∀ c q, c = 1 ∨ c = 2 → stone_at sz b c q → has_liberty sz b c q.

#[local] Abbreviation o := (3 - p).
#[local] Abbreviation b1 := (set_cell b x y p).
#[local] Abbreviation C := (captured_set sz b1 x y o).
#[local] Abbreviation b2 := (remove_stones b1 (elements C)).

Lemma stone_after c q :
  stone_at sz b2 c q ↔
  in_bounds sz q.1 q.2 = true ∧
  (if decide (q ∈ C) then 0
   else if decide (q = (x, y)) then p else cell b q.1 q.2) = c.
Proof.
  unfold stone_at. split; intros [Hq Hc]; (split; [done|]).
  - by rewrite -(cell_after sz b x y p).
  - by rewrite (cell_after sz b x y p).
Qed.

Lemma opponent_placed q : stone_at sz b1 o q ↔ stone_at sz b o q.
Proof.
  unfold stone_at. split; intros [Hq Hc]; (split; [done|]).
  - rewrite (cell_placed sz b x y p) in Hc; [done..|].
    destruct (decide (q = (x, y))); [lia|done].
  - rewrite (cell_placed sz b x y p); [done..|].
    destruct (decide (q = (x, y))) as [->|]; [simpl in Hc; lia|done].
Qed.

(** The captured set is a union of whole groups. *)
Lemma captured_closed q r :
  connected sz b1 o q r → q ∈ C ↔ r ∈ C.
Proof.
  intros Hqr. rewrite !captured_set_spec. split.
  - intros (n & Hn & Hnq). exists n. split; [done|].
    exact (connected_trans _ _ _ _ _ _ Hnq Hqr).
  - intros (n & Hn & Hnr). exists n. split; [done|].
    eapply connected_trans; [exact Hnr|]. by apply connected_sym.
Qed.

(** A group that is not captured is still joined up after the removal. *)
Lemma opponent_path_after q r :
  q ∉ C → connected sz b1 o q r → connected sz b2 o q r.
Proof.
  intros Hq. induction 1 as [Hst|r r' Hqr IH Hadj Hst].
  - apply connected_refl, stone_after. destruct Hst as [Hb Hc].
    split; [done|]. rewrite decide_False; [done|].
    by rewrite -(cell_placed sz b x y p).
  - eapply connected_step; [exact IH|exact Hadj|].
    apply stone_after. destruct Hst as [Hb Hc]. split; [done|].
    rewrite decide_False.
    + rewrite -(captured_closed q r'); [|done].
      eapply connected_step; [exact Hqr|exact Hadj|by split].
    + by rewrite -(cell_placed sz b x y p).
Qed.

(** An empty cell other than [(x, y)] is still empty afterwards. *)
Lemma empty_after l :
  in_bounds sz l.1 l.2 = true → cell b l.1 l.2 = 0 → l ≠ (x, y) →
  cell b2 l.1 l.2 = 0.
Proof.
  intros Hl Hc Hne. rewrite (cell_after sz b x y p); [done..|].
  destruct (decide (l ∈ C)); [done|]. by rewrite decide_False.
Qed.

Lemma new_stone_at : stone_at sz b2 p (x, y).
Proof. split; [done|]. by apply new_stone_stands. Qed.

(** The group of the new stone has a liberty: a cell it has just emptied,
    or the liberty that [is_valid_move] found. *)
Lemma new_stone_alive : has_liberty sz b2 p (x, y).
Proof.
  destruct (decide (C = ∅)) as [Hnone|Hsome].
  - rewrite Hnone elements_empty. simpl.
    destruct Hvalid as [Hcap|Hlib]; [|by apply has_any_liberty_spec].
    apply can_capture_anything_spec in Hcap as [n Hn].
    assert (n ∈ C) as Hin; [|set_solver].
    apply captured_set_spec. exists n. split; [done|].
    apply connected_refl. by destruct Hn as (_ & ? & _).
  - apply set_choose_L in Hsome as [q Hq].
    apply captured_set_spec in Hq as (n & Hn & _).
    assert (n ∈ C) as Hin.
    { apply captured_set_spec. exists n. split; [done|].
      apply connected_refl. by destruct Hn as (_ & ? & _). }
    destruct Hn as (Hadj & [Hb _] & _).
    exists (x, y), n. split; [apply connected_refl, new_stone_at|].
    split; [done|]. split; [done|].
    rewrite (cell_after sz b x y p); [done..|]. by rewrite decide_True.
Qed.

Lemma mover_path_after q r :
  connected sz b p q r → connected sz b2 p q r.
Proof.
  apply connected_mono. intros r' [Hb Hc]. split; [done|].
  by apply mover_stones_stay.
Qed.

(** After the move every group on the grid has a liberty. *)
Lemma alive_after c q :
  c = 1 ∨ c = 2 → stone_at sz b2 c q → has_liberty sz b2 c q.
Proof.
  intros Hc Hst. pose proof Hst as [Hb Hcell]%stone_after.
  destruct (decide (q ∈ C)) as [|HqC]; [lia|].
  destruct (decide (q = (x, y))) as [->|Hne].
  { subst c. apply new_stone_alive. }
  assert (stone_at sz b c q) as Hst0 by done.
  destruct (Halive c q Hc Hst0) as (g & l & Hg & Hadj & Hlb & Hlc).
  destruct (decide (c = p)) as [->|Hcp].
  - (* a group of the mover *)
    destruct (decide (l = (x, y))) as [->|Hl].
    + apply (has_liberty_connected _ _ _ _ (x, y)); [|apply new_stone_alive].
      eapply connected_step; [by apply mover_path_after|done|].
      apply new_stone_at.
    + exists g, l. split; [by apply mover_path_after|].
      split; [done|]. split; [done|]. by apply empty_after.
  - (* a group of the opponent *)
    assert (c = o) as -> by lia.
    assert (connected sz b1 o q g) as Hg1.
    { revert Hg. apply connected_mono. intros r. apply opponent_placed. }
    destruct (_group_has_liberty_excluding sz b1
                (_get_group_at sz b1 q.1 q.2 o) o x y) eqn:Hex.
    + apply group_has_liberty_excluding_spec in Hex
        as (g' & l' & Hg' & (Hadj' & Hlb' & Hlc') & Hl').
      apply get_group_at_spec in Hg'. destruct q as [qx qy]. simpl in Hg'.
      exists g', l'. split; [by apply opponent_path_after|].
      split; [done|]. split; [done|].
      rewrite (cell_after sz b x y p); [done..|].
      destruct (decide (l' ∈ C)); [done|].
      by rewrite -(cell_placed sz b x y p).
    + destruct HqC. apply captured_set_spec.
      destruct (decide (l = (x, y))) as [->|Hl].
      * exists g. split; [|by apply connected_sym].
        split; [by apply adjacent_sym|].
        split; [exact (connected_stone_r _ _ _ _ _ Hg1)|].
        destruct q as [qx qy], g as [gx gy].
        by rewrite -(get_group_at_eq _ _ _ _ _ _ _ Hg1).
      * apply not_true_iff_false in Hex. destruct Hex.
        apply group_has_liberty_excluding_spec.
        exists g, l. split; [destruct q; by apply get_group_at_spec|].
        split; [|done]. split; [done|]. split; [done|].
        rewrite (cell_placed sz b x y p); [done..|]. by rewrite decide_False.
Qed.

End one_move_alive.

(* ===================================================================== *)
(** * [is_valid_move] and [place_stone], case by case                     *)
(* ===================================================================== *)

Lemma is_valid_move_spec s x y :
  is_valid_move s x y = true ↔
  in_bounds (size s) x y = true ∧
  cell (board s) x y = 0 ∧
  ko_point s ≠ Some (x, y) ∧
  (_can_capture_anything (size s) (set_cell (board s) x y (current_player s))
     x y (3 - current_player s) = true ∨
   _has_any_liberty (size s) (set_cell (board s) x y (current_player s))
     x y (current_player s) = true).
Proof.
  unfold is_valid_move.
  destruct (in_bounds (size s) x y); simpl; [|naive_solver].
  case_bool_decide as Hc; simpl; [|naive_solver].
  case_bool_decide as Hko; simpl; [naive_solver|].
  destruct (_can_capture_anything _ _ _ _ _); simpl; [naive_solver|].
  destruct (_has_any_liberty _ _ _ _ _); simpl; naive_solver.
Qed.

Lemma place_stone_invalid s x y :
  is_valid_move s x y = false →
  place_stone s x y = ((false, "无效的落子位置"), s).
Proof. intros Hv. unfold place_stone. by rewrite Hv. Qed.

Lemma place_stone_valid s x y :
  is_valid_move s x y = true →
  (place_stone s x y).1.1 = true ∧ (place_stone s x y).2 = placed s x y.
Proof.
  intros Hv. unfold place_stone, placed, _find_and_capture_stones.
  rewrite Hv. cbv beta iota zeta delta [negb fst snd]. split; [done|].
  set (C := captured_set _ _ _ _ _).
  destruct (decide (C = ∅)) as [Hnone|Hsome].
  - rewrite Hnone size_empty.
    rewrite bool_decide_eq_true_2; [done|].
    cbv beta iota zeta delta [negb andb].
    f_equal; case_bool_decide; f_equal; lia.
  - rewrite (bool_decide_eq_false_2 _ Hsome).
    cbv beta iota zeta delta [negb andb].
    f_equal; by case_bool_decide.
Qed.

(* ===================================================================== *)
(** * Reachable states and what holds in all of them                      *)
(* ===================================================================== *)

Lemma cells_ok_cell b x y : cells_ok b → cell b x y = 0 ∨ cell b x y = 1 ∨ cell b x y = 2.
Proof.
  intros Hok. unfold cell.
  destruct (b !! Z.to_nat y) as [row|] eqn:Hrow; simpl; [|by left].
  destruct (row !! Z.to_nat x) as [v|] eqn:Hv; simpl; [|by left].
  apply list_elem_of_lookup_2 in Hrow, Hv.
  unfold cells_ok in Hok. rewrite Forall_forall in Hok.
  specialize (Hok row Hrow). rewrite Forall_forall in Hok. by apply Hok.
Qed.

Lemma set_cell_cells_ok b x y v :
  v = 0 ∨ v = 1 ∨ v = 2 → cells_ok b → cells_ok (set_cell b x y v).
Proof.
  intros Hv Hok. unfold set_cell. apply Forall_alter; [done|].
  intros row _ Hrow. by apply Forall_insert.
Qed.

Lemma remove_stones_cells_ok b cs : cells_ok b → cells_ok (remove_stones b cs).
Proof.
  revert b. induction cs as [|c cs IH]; intros b Hok; [done|].
  simpl. apply IH, set_cell_cells_ok; [by left|done].
Qed.

Lemma init_ok n : board_ok (init n).
Proof.
  split; simpl.
  - apply init_square.
  - apply Forall_fmap, Forall_forall. intros ? _. simpl.
    apply Forall_fmap, Forall_forall. intros ? _. simpl. by left.
  - by left.
  - intros c q Hc [_ Hst]. rewrite cell_init in Hst. lia.
Qed.

Lemma pass_move_ok s : board_ok s → board_ok (pass_move s).
Proof. intros [Hsq Hcells Hp Hal]. split; simpl; [done..|lia|done]. Qed.

Lemma placed_ok s x y :
  board_ok s → is_valid_move s x y = true → board_ok (placed s x y).
Proof.
  intros [Hsq Hcells Hp Hal] (Hb & Hc & _ & Hvalid)%is_valid_move_spec.
  split; unfold placed; cbn [size board current_player].
  - by apply remove_stones_square, set_cell_square.
  - apply remove_stones_cells_ok, set_cell_cells_ok; [lia|done].
  - lia.
  - intros c q Hcq Hst. by apply alive_after.
Qed.

Lemma place_stone_ok s x y : board_ok s → board_ok (place_stone s x y).2.
Proof.
  intros Hok. destruct (is_valid_move s x y) eqn:Hv.
  - destruct (place_stone_valid s x y Hv) as [_ ->]. by apply placed_ok.
  - by rewrite place_stone_invalid.
Qed.

Lemma reachable_ok n s : reachable n s → board_ok s.
Proof.
  induction 1; [apply init_ok|by apply place_stone_ok|by apply pass_move_ok].
Qed.

Lemma place_stone_size s x y : size (place_stone s x y).2 = size s.
Proof.
  destruct (is_valid_move s x y) eqn:Hv.
  - by destruct (place_stone_valid s x y Hv) as [_ ->].
  - by rewrite place_stone_invalid.
Qed.

Lemma reachable_size n s : reachable n s → size s = n.
Proof.
  induction 1; [done| |done]. by rewrite place_stone_size.
Qed.

(* ===================================================================== *)
(** * Legality of a move (C1)                                             *)
(* ===================================================================== *)

Lemma dead_neighbour_spec sz b x y o n :
  dead_neighbour sz b x y o n ↔
  adjacent (x, y) n ∧ stone_at sz b o n ∧
  ∀ l, ¬ group_liberty_excluding sz b o n (x, y) l.
Proof.
  unfold dead_neighbour. rewrite -not_true_iff_false.
  rewrite group_has_liberty_excluding_spec. destruct n as [nx ny]. simpl.
  split; intros (Hadj & Hst & Hdead); (split; [done|]); (split; [done|]).
  - intros l (g & Hg & Hl & Hne). apply Hdead. exists g, l.
    split; [by apply get_group_at_spec|done].
  - intros (g & l & Hg%get_group_at_spec & Hl & Hne).
    apply (Hdead l). by exists g.
Qed.

Lemma can_capture_would_capture s x y :
  _can_capture_anything (size s) (set_cell (board s) x y (current_player s))
    x y (3 - current_player s) = true ↔ would_capture s x y.
Proof.
  rewrite can_capture_anything_spec. unfold would_capture.
  split; intros [n Hn]; exists n; by apply dead_neighbour_spec.
Qed.

(** C1.  On an in-range, empty cell that is not the ko point, [is_valid_move]
    accepts every move that leaves an adjacent opposing group without a
    liberty (a capturing move); a move that captures nothing is accepted
    exactly when the mover's own group keeps a liberty, so a move into zero
    liberties is refused unless it captures. *)
Theorem is_valid_move_capture_or_liberty (s : GoBoard) (x y : Z) :
  in_bounds (size s) x y = true →
  cell (board s) x y = 0 →
  ko_point s ≠ Some (x, y) →
  (would_capture s x y → is_valid_move s x y = true) ∧
  (¬ would_capture s x y →
     (is_valid_move s x y = true ↔ own_group_has_liberty s x y)) ∧
  (¬ own_group_has_liberty s x y →
     (is_valid_move s x y = true ↔ would_capture s x y)).
Proof.
  intros Hb Hc Hko.
  rewrite is_valid_move_spec can_capture_would_capture has_any_liberty_spec.
  unfold own_group_has_liberty. tauto.
Qed.

(* ===================================================================== *)
(** * Concrete positions                                                  *)
(* ===================================================================== *)

Lemma plays_reachable n s ms : reachable n s → reachable n (plays s ms).
Proof.
  revert s. induction ms as [|[[x y]|] ms IH]; intros s Hs; simpl; [done|..].
  - by apply IH, reachable_place.
  - by apply IH, reachable_pass.
Qed.

Lemma is_valid_move_capture_or_liberty_witness :
  (would_capture atari_position 1 2 → is_valid_move atari_position 1 2 = true) ∧
  (¬ would_capture atari_position 1 2 →
     (is_valid_move atari_position 1 2 = true ↔
      own_group_has_liberty atari_position 1 2)) ∧
  (¬ own_group_has_liberty atari_position 1 2 →
     (is_valid_move atari_position 1 2 = true ↔ would_capture atari_position 1 2)).
Proof.
  apply (is_valid_move_capture_or_liberty atari_position 1 2).
  - vm_compute. reflexivity.
  - vm_compute. reflexivity.
  - vm_compute. discriminate.
Defined.

(* ===================================================================== *)
(** * A refused move changes nothing (C3)                                 *)
(* ===================================================================== *)

(** C3.  When [is_valid_move(x, y)] is false, [place_stone(x, y)] returns
    failure and the state afterwards is the state before: grid, player,
    history, capture counts, ko point and last move are all untouched. *)
Theorem place_stone_refused_unchanged (s : GoBoard) (x y : Z) :
  is_valid_move s x y = false →
  (place_stone s x y).1.1 = false ∧
  (place_stone s x y).2 = s ∧
  board (place_stone s x y).2 = board s ∧
  current_player (place_stone s x y).2 = current_player s ∧
  move_history (place_stone s x y).2 = move_history s ∧
  captured_black (place_stone s x y).2 = captured_black s ∧
  captured_white (place_stone s x y).2 = captured_white s ∧
  ko_point (place_stone s x y).2 = ko_point s ∧
  last_move (place_stone s x y).2 = last_move s.
Proof. intros Hv. by rewrite place_stone_invalid. Qed.

Lemma place_stone_refused_unchanged_witness :
  (place_stone ko_position 1 1).1.1 = false ∧
  (place_stone ko_position 1 1).2 = ko_position ∧
  board (place_stone ko_position 1 1).2 = board ko_position ∧
  current_player (place_stone ko_position 1 1).2 = current_player ko_position ∧
  move_history (place_stone ko_position 1 1).2 = move_history ko_position ∧
  captured_black (place_stone ko_position 1 1).2 = captured_black ko_position ∧
  captured_white (place_stone ko_position 1 1).2 = captured_white ko_position ∧
  ko_point (place_stone ko_position 1 1).2 = ko_point ko_position ∧
  last_move (place_stone ko_position 1 1).2 = last_move ko_position.
Proof.
  apply (place_stone_refused_unchanged ko_position 1 1).
  vm_compute. reflexivity.
Defined.

(* ===================================================================== *)
(** * The list of legal moves (C6)                                        *)
(* ===================================================================== *)

Lemma scan_row_filter (f : Z → Z → bool) (y : Z) (xs : list Z) :
  (x ← xs; if f x y then [(x, y)] else []) =
  filter (λ p : pos, f p.1 p.2 = true) (x ← xs; [(x, y)]).
Proof.
  induction xs as [|x xs IHx]; [done|].
  cbn [mbind list_bind]. rewrite filter_app -IHx. f_equal.
  rewrite filter_cons filter_nil. cbn [fst snd].
  destruct (f x y); case_decide; done.
Qed.

Lemma scan_filter (f : Z → Z → bool) (ys xs : list Z) :
  (y ← ys; x ← xs; if f x y then [(x, y)] else []) =
  filter (λ p : pos, f p.1 p.2 = true) (y ← ys; x ← xs; [(x, y)]).
Proof.
  induction ys as [|y ys IHy]; [done|].
  cbn [mbind list_bind]. by rewrite filter_app IHy scan_row_filter.
Qed.

Lemma get_valid_moves_filter s :
  get_valid_moves s =
  filter (λ p : pos, is_valid_move s p.1 p.2 = true) (all_cells (size s)).
Proof. apply (scan_filter (is_valid_move s)). Qed.

Lemma elem_of_get_valid_moves s x y :
  (x, y) ∈ get_valid_moves s ↔ is_valid_move s x y = true.
Proof.
  rewrite get_valid_moves_filter list_elem_of_filter. simpl.
  split; [by intros [? _]|]. intros Hv. split; [done|].
  apply elem_of_all_cells. simpl.
  by apply is_valid_move_spec in Hv as (? & _).
Qed.

(** C6.  [get_valid_moves] is the row-major scan of the grid ([y] outer, [x]
    inner) filtered by [is_valid_move]: it holds exactly the coordinates that
    [is_valid_move] accepts, so never the ko point, an occupied cell or a
    coordinate out of range; and it can be empty. *)
Theorem get_valid_moves_exact (s : GoBoard) :
  get_valid_moves s =
    filter (λ p : pos, is_valid_move s p.1 p.2 = true) (all_cells (size s)) ∧
  (∀ x y, (x, y) ∈ get_valid_moves s ↔ is_valid_move s x y = true) ∧
  (∀ x y, (x, y) ∈ get_valid_moves s →
     ko_point s ≠ Some (x, y) ∧ cell (board s) x y = 0 ∧
     0 ≤ x < size s ∧ 0 ≤ y < size s) ∧
  get_valid_moves (init 1) = [].
Proof.
  split; [apply get_valid_moves_filter|].
  pose proof (elem_of_get_valid_moves s) as Hiff.
  split; [done|]. split; [|by vm_compute].
  intros x y (Hb & Hc & Hko & _)%Hiff%is_valid_move_spec.
  apply in_bounds_spec in Hb. tauto.
Qed.

(* ===================================================================== *)
(** * Every group on the board has a liberty (C10)                        *)
(* ===================================================================== *)



(* ===================================================================== *)
(** * The ko point (C2)                                                   *)
(* ===================================================================== *)





(* ===================================================================== *)
(** * Counting stones (C8)                                                *)
(* ===================================================================== *)

Lemma row_count_total row :
  Forall (λ v, v = 0 ∨ v = 1 ∨ v = 2) row →
  (row_count 1 row + row_count 2 row + row_count 0 row = length row)%nat.
Proof.
  unfold row_count. induction 1 as [|v row Hv _ IH]; [done|].
  rewrite !filter_cons. simpl.
  repeat case_decide; simpl; lia.
Qed.

Lemma count_stones_total n b :
  0 ≤ n → square n b → cells_ok b →
  count_stones 1 b + count_stones 2 b + count_stones 0 b = n * n.
Proof.
  intros Hn [Hlen Hrows] Hcells. unfold count_stones.
  assert (∀ m, Forall (λ row : list Z, length row = m) b →
          sum_list (row_count 1 <$> b) + sum_list (row_count 2 <$> b)
          + sum_list (row_count 0 <$> b) = length b * m)%nat as Hsum.
  { clear Hlen Hrows. intros m Hrows. induction b as [|row b IH]; [done|].
    apply Forall_cons in Hrows as [Hrow Hrows].
    apply Forall_cons in Hcells as [Hcell Hcells].
    specialize (IH Hcells Hrows). pose proof (row_count_total row Hcell).
    unfold fmap in *. simpl. lia. }
  specialize (Hsum _ Hrows).
  rewrite Hlen in Hsum. nia.
Qed.

Lemma row_count_insert_le v w i row :
  w ≠ v → (row_count v (<[i:=w]> row) ≤ row_count v row)%nat.
Proof.
  intros Hne. unfold row_count. revert i.
  induction row as [|c row IH]; intros i; [done|].
  destruct i as [|i]; simpl.
  - rewrite !filter_cons. rewrite decide_False; [done|].
    case_decide; simpl; lia.
  - rewrite !filter_cons. specialize (IH i). case_decide; simpl; lia.
Qed.

Lemma count_set_cell_le v b x y w :
  w ≠ v → count_stones v (set_cell b x y w) ≤ count_stones v b.
Proof.
  intros Hne. unfold count_stones, set_cell.
  apply inj_le. generalize (Z.to_nat y). intros j. revert j.
  induction b as [|row b IH]; intros j; [done|].
  destruct j as [|j]; unfold fmap in *; simpl.
  - pose proof (row_count_insert_le v w (Z.to_nat x) row Hne). lia.
  - apply Nat.add_le_mono_l, IH.
Qed.

Lemma count_remove_stones_le v b cs :
  v ≠ 0 → count_stones v (remove_stones b cs) ≤ count_stones v b.
Proof.
  intros Hv. revert b. induction cs as [|c cs IH]; intros b; [done|].
  simpl. etrans; [apply IH|]. by apply count_set_cell_le.
Qed.

(** C8.  In every state reached from a fresh [n] by [n] board the black,
    white and empty cells add up to [n * n]; an accepted [place_stone] does
    not raise the number of the opponent's stones; and no operation lowers
    [captured_black] or [captured_white]. *)
Theorem counts_conserved (n : Z) (s : GoBoard) :
  0 ≤ n → reachable n s →
  count_stones 1 (board s) + count_stones 2 (board s)
    + count_stones 0 (board s) = n * n ∧
  (∀ x y, is_valid_move s x y = true →
     count_stones (3 - current_player s) (board (place_stone s x y).2)
       ≤ count_stones (3 - current_player s) (board s)) ∧
  (∀ x y, captured_black s ≤ captured_black (place_stone s x y).2 ∧
          captured_white s ≤ captured_white (place_stone s x y).2) ∧
  (captured_black s ≤ captured_black (pass_move s) ∧
   captured_white s ≤ captured_white (pass_move s)).
Proof.
  intros Hn Hreach. pose proof (reachable_ok n s Hreach) as [Hsq Hcells Hp Hal].
  rewrite (reachable_size n s Hreach) in Hsq.
  split; [by apply count_stones_total|]. split; [|split].
  - intros x y Hv. destruct (place_stone_valid s x y Hv) as [_ ->].
    unfold placed. cbn [board].
    etrans; [apply count_remove_stones_le; lia|].
    apply count_set_cell_le. lia.
  - intros x y. destruct (is_valid_move s x y) eqn:Hv.
    + destruct (place_stone_valid s x y Hv) as [_ ->].
      unfold placed. cbn [captured_black captured_white].
      case_bool_decide; lia.
    + by rewrite place_stone_invalid.
  - done.
Qed.

Lemma counts_conserved_witness :
  count_stones 1 (board ko_position) + count_stones 2 (board ko_position)
    + count_stones 0 (board ko_position) = 9 * 9 ∧
  (∀ x y, is_valid_move ko_position x y = true →
     count_stones (3 - current_player ko_position)
        (board (place_stone ko_position x y).2)
       ≤ count_stones (3 - current_player ko_position) (board ko_position)) ∧
  (∀ x y,
     captured_black ko_position ≤ captured_black (place_stone ko_position x y).2 ∧
     captured_white ko_position ≤ captured_white (place_stone ko_position x y).2) ∧
  (captured_black ko_position ≤ captured_black (pass_move ko_position) ∧
   captured_white ko_position ≤ captured_white (pass_move ko_position)).
Proof.
  apply (counts_conserved 9 ko_position).
  - lia.
  - apply plays_reachable, reachable_init.
Defined.

(* ===================================================================== *)
(** * After the game is over (C4)                                         *)
(* ===================================================================== *)

(** After two passes the board still takes a stone on (4,4) and still takes
    a pass: the state changes both times. *)
Lemma game_over_not_enforced :
  is_game_over finished_position = true ∧
  (place_stone finished_position 4 4).1.1 = true ∧
  (place_stone finished_position 4 4).2 ≠ finished_position ∧
  pass_move finished_position ≠ finished_position ∧
  ¬ mutations_refused_after_end finished_position.
Proof.
  assert (is_game_over finished_position = true) as Hover by (by vm_compute).
  assert ((place_stone finished_position 4 4).1.1 = true) as Hplace
    by (by vm_compute).
  split; [done|]. split; [done|]. split; [|split].
  - intros Heq. apply (f_equal last_move) in Heq. vm_compute in Heq. done.
  - intros Heq. apply (f_equal current_player) in Heq. vm_compute in Heq. done.
  - intros Hclaim. destruct (Hclaim Hover) as [Hrefused _].
    destruct (Hrefused 4 4) as [Hfalse _]. congruence.
Qed.

Lemma is_game_over_pass s : is_game_over s = true → is_game_over (pass_move s) = true.
Proof.
  unfold is_game_over, pass_move. cbn [move_history].
  rewrite rev_unit.
  destruct (rev (move_history s)) as [|m1 [|m2 ms]]; [done..|].
  intros [H1 _]%andb_true_iff. cbn [mv_x]. rewrite H1.
  by rewrite bool_decide_eq_true_2.
Qed.

(** C4, as the board behaves.  [GoBoard] has no end-of-game check: in a
    state where [is_game_over()] holds, [place_stone] is refused exactly when
    [is_valid_move] is false (and then changes nothing) and is carried out
    otherwise; [pass_move] appends a pass, hands the turn over and clears the
    ko point, and the game stays over. *)
Theorem game_over_does_not_block (s : GoBoard) :
  is_game_over s = true →
  (∀ x y,
     (place_stone s x y).1.1 = is_valid_move s x y ∧
     (is_valid_move s x y = false → (place_stone s x y).2 = s) ∧
     (is_valid_move s x y = true → (place_stone s x y).2 = placed s x y)) ∧
  move_history (pass_move s) =
    move_history s ++ [mkMove (-1) (-1) (current_player s) 0] ∧
  current_player (pass_move s) = 3 - current_player s ∧
  ko_point (pass_move s) = None ∧
  board (pass_move s) = board s ∧
  is_game_over (pass_move s) = true.
Proof.
  intros Hover. split.
  - intros x y. destruct (is_valid_move s x y) eqn:Hv.
    + destruct (place_stone_valid s x y Hv) as [-> ->]. done.
    + by rewrite place_stone_invalid.
  - repeat split. by apply is_game_over_pass.
Qed.

Lemma game_over_does_not_block_witness :
  (∀ x y,
     (place_stone finished_position x y).1.1 = is_valid_move finished_position x y ∧
     (is_valid_move finished_position x y = false →
        (place_stone finished_position x y).2 = finished_position) ∧
     (is_valid_move finished_position x y = true →
        (place_stone finished_position x y).2 = placed finished_position x y)) ∧
  move_history (pass_move finished_position) =
    move_history finished_position
      ++ [mkMove (-1) (-1) (current_player finished_position) 0] ∧
  current_player (pass_move finished_position) =
    3 - current_player finished_position ∧
  ko_point (pass_move finished_position) = None ∧
  board (pass_move finished_position) = board finished_position ∧
  is_game_over (pass_move finished_position) = true.
Proof.
  apply (game_over_does_not_block finished_position).
  vm_compute. reflexivity.
Defined.

(* ===================================================================== *)
(** * Scoring                                                             *)
(* ===================================================================== *)

Lemma elem_of_pushed cx cy (rest : list pos) q :
  q ∈ reverse ((λ d : pos, (cx + d.1, cy + d.2)) <$> directions) ++ rest ↔
  adjacent (cx, cy) q ∨ q ∈ rest.
Proof. by rewrite elem_of_app elem_of_reverse. Qed.

Section territory_fill.

Context (sz : Z) (b : grid).

Lemma territory_loop_terminates fuel stack st :
  (length stack + 4 * base.size (list_to_set (all_cells sz) ∖ st.1.1 : gset pos)
     < fuel)%nat →
  is_Some (territory_loop fuel sz b stack st).
Proof.
  revert stack st.
  induction fuel as [|fuel IH]; intros stack [[visited tb] tw] Hfuel; [lia|].
  destruct stack as [|[cx cy] rest]; simpl; [by eexists|].
  simpl in Hfuel.
  case_bool_decide as Hin; [apply IH; simpl; lia|].
  assert (list_to_set (all_cells sz) ∖ (visited ∪ {[(cx, cy)]})
            ⊆ (list_to_set (all_cells sz) ∖ visited : gset pos)) as Hsub
    by set_solver.
  apply subseteq_size in Hsub.
  destruct (in_bounds sz cx cy) eqn:Hb; simpl; [|apply IH; simpl; lia].
  assert (list_to_set (all_cells sz) ∖ (visited ∪ {[(cx, cy)]})
            ⊂ (list_to_set (all_cells sz) ∖ visited : gset pos)) as Hlt.
  { assert ((cx, cy) ∈ (list_to_set (all_cells sz) : gset pos)).
    { apply elem_of_list_to_set, elem_of_all_cells. done. }
    set_solver. }
  apply subset_size in Hlt.
  case_bool_decide; [apply IH; simpl; lia|].
  case_bool_decide; [apply IH; simpl; lia|].
  apply IH. simpl. lia.
Qed.

Context (start : pos).
Hypothesis Hcells : cells_ok b.

Lemma territory_loop_sound fuel stack st st' :
  territory_loop fuel sz b stack st = Some st' →
  (∀ q, q ∈ stack → frontier sz b start q) →
  (st.1.2 = true → borders sz b start 1) →
  (st.2 = true → borders sz b start 2) →
  (st'.1.2 = true → borders sz b start 1) ∧
  (st'.2 = true → borders sz b start 2).
Proof.
  revert stack st.
  induction fuel as [|fuel IH]; intros stack [[visited tb] tw] Hrun Hstack Hb Hw;
    [done|].
  destruct stack as [|[cx cy] rest]; simpl in Hrun.
  { by inversion Hrun; subst. }
  assert (∀ q, q ∈ rest → frontier sz b start q) as Hrest.
  { intros q Hq. apply Hstack. by right. }
  destruct (Hstack (cx, cy)) as [Hempty Hstone]; [by left|].
  case_bool_decide as Hin; [exact (IH _ _ Hrun Hrest Hb Hw)|].
  destruct (in_bounds sz cx cy) eqn:Hbd; simpl in Hrun;
    [|exact (IH _ _ Hrun Hrest Hb Hw)].
  case_bool_decide as H1.
  { apply (IH _ _ Hrun Hrest); [|done]. intros _. apply Hstone; [by left|done]. }
  case_bool_decide as H2.
  { apply (IH _ _ Hrun Hrest); [done|]. intros _. apply Hstone; [by right|done]. }
  assert (stone_at sz b 0 (cx, cy)) as Hst.
  { split; [done|]. simpl.
    destruct (cells_ok_cell b cx cy Hcells) as [?|[?|?]]; done. }
  apply (IH _ _ Hrun); [|done..].
  intros q Hq. apply (proj1 (elem_of_pushed cx cy rest q)) in Hq.
  destruct Hq as [Hq|Hq]; [|by apply Hrest].
  split.
  - intros Hq0. eapply connected_step; [by apply Hempty|exact Hq|done].
  - intros c Hc Hqc. exists (cx, cy), q. split; [by apply Hempty|done].
Qed.

Lemma territory_loop_closed fuel stack st st' :
  territory_loop fuel sz b stack st = Some st' →
  territory_inv sz b stack st →
  st.1.1 ⊆ st'.1.1 ∧ (∀ q, q ∈ stack → q ∈ st'.1.1) ∧ territory_inv sz b [] st'.
Proof.
  revert stack st.
  induction fuel as [|fuel IH]; intros stack [[visited tb] tw] Hrun Hinv; [done|].
  destruct stack as [|[cx cy] rest]; simpl in Hrun.
  { inversion Hrun; subst. split; [done|]. split; [|done].
    by intros q ?%elem_of_nil. }
  destruct Hinv as (Hcl & Hb & Hw). simpl in Hcl, Hb, Hw.
  assert (∀ tb' tw',
    (∀ q, q ∈ visited ∪ {[(cx, cy)]} → stone_at sz b 1 q → tb' = true) →
    (∀ q, q ∈ visited ∪ {[(cx, cy)]} → stone_at sz b 2 q → tw' = true) →
    ¬ stone_at sz b 0 (cx, cy) →
    territory_loop fuel sz b rest (visited ∪ {[(cx, cy)]}, tb', tw') = Some st' →
    visited ⊆ st'.1.1 ∧ (∀ q, q ∈ (cx, cy) :: rest → q ∈ st'.1.1) ∧
    territory_inv sz b [] st') as Hstone.
  { intros tb' tw' Hb' Hw' Hne Hrun'.
    destruct (IH _ _ Hrun') as (Hsub & Hstk & Hfin); [|simpl in Hsub].
    - split; [|done]. simpl. intros g r [Hg| ->%elem_of_singleton]%elem_of_union Hg0 Hadj;
        [|done].
      destruct (Hcl g r Hg Hg0 Hadj) as [?|[->|?]%elem_of_cons];
        [left; set_solver|left; set_solver|by right].
    - split; [set_solver|]. split; [|done].
      intros q [->|Hq]%elem_of_cons; [set_solver|by apply Hstk]. }
  case_bool_decide as Hin.
  { destruct (IH _ _ Hrun) as (Hsub & Hstk & Hfin); [|simpl in Hsub].
    - split; [|done]. simpl. intros g r Hg Hg0 Hadj.
      destruct (Hcl g r Hg Hg0 Hadj) as [?|[->|?]%elem_of_cons]; auto.
    - split; [done|]. split; [|done].
      intros q [->|Hq]%elem_of_cons; [by apply Hsub|by apply Hstk]. }
  destruct (in_bounds sz cx cy) eqn:Hbd; simpl in Hrun.
  2:{ apply (Hstone tb tw); [| |by intros [Hbd' _]; simpl in Hbd'; congruence|done].
      - intros q [Hq| ->%elem_of_singleton]%elem_of_union [Hqb Hqc];
          [by eapply Hb|simpl in Hqb; congruence].
      - intros q [Hq| ->%elem_of_singleton]%elem_of_union [Hqb Hqc];
          [by eapply Hw|simpl in Hqb; congruence]. }
  case_bool_decide as H1.
  { apply (Hstone true tw); [done| |by intros [_ ?]; simpl in *; lia|done].
    intros q [Hq| ->%elem_of_singleton]%elem_of_union [Hqb Hqc];
      [by eapply Hw|simpl in Hqc; lia]. }
  case_bool_decide as H2.
  { apply (Hstone tb true); [|done|by intros [_ ?]; simpl in *; lia|done].
    intros q [Hq| ->%elem_of_singleton]%elem_of_union [Hqb Hqc];
      [by eapply Hb|simpl in Hqc; lia]. }
  clear Hstone.
  destruct (IH _ _ Hrun) as (Hsub & Hstk & Hfin); [|simpl in Hsub].
  - split; [|split]; simpl.
    + intros g r [Hg| ->%elem_of_singleton]%elem_of_union Hg0 Hadj.
      * destruct (Hcl g r Hg Hg0 Hadj) as [?|[->|?]%elem_of_cons];
          [left; set_solver|left; set_solver|].
        right. apply (proj2 (elem_of_pushed cx cy rest r)). by right.
      * right. apply (proj2 (elem_of_pushed cx cy rest r)). by left.
    + intros q [Hq| ->%elem_of_singleton]%elem_of_union [Hqb Hqc];
        [by eapply Hb|simpl in Hqc; lia].
    + intros q [Hq| ->%elem_of_singleton]%elem_of_union [Hqb Hqc];
        [by eapply Hw|simpl in Hqc; lia].
  - split; [set_solver|]. split; [|done].
    intros q [->|Hq]%elem_of_cons; [set_solver|].
    apply Hstk. apply (proj2 (elem_of_pushed cx cy rest q)). by right.
Qed.

End territory_fill.

Lemma territory_loop_total sz b x y :
  is_Some (territory_loop (group_fuel sz) sz b [(x, y)] (∅, false, false)).
Proof.
  apply territory_loop_terminates. simpl.
  pose proof (group_fuel_enough sz) as Hfuel.
  pose proof (size_cells sz) as Hcells.
  pose proof (subseteq_size (list_to_set (all_cells sz) ∖ ∅ : gset pos)
                (list_to_set (all_cells sz))) as Hsub.
  assert (base.size (list_to_set (all_cells sz) ∖ ∅ : gset pos)
          ≤ Z.to_nat sz * Z.to_nat sz)%nat as Hle.
  { etrans; [apply Hsub; set_solver|exact Hcells]. }
  revert Hfuel Hle. generalize (Z.to_nat sz * Z.to_nat sz)%nat. lia.
Qed.

(** The flags that the fill of [_get_territory_owner] ends with say whether
    the empty region of [(x, y)] touches a black, a white stone. *)
Lemma territory_flags sz b x y :
  cells_ok b → cell b x y = 0 →
  ∃ V tb tw,
    territory_loop (group_fuel sz) sz b [(x, y)] (∅, false, false)
      = Some (V, tb, tw) ∧
    (tb = true ↔ borders sz b (x, y) 1) ∧
    (tw = true ↔ borders sz b (x, y) 2).
Proof.
  intros Hcells Hc.
  destruct (territory_loop_total sz b x y) as [[[V tb] tw] Hrun].
  exists V, tb, tw. split; [done|].
  destruct (territory_loop_sound sz b (x, y) Hcells _ _ _ _ Hrun)
    as [Hsb Hsw]; [|done..|].
  { intros q ->%list_elem_of_singleton. split.
    - apply connected_refl.
    - intros c Hcc [_ Hq]. simpl in Hq. lia. }
  destruct (territory_loop_closed sz b Hcells _ _ _ _ Hrun)
    as (_ & Hstart & Hcl & Hb & Hw); [by split; [|split]; set_solver|].
  simpl in Hsb, Hsw, Hcl, Hb, Hw, Hstart.
  assert (∀ g, connected sz b 0 (x, y) g → g ∈ V) as Hregion.
  { induction 1 as [Hst|g r Hg IH Hadj Hst]; [apply Hstart; by left|].
    destruct (Hcl g r IH (connected_stone_r _ _ _ _ _ Hg) Hadj)
      as [?|?%elem_of_nil]; done. }
  assert (∀ c, borders sz b (x, y) c → ∃ r, r ∈ V ∧ stone_at sz b c r) as Hedge.
  { intros c (g & r & Hg & Hadj & Hst). exists r. split; [|done].
    destruct (Hcl g r (Hregion g Hg) (connected_stone_r _ _ _ _ _ Hg) Hadj)
      as [?|?%elem_of_nil]; done. }
  split; (split; [done|]).
  - intros (r & Hr & Hst)%Hedge. exact (Hb r Hr Hst).
  - intros (r & Hr & Hst)%Hedge. exact (Hw r Hr Hst).
Qed.

(** [_get_territory_owner] gives an empty cell to a colour exactly when its
    region touches that colour and not the other. *)
Lemma territory_owner_spec s x y :
  cells_ok (board s) →
  (_get_territory_owner s x y = 1 ↔
     cell (board s) x y = 0 ∧ borders (size s) (board s) (x, y) 1
     ∧ ¬ borders (size s) (board s) (x, y) 2) ∧
  (_get_territory_owner s x y = 2 ↔
     cell (board s) x y = 0 ∧ borders (size s) (board s) (x, y) 2
     ∧ ¬ borders (size s) (board s) (x, y) 1) ∧
  (_get_territory_owner s x y = 0 ∨ _get_territory_owner s x y = 1
   ∨ _get_territory_owner s x y = 2).
Proof.
  intros Hcells. unfold _get_territory_owner.
  case_bool_decide as Hc; simpl; [|split; [|split]; [split; [done|tauto]..|by left]].
  destruct (territory_flags (size s) (board s) x y Hcells Hc)
    as (V & tb & tw & -> & Hb & Hw).
  rewrite -Hb -Hw. destruct tb, tw; simpl; naive_solver.
Qed.

Lemma scan_row_foldl {A} (F : A → Z → Z → A) (y : Z) (xs : list Z) (acc : A) :
  foldl (λ acc (p : pos), F acc p.1 p.2) acc (x ← xs; [(x, y)]) =
  foldl (λ acc x, F acc x y) acc xs.
Proof.
  revert acc. induction xs as [|x xs IH]; intros acc; [done|].
  cbn [mbind list_bind foldl app fst snd]. by rewrite -IH.
Qed.

Lemma scan_foldl {A} (F : A → Z → Z → A) (ys xs : list Z) (acc : A) :
  foldl (λ acc (p : pos), F acc p.1 p.2) acc (y ← ys; x ← xs; [(x, y)]) =
  foldl (λ acc y, foldl (λ acc x, F acc x y) acc xs) acc ys.
Proof.
  revert acc. induction ys as [|y ys IH]; intros acc; [done|].
  cbn [mbind list_bind foldl]. by rewrite foldl_app scan_row_foldl IH.
Qed.

Lemma get_score_scan s :
  get_score s =
  foldl (λ acc (p : pos), score_cell s acc p.1 p.2)
        (captured_black s, (inject_Z (captured_white s) + 6.5)%Q)
        (all_cells (size s)).
Proof. unfold get_score, all_cells. by rewrite (scan_foldl (score_cell s)). Qed.

Lemma owner_of_stone s x y :
  cell (board s) x y ≠ 0 → _get_territory_owner s x y = 0.
Proof.
  intros Hc. unfold _get_territory_owner. by rewrite bool_decide_eq_false_2.
Qed.

Lemma Qplus_one_inject (wh : Q) (a : Z) :
  (wh + 1 + inject_Z a == wh + inject_Z (a + 1))%Q.
Proof. rewrite inject_Z_plus. change (inject_Z 1) with 1%Q. ring. Qed.

Lemma score_scan_counts s (l : list pos) (bk : Z) (wh : Q) :
  let r := foldl (λ acc (p : pos), score_cell s acc p.1 p.2) (bk, wh) l in
  r.1 = bk + stones_in s 1 l + owned_in s 1 l ∧
  Qeq r.2 (wh + inject_Z (stones_in s 2 l + owned_in s 2 l))%Q.
Proof.
  revert bk wh. induction l as [|[x y] l IH]; intros bk wh.
  { rewrite /stones_in /owned_in /=. split; [lia|]. symmetry. apply Qplus_0_r. }
  cbn [foldl fst snd]. unfold stones_in, owned_in in *.
  rewrite !filter_cons. cbn [fst snd].
  set (n1 := length (filter (λ p : pos, cell (board s) p.1 p.2 = 1) l)) in *.
  set (n2 := length (filter (λ p : pos, cell (board s) p.1 p.2 = 2) l)) in *.
  set (t1 := length (filter (λ p : pos, _get_territory_owner s p.1 p.2 = 1) l)) in *.
  set (t2 := length (filter (λ p : pos, _get_territory_owner s p.1 p.2 = 2) l)) in *.
  assert (∀ bk' wh', (bk', wh') = (bk + 1, wh) →
    (foldl (λ acc (p : pos), score_cell s acc p.1 p.2) (bk', wh') l).1
      = bk + Z.of_nat (S n1) + Z.of_nat t1 ∧
    (foldl (λ acc (p : pos), score_cell s acc p.1 p.2) (bk', wh') l).1
      = bk + Z.of_nat n1 + Z.of_nat (S t1) ∧
    Qeq (foldl (λ acc (p : pos), score_cell s acc p.1 p.2) (bk', wh') l).2
        (wh + inject_Z (Z.of_nat n2 + Z.of_nat t2))%Q) as Hblack.
  { intros bk' wh' [= -> ->]. destruct (IH (bk + 1) wh) as [-> Hq].
    split; [lia|]. split; [lia|done]. }
  assert (∀ bk' wh', (bk', wh') = (bk, (wh + 1)%Q) →
    (foldl (λ acc (p : pos), score_cell s acc p.1 p.2) (bk', wh') l).1
      = bk + Z.of_nat n1 + Z.of_nat t1 ∧
    Qeq (foldl (λ acc (p : pos), score_cell s acc p.1 p.2) (bk', wh') l).2
        (wh + inject_Z (Z.of_nat (S n2) + Z.of_nat t2))%Q ∧
    Qeq (foldl (λ acc (p : pos), score_cell s acc p.1 p.2) (bk', wh') l).2
        (wh + inject_Z (Z.of_nat n2 + Z.of_nat (S t2)))%Q) as Hwhite.
  { intros bk' wh' [= -> ->]. destruct (IH bk (wh + 1)%Q) as [-> Hq].
    split; [done|].
    split; (eapply Qeq_trans; [exact Hq|]);
      (eapply Qeq_trans; [apply Qplus_one_inject|]);
      apply Qplus_inj_l; apply inject_Z_injective; lia. }
  unfold score_cell at 2 4.
  case_bool_decide as H1.
  { pose proof (owner_of_stone s x y) as Hown.
    destruct (Hblack _ _ eq_refl) as (? & _ & ?).
    repeat case_decide; try lia. done. }
  case_bool_decide as H2.
  { pose proof (owner_of_stone s x y) as Hown.
    destruct (Hwhite _ _ eq_refl) as (? & ? & _).
    repeat case_decide; try lia. done. }
  case_bool_decide as T1.
  { destruct (Hblack _ _ eq_refl) as (_ & ? & ?).
    repeat case_decide; try lia. done. }
  case_bool_decide as T2.
  { destruct (Hwhite _ _ eq_refl) as (? & _ & ?).
    repeat case_decide; try lia. done. }
  repeat case_decide; try lia. apply IH.
Qed.

Lemma filter_none {A} (P : A → Prop) `{∀ x, Decision (P x)} (l : list A) :
  (∀ x, x ∈ l → ¬ P x) → filter P l = [].
Proof.
  induction l as [|a l IH]; intros Hl; [done|].
  rewrite filter_cons decide_False; [apply Hl; by left|].
  apply IH. intros x Hx. apply Hl. by right.
Qed.

Lemma init_no_stone n x y c : c ≠ 0 → cell (board (init n)) x y ≠ c.
Proof. intros Hc. rewrite cell_init. lia. Qed.

Lemma init_no_owner n x y c :
  c = 1 ∨ c = 2 → _get_territory_owner (init n) x y ≠ c.
Proof.
  intros Hc Hown.
  destruct (territory_owner_spec (init n) x y (ok_cells _ (init_ok n)))
    as (H1 & H2 & _).
  assert (borders (size (init n)) (board (init n)) (x, y) c)
    as (g & r & _ & _ & [_ Hr]).
  { destruct Hc as [-> | ->]; [by apply H1 in Hown as (_ & ? & _)|].
    by apply H2 in Hown as (_ & ? & _). }
  rewrite cell_init in Hr. lia.
Qed.

(** C5.  [get_score] returns
    [captured_black + black stones + black territory] and
    [captured_white + white stones + white territory + 6.5]; an empty cell
    counts for a colour exactly when its empty region touches a stone of
    that colour and none of the other, so a region touching both colours or
    no stone counts for neither; on an empty board the score is (0, 6.5). *)
Theorem get_score_spec (s : GoBoard) :
  cells_ok (board s) →
  (get_score s).1 = captured_black s + on_board s 1 + territory s 1 ∧
  ((get_score s).2 ==
     inject_Z (captured_white s + on_board s 2 + territory s 2) + 6.5)%Q ∧
  (∀ x y c, in_bounds (size s) x y = true → c = 1 ∨ c = 2 →
     (_get_territory_owner s x y = c ↔
      cell (board s) x y = 0 ∧
      borders (size s) (board s) (x, y) c ∧
      ¬ borders (size s) (board s) (x, y) (3 - c))) ∧
  (∀ x y, in_bounds (size s) x y = true →
          ¬ (borders (size s) (board s) (x, y) 1 ∧
             ¬ borders (size s) (board s) (x, y) 2) →
          ¬ (borders (size s) (board s) (x, y) 2 ∧
             ¬ borders (size s) (board s) (x, y) 1) →
          _get_territory_owner s x y = 0) ∧
  (∀ n, (get_score (init n)).1 = 0 ∧ ((get_score (init n)).2 == 6.5)%Q).
Proof.
  intros Hcells.
  assert (∀ s', (get_score s').1
                  = captured_black s' + on_board s' 1 + territory s' 1 ∧
                ((get_score s').2 ==
                   inject_Z (captured_white s' + on_board s' 2 + territory s' 2)
                   + 6.5)%Q) as Hsum.
  { intros s'. rewrite get_score_scan.
    destruct (score_scan_counts s' (all_cells (size s')) (captured_black s')
                (inject_Z (captured_white s') + 6.5)%Q) as [Hb Hw].
    split; [exact Hb|]. eapply Qeq_trans; [exact Hw|].
    unfold on_board, territory. rewrite !inject_Z_plus. ring. }
  destruct (Hsum s) as [Hb Hw]. split; [done|]. split; [done|].
  split; [|split].
  - intros x y c _ [-> | ->];
      destruct (territory_owner_spec s x y Hcells) as (H1 & H2 & _); done.
  - intros x y _ Hn1 Hn2.
    destruct (territory_owner_spec s x y Hcells) as (H1 & H2 & [?|[Ho|Ho]]);
      [done|..].
    + apply H1 in Ho. tauto.
    + apply H2 in Ho. tauto.
  - intros n. destruct (Hsum (init n)) as [Hb0 Hw0].
    assert (∀ c, c = 1 ∨ c = 2 →
              on_board (init n) c = 0 ∧ territory (init n) c = 0) as Hzero.
    { intros c Hc. unfold on_board, territory, stones_in, owned_in.
      rewrite !filter_none; try done; intros p _;
        first [by apply init_no_owner|apply init_no_stone; lia]. }
    destruct (Hzero 1) as [E1 E2]; [by left|].
    destruct (Hzero 2) as [E3 E4]; [by right|].
    rewrite E1 E2 in Hb0. rewrite E3 E4 in Hw0. split; [exact Hb0|].
    eapply Qeq_trans; [exact Hw0|]. by vm_compute.
Qed.

Lemma get_score_spec_witness :
  cells_ok (board atari_position) ∧
  (get_score atari_position).1
    = captured_black atari_position + on_board atari_position 1
      + territory atari_position 1 ∧
  ((get_score atari_position).2 ==
     inject_Z (captured_white atari_position + on_board atari_position 2
               + territory atari_position 2) + 6.5)%Q.
Proof.
  assert (cells_ok (board atari_position)) as Hcells.
  { apply (ok_cells _ (reachable_ok 9 _
             (plays_reachable 9 _ _ (reachable_init 9)))). }
  split; [exact Hcells|].
  destruct (get_score_spec atari_position Hcells) as (Hb & Hw & _).
  split; [exact Hb|exact Hw].
Defined.

(* ===================================================================== *)
(** * The move selector ([go_ai.py], class [AdvancedAI])                  *)
(* ===================================================================== *)

Import AdvancedAI.

(** The phase is settled by the thresholds 40 and 120 of the move count it
    is computed from. *)
Lemma determine_game_phase_thresholds (n : Z) :
  (n < 40 → _determine_game_phase n = "opening") ∧
  (40 ≤ n < 120 → _determine_game_phase n = "middlegame") ∧
  (120 ≤ n → _determine_game_phase n = "endgame").
Proof.
  unfold _determine_game_phase.
  repeat split; intros Hn; repeat case_bool_decide; done || lia.
Qed.

(** The phase stored in the object is the one of the board it was built on. *)
Lemma game_phase_at_construction (b : GoBoard) (p : Z) (d : string) :
  game_phase (create_ai b p d)
  = _determine_game_phase (Z.of_nat (length (move_history b))).
Proof. reflexivity. Qed.

(** C9, where the code departs from it.  An [AdvancedAI] built on the fresh
    board, as [GameManager.create_game] builds it, still evaluates in the
    opening phase on a board that has 57 moves: [(3, 3)] scores 25 as a
    corner star point, while the phase of that move count is the middle
    game, in which an object built on the same board scores the point 24. *)
Theorem game_phase_is_stale :
  let ai := create_ai (init 19) 2 "hard" in
  let b := crowded_position in
  reachable 19 b ∧
  Z.of_nat (length (move_history b)) = 57 ∧
  _determine_game_phase (Z.of_nat (length (move_history b))) = "middlegame" ∧
  game_phase ai = "opening" ∧
  _evaluate_position_advanced ai b 3 3 = (25%Q, "占据星位") ∧
  Qeq (_evaluate_position_advanced (create_ai b 2 "hard") b 3 3).1 24 ∧
  (_evaluate_position_advanced (create_ai b 2 "hard") b 3 3).2 = "接近战斗".
Proof.
  cbv zeta. split; [apply plays_reachable, reachable_init|].
  split; [by vm_compute|]. split; [by vm_compute|]. split; [by vm_compute|].
  split; [by vm_compute|]. split; by vm_compute.
Qed.

(** [_evaluate_shape] raises nothing but [NameError], and an exception of
    [_evaluate_shape] leaves [_evaluate_move_deep] as it is. *)
Lemma evaluate_shape_exn ai b x y e :
  _evaluate_shape ai b x y = inl e → e = NameError.
Proof.
  unfold _evaluate_shape, ret, raise.
  repeat (case_match; try done). by intros [= <-].
Qed.

Lemma evaluate_move_deep_shape h ai b x y :
  match _evaluate_shape ai b x y with
  | inl e => _evaluate_move_deep h ai b x y = inl e
  | inr _ => ∃ r, _evaluate_move_deep h ai b x y = inr r
  end.
Proof.
  unfold _evaluate_move_deep.
  destruct (_evaluate_tactical h ai b x y) as [ts tr].
  destruct (_evaluate_position_advanced ai b x y) as [ps pr].
  destruct (_evaluate_shape ai b x y) as [e|[ss sr]]; [done|].
  cbn [bind].
  destruct (_evaluate_influence ai b x y) as [is_ ir].
  destruct (_evaluate_territory h ai b x y) as [ts' tr'].
  by eexists.
Qed.

(** Once one of the moves makes [_evaluate_shape] raise, the loop of
    [_get_move_advanced] raises, whatever the scores and the draws. *)
Lemma advanced_loop_raises h ai b moves x y :
  (x, y) ∈ moves → _evaluate_shape ai b x y = inl NameError →
  ∀ k st, advanced_loop h ai b k moves st = inl NameError.
Proof.
  intros Hin Hshape.
  induction moves as [|[x' y'] rest IH]; intros k st; [by apply elem_of_nil in Hin|].
  cbn [advanced_loop].
  pose proof (evaluate_move_deep_shape h ai b x' y') as Hdeep.
  destruct (_evaluate_shape ai b x' y') as [e|v] eqn:Hhead.
  - rewrite Hdeep. by rewrite (evaluate_shape_exn ai b x' y' e Hhead).
  - destruct Hdeep as [[score analysis] ->]. cbn [bind].
    destruct st as [[best_score best_move] analyses].
    apply IH. apply elem_of_cons in Hin as [[= -> ->]|Hin]; [congruence|done].
Qed.

(** A move at which [_evaluate_shape] raises makes [get_move] of the hard
    tier raise: nothing on the way catches the exception. *)
Lemma get_move_hard_propagates h ai b x y :
  difficulty ai = "hard" →
  (x, y) ∈ get_valid_moves b →
  _evaluate_shape ai b x y = inl NameError →
  get_move h ai b = inl NameError.
Proof.
  intros Hhard Hin Hshape. unfold get_move.
  destruct (get_valid_moves b) as [|m ms] eqn:Hmoves;
    [by apply elem_of_nil in Hin|].
  rewrite Hhard. rewrite bool_decide_eq_false_2; [done|].
  rewrite bool_decide_eq_true_2; [done|].
  unfold _get_move_advanced.
  by rewrite (advanced_loop_raises h _ _ _ x y Hin Hshape).
Qed.

(** C7, where the code departs from it.  On the crowded board the list of
    legal moves is not empty, and [get_move] of a hard-tier object playing
    white (built on any board [b0]) ends in [NameError]: [_evaluate_shape]
    returns at the legal moves [(0, 1)] and [(1, 1)] and raises at the next
    one, [(2, 1)], whose efficiency is 4.5 + 7.5 / 2 + 13.5 / 3 = 12.75, more
    than 12; nothing catches the exception. *)
Theorem get_move_hard_raises (h : helpers) (b0 : GoBoard) :
  let b := crowded_position in
  let ai := create_ai b0 2 "hard" in
  reachable 19 b ∧
  take 3 (get_valid_moves b) = [(0, 1); (1, 1); (2, 1)] ∧
  Qeq (_calculate_efficiency ai b 2 1) 12.75 ∧
  _evaluate_shape ai b 2 1 = inl NameError ∧
  get_move h ai b = inl NameError.
Proof.
  cbv zeta.
  assert (is_valid_move crowded_position 2 1 = true) as Hvalid
    by (vm_compute; reflexivity).
  assert (_evaluate_shape (create_ai b0 2 "hard")
            crowded_position 2 1 = inl NameError) as Hshape
    by (vm_compute; reflexivity).
  split; [apply plays_reachable, reachable_init|].
  split; [vm_compute; reflexivity|]. split; [vm_compute; reflexivity|].
  split; [exact Hshape|].
  apply (get_move_hard_propagates h _ _ 2 1); [reflexivity| |exact Hshape].
  by apply elem_of_get_valid_moves.
Qed.

(* ===================================================================== *)
(** * The flood fill of the move selector                                  *)
(* ===================================================================== *)

Section group_board_fill.

Context (sz : Z) (b : grid) (c : Z).

Lemma group_board_loop_terminates fuel stack st :
  (length stack + 4 * base.size (list_to_set (all_cells sz) ∖ st.2 : gset pos)
     < fuel)%nat →
  is_Some (Tactical.group_board_loop fuel sz b c stack st).
Proof.
  revert stack st.
  induction fuel as [|fuel IH]; intros stack [group visited] Hfuel; [lia|].
  destruct stack as [|[cx cy] rest]; simpl; [by eexists|].
  simpl in Hfuel.
  case_bool_decide as Hin; [apply IH; simpl; lia|].
  assert (list_to_set (all_cells sz) ∖ (visited ∪ {[(cx, cy)]})
            ⊆ (list_to_set (all_cells sz) ∖ visited : gset pos)) as Hsub
    by set_solver.
  apply subseteq_size in Hsub.
  destruct (in_bounds sz cx cy) eqn:Hb; simpl; [|apply IH; simpl; lia].
  assert (list_to_set (all_cells sz) ∖ (visited ∪ {[(cx, cy)]})
            ⊂ (list_to_set (all_cells sz) ∖ visited : gset pos)) as Hlt.
  { assert ((cx, cy) ∈ (list_to_set (all_cells sz) : gset pos)).
    { apply elem_of_list_to_set, elem_of_all_cells. done. }
    set_solver. }
  apply subset_size in Hlt.
  case_bool_decide; apply IH; simpl; lia.
Qed.

Context (start : pos).

(** Everything the loop puts in the group is joined to the start. *)
Lemma group_board_loop_sound fuel stack st G :
  Tactical.group_board_loop fuel sz b c stack st = Some G →
  (∀ q, q ∈ st.1 → connected sz b c start q) →
  (∀ q, q ∈ stack → stone_at sz b c q → connected sz b c start q) →
  ∀ q, q ∈ G → connected sz b c start q.
Proof.
  revert stack st.
  induction fuel as [|fuel IH]; intros stack [group visited] Hrun Hgroup Hstack;
    [done|].
  destruct stack as [|[cx cy] rest]; simpl in Hrun.
  { by inversion Hrun; subst. }
  assert (∀ q, q ∈ rest → stone_at sz b c q → connected sz b c start q) as Hrest.
  { intros q Hq. apply Hstack. by right. }
  case_bool_decide as Hin; [exact (IH _ _ Hrun Hgroup Hrest)|].
  destruct (in_bounds sz cx cy) eqn:Hb; simpl in Hrun;
    [|exact (IH _ _ Hrun Hgroup Hrest)].
  case_bool_decide as Hc; simpl in Hrun;
    [|exact (IH _ _ Hrun Hgroup Hrest)].
  assert (connected sz b c start (cx, cy)) as Hcur.
  { apply Hstack; [by left|done]. }
  eapply IH; [exact Hrun| |].
  - simpl. intros q [Hq| ->%elem_of_singleton]%elem_of_union; auto.
  - intros q Hq Hst. apply (proj1 (elem_of_pushed cx cy rest q)) in Hq.
    destruct Hq as [Hq|Hq]; [|auto].
    eapply connected_step; [exact Hcur|exact Hq|exact Hst].
Qed.

(** What the loop returns contains the group it started from and every stone
    on the stack, and is closed under stepping to a neighbouring stone. *)
Lemma group_board_loop_closed fuel stack st G :
  Tactical.group_board_loop fuel sz b c stack st = Some G →
  (∀ p q, p ∈ st.1 → adjacent p q → stone_at sz b c q →
          q ∈ st.1 ∨ q ∈ stack) →
  (∀ q, q ∈ st.2 → stone_at sz b c q → q ∈ st.1) →
  st.1 ⊆ G ∧
  (∀ q, q ∈ stack → stone_at sz b c q → q ∈ G) ∧
  (∀ p q, p ∈ G → adjacent p q → stone_at sz b c q → q ∈ G).
Proof.
  revert stack st.
  induction fuel as [|fuel IH]; intros stack [group visited] Hrun Hinv Hvis;
    [done|].
  simpl in Hinv, Hvis.
  destruct stack as [|[cx cy] rest]; simpl in Hrun.
  { inversion Hrun; subst. split; [done|]. split.
    - by intros q ?%elem_of_nil.
    - intros p q Hp Hadj Hst.
      destruct (Hinv p q Hp Hadj Hst) as [?|?%elem_of_nil]; done. }
  assert (∀ visited',
    (∀ q, q ∈ visited' → stone_at sz b c q → q ∈ group) →
    (cx, cy) ∈ group ∨ ¬ stone_at sz b c (cx, cy) →
    Tactical.group_board_loop fuel sz b c rest (group, visited') = Some G →
    group ⊆ G ∧
    (∀ q, q ∈ (cx, cy) :: rest → stone_at sz b c q → q ∈ G) ∧
    (∀ p q, p ∈ G → adjacent p q → stone_at sz b c q → q ∈ G)) as Hskip.
  { intros visited' Hvis' Hsk Hrun'.
    destruct (IH rest (group, visited') Hrun') as (Hsub & Hstk & Hcl);
      [|done|simpl in Hsub].
    - simpl. intros p q Hp Hadj Hst.
      destruct (Hinv p q Hp Hadj Hst) as [?|[->|?]%elem_of_cons]; auto.
      destruct Hsk as [?|Hn]; [by left|by destruct Hn].
    - split; [done|]. split; [|done].
      intros q [->|Hq]%elem_of_cons Hst; [|by apply Hstk].
      destruct Hsk as [?|Hn]; [by apply Hsub|by destruct Hn]. }
  case_bool_decide as Hin.
  { apply (Hskip visited); [done| |done].
    destruct (decide (stone_at sz b c (cx, cy))); [left; by apply Hvis|by right]. }
  destruct (in_bounds sz cx cy) eqn:Hb; simpl in Hrun.
  2:{ apply (Hskip (visited ∪ {[(cx, cy)]})); [| |done].
      - intros q [Hq| ->%elem_of_singleton]%elem_of_union [Hqb Hqc];
          [by apply Hvis|simpl in Hqb; congruence].
      - right. intros [Hb' _]. simpl in Hb'. congruence. }
  case_bool_decide as Hc; simpl in Hrun.
  2:{ apply (Hskip (visited ∪ {[(cx, cy)]})); [| |done].
      - intros q [Hq| ->%elem_of_singleton]%elem_of_union [Hqb Hqc];
          [by apply Hvis|done].
      - right. by intros [_ ?]. }
  clear Hskip.
  destruct (IH _ _ Hrun) as (Hsub & Hstk & Hcl); simpl.
  - intros p q [Hp| ->%elem_of_singleton]%elem_of_union Hadj Hst.
    + destruct (Hinv p q Hp Hadj Hst) as [?|[->|?]%elem_of_cons].
      * left. set_solver.
      * left. set_solver.
      * right. apply (proj2 (elem_of_pushed cx cy rest q)). by right.
    + right. apply (proj2 (elem_of_pushed cx cy rest q)). by left.
  - intros q [Hq| ->%elem_of_singleton]%elem_of_union Hst; [|set_solver].
    apply elem_of_union. left. by apply Hvis.
  - simpl in Hsub. split; [set_solver|]. split; [|done].
    intros q [->|Hq]%elem_of_cons Hst; [set_solver|].
    apply Hstk; [|done]. apply (proj2 (elem_of_pushed cx cy rest q)). by right.
Qed.

End group_board_fill.

Lemma group_board_loop_total sz b c x y :
  is_Some (Tactical.group_board_loop (group_fuel sz) sz b c [(x, y)] (∅, ∅)).
Proof.
  apply group_board_loop_terminates. simpl.
  pose proof (group_fuel_enough sz) as Hfuel.
  pose proof (size_cells sz) as Hcells.
  pose proof (subseteq_size (list_to_set (all_cells sz) ∖ ∅ : gset pos)
                (list_to_set (all_cells sz))) as Hsub.
  assert (base.size (list_to_set (all_cells sz) ∖ ∅ : gset pos)
          ≤ Z.to_nat sz * Z.to_nat sz)%nat as Hle.
  { etrans; [apply Hsub; set_solver|exact Hcells]. }
  revert Hfuel Hle. generalize (Z.to_nat sz * Z.to_nat sz)%nat. lia.
Qed.

(** [_get_group_board] returns the connected group of its start. *)
Lemma get_group_board_spec sz b x y c q :
  q ∈ Tactical._get_group_board sz b x y c ↔ connected sz b c (x, y) q.
Proof.
  unfold Tactical._get_group_board.
  destruct (group_board_loop_total sz b c x y) as [G HG]. rewrite HG. simpl.
  split.
  - apply (group_board_loop_sound _ _ _ _ _ _ _ _ HG); [set_solver|].
    intros p ->%list_elem_of_singleton Hst. by apply connected_refl.
  - destruct (group_board_loop_closed sz b c _ _ _ _ HG) as (_ & Hstk & Hcl);
      [set_solver|set_solver|].
    induction 1 as [Hst|p r _ IH Hadj Hst].
    + apply Hstk; [by left|done].
    + exact (Hcl _ _ IH Hadj Hst).
Qed.

Lemma get_group_spec b x y c q :
  q ∈ Tactical._get_group b x y c ↔ connected (size b) (board b) c (x, y) q.
Proof. apply get_group_board_spec. Qed.

(** In the model the two fills return the same set for every start. *)
Lemma get_group_board_eq sz b x y c :
  Tactical._get_group_board sz b x y c = _get_group_at sz b x y c.
Proof.
  apply set_eq. intros q. by rewrite get_group_board_spec get_group_at_spec.
Qed.

(** X1.  The fill of [AdvancedAI._get_group] always comes back, and returns
    exactly the cells joined to its start through in-range stones of the
    colour asked for; so does [_get_group_board] on the grid it is given.
    The result is empty exactly when the start is out of range or holds
    another colour, and from an in-range start it is the set that
    [GoBoard._get_group_at] returns. *)
Theorem ai_group_is_connected_group (b : GoBoard) (x y c : Z) :
  is_Some (Tactical.group_board_loop (group_fuel (size b)) (size b) (board b) c
             [(x, y)] (∅, ∅)) ∧
  (∀ q, q ∈ Tactical._get_group b x y c ↔
        connected (size b) (board b) c (x, y) q) ∧
  Tactical._get_group_board (size b) (board b) x y c
    = Tactical._get_group b x y c ∧
  (Tactical._get_group b x y c = ∅ ↔ ¬ stone_at (size b) (board b) c (x, y)) ∧
  (in_bounds (size b) x y = true →
   Tactical._get_group b x y c = _get_group_at (size b) (board b) x y c).
Proof.
  split; [apply group_board_loop_total|].
  split; [intros q; apply get_group_spec|]. split; [done|]. split.
  - split.
    + intros Hempty Hst.
      assert ((x, y) ∈ Tactical._get_group b x y c) as Hin
        by by apply get_group_spec, connected_refl.
      rewrite Hempty in Hin. set_solver.
    + intros Hno. apply set_eq. intros q. split; [|set_solver].
      intros Hq%get_group_spec. destruct Hno.
      exact (connected_stone_l _ _ _ _ _ Hq).
  - intros _. apply get_group_board_eq.
Qed.

Lemma has_liberty_board_any sz g x y c :
  Tactical._has_liberty_board sz g x y c = _has_any_liberty sz g x y c.
Proof.
  unfold Tactical._has_liberty_board, _has_any_liberty, _group_has_liberty.
  by rewrite get_group_board_eq.
Qed.

(** X2.  [_has_liberty_board] is true exactly when some stone joined to the
    start has an empty in-range neighbour; from an in-range start it answers
    as [GoBoard._has_any_liberty] does. *)
Theorem has_liberty_board_spec (sz : Z) (g : grid) (x y c : Z) :
  (Tactical._has_liberty_board sz g x y c = true ↔ has_liberty sz g c (x, y)) ∧
  (in_bounds sz x y = true →
   Tactical._has_liberty_board sz g x y c = _has_any_liberty sz g x y c).
Proof.
  split; [|intros _; apply has_liberty_board_any].
  by rewrite has_liberty_board_any has_any_liberty_spec.
Qed.

(* ===================================================================== *)
(** * The tactical tests against the rule engine                           *)
(* ===================================================================== *)

Section tactical.

Context (b : GoBoard) (ai : AdvancedAI) (x y : Z).
Hypothesis Hsq : square (size b) (board b).
Hypothesis Hxy : in_bounds (size b) x y = true.
Hypothesis Hp : player ai ≠ 0.

#[local] Abbreviation temp := (set_cell (board b) x y (player ai)).

(** The test of one direction in [_can_capture_stones] and in
    [_will_be_captured]. *)
Lemma dead_direction (d : pos) :
  d ∈ directions →
  in_bounds (size b) (x + d.1) (y + d.2)
  && bool_decide (cell temp (x + d.1) (y + d.2) = opponent ai)
  && negb (Tactical._has_liberty_board (size b) temp (x + d.1) (y + d.2)
             (opponent ai)) = true ↔
  dead_neighbour (size b) temp x y (opponent ai) (x + d.1, y + d.2).
Proof.
  intros Hd. unfold dead_neighbour, stone_at. simpl.
  rewrite group_has_liberty_excluding_occupied.
  { by rewrite (cell_set_cell_eq (size b)). }
  rewrite has_liberty_board_any. unfold _has_any_liberty.
  rewrite !andb_true_iff bool_decide_eq_true negb_true_iff.
  pose proof (adjacent_dir (x, y) d Hd). naive_solver.
Qed.

Lemma can_capture_stones_set :
  list_to_set
    (d ← directions;
     if in_bounds (size b) (x + d.1) (y + d.2)
        && bool_decide (cell temp (x + d.1) (y + d.2) = opponent ai)
        && negb (Tactical._has_liberty_board (size b) temp (x + d.1) (y + d.2)
                   (opponent ai))
     then elements (Tactical._get_group_board (size b) temp (x + d.1) (y + d.2)
                      (opponent ai))
     else [])
  = captured_set (size b) temp x y (opponent ai).
Proof.
  apply set_eq. intros q.
  rewrite elem_of_list_to_set list_elem_of_bind captured_set_spec. split.
  - intros (d & Hq & Hd).
    destruct (_ && _ && _) eqn:Hc in Hq; [|by apply elem_of_nil in Hq].
    apply dead_direction in Hc; [|done].
    exists (x + d.1, y + d.2). split; [done|].
    by apply elem_of_elements, get_group_board_spec in Hq.
  - intros (n & Hn & Hconn). pose proof Hn as (Hadj & _).
    apply list_elem_of_fmap in Hadj as (d & -> & Hd).
    exists d. split; [|done]. simpl in Hn.
    apply dead_direction in Hn; [|done]. rewrite Hn.
    by apply elem_of_elements, get_group_board_spec.
Qed.

Lemma can_capture_stones_count :
  Z.of_nat (base.size (captured_set (size b) temp x y (opponent ai)))
    ≤ (Tactical._can_capture_stones ai b x y).2 ∧
  ((Tactical._can_capture_stones ai b x y).1 = true ↔
   captured_set (size b) temp x y (opponent ai) ≠ ∅).
Proof.
  rewrite -can_capture_stones_set. unfold Tactical._can_capture_stones.
  cbv zeta. cbn [fst snd].
  set (L := directions ≫= _). split.
  - apply inj_le, size_list_to_set_le.
  - rewrite bool_decide_eq_true. destruct L as [|q L]; simpl.
    + split; [lia|]. intros Hne. by destruct Hne.
    + split; [|lia]. intros _ Hempty.
      assert (q ∈ ({[q]} ∪ list_to_set L : gset pos)) as Hin by set_solver.
      rewrite Hempty in Hin. set_solver.
Qed.

Lemma count_if_foldl {A} (f : A → bool) (l : list A) (acc : Z) :
  foldl (λ captured d, if f d then captured + 1 else captured) acc l
  = acc + Z.of_nat (length (filter (λ d, f d = true) l)).
Proof.
  revert acc. induction l as [|a l IH]; intros acc; simpl; [lia|].
  rewrite IH filter_cons. destruct (f a); case_decide; try done; simpl; lia.
Qed.

Lemma will_be_captured_engine :
  Tactical._will_be_captured ai b x y =
  negb (_has_any_liberty (size b) temp x y (player ai))
  && negb (_can_capture_anything (size b) temp x y (opponent ai)).
Proof.
  unfold Tactical._will_be_captured. cbv zeta.
  rewrite has_liberty_board_any.
  destruct (_has_any_liberty _ _ _ _ _); cbn [negb andb]; [done|].
  pose proof (count_if_foldl (λ d : pos,
    in_bounds (size b) (x + d.1) (y + d.2)
    && bool_decide (cell temp (x + d.1) (y + d.2) = opponent ai)
    && negb (Tactical._has_liberty_board (size b) temp (x + d.1) (y + d.2)
               (opponent ai))) directions 0) as Hcount.
  cbv beta in Hcount. rewrite Hcount. clear Hcount.
  apply eq_true_iff_eq.
  rewrite bool_decide_eq_true negb_true_iff -not_true_iff_false.
  rewrite can_capture_anything_spec. split.
  - intros Hzero (n & Hn). pose proof Hn as (Hadj & _).
    apply list_elem_of_fmap in Hadj as (d & -> & Hd). simpl in Hn.
    apply dead_direction in Hn; [|done].
    assert (d ∈ filter (λ d : pos,
      in_bounds (size b) (x + d.1) (y + d.2)
      && bool_decide (cell temp (x + d.1) (y + d.2) = opponent ai)
      && negb (Tactical._has_liberty_board (size b) temp (x + d.1) (y + d.2)
                 (opponent ai)) = true) directions) as Hin
      by by apply list_elem_of_filter.
    destruct (filter _ directions); [by apply elem_of_nil in Hin|].
    simpl in Hzero. lia.
  - intros Hnone.
    destruct (filter _ directions) as [|d l] eqn:Hf; [done|]. destruct Hnone.
    assert (d ∈ d :: l) as Hin by by left.
    rewrite -Hf in Hin. apply list_elem_of_filter in Hin as [Hc Hd].
    exists (x + d.1, y + d.2). by apply dead_direction.
Qed.

End tactical.

(** X3.  For the selector of the player to move and a legal move, the count
    of [_can_capture_stones] is at least the number of stones that
    [place_stone] takes with that move (the [captured] entry it appends to
    [move_history]), and its flag is true exactly when [place_stone] takes
    at least one stone. *)
Theorem can_capture_stones_bounds_capture (n : Z) (b b0 : GoBoard)
    (d : string) (x y : Z) :
  reachable n b → is_valid_move b x y = true →
  let ai := create_ai b0 (current_player b) d in
  ∃ m, last (move_history (place_stone b x y).2) = Some m ∧
       mv_captured m ≤ (Tactical._can_capture_stones ai b x y).2 ∧
       ((Tactical._can_capture_stones ai b x y).1 = true ↔ 0 < mv_captured m).
Proof.
  intros Hreach Hv ai.
  pose proof (reachable_ok n b Hreach) as [Hsq _ Hp _].
  pose proof Hv as (Hxy & _)%is_valid_move_spec.
  destruct (place_stone_valid b x y Hv) as [_ ->].
  unfold placed. cbn [move_history]. rewrite last_snoc.
  eexists. split; [done|]. cbn [mv_captured].
  destruct (can_capture_stones_count b ai x y Hsq Hxy) as [Hle Hflag].
  { simpl. lia. }
  split; [exact Hle|]. rewrite Hflag. simpl.
  unfold ai. simpl. split.
  - intros Hne. assert (base.size (captured_set (size b)
      (set_cell (board b) x y (current_player b)) x y (3 - current_player b)) ≠ 0)%nat.
    { apply size_non_empty_iff. by intros ?%leibniz_equiv. }
    lia.
  - intros Hpos Hempty. rewrite Hempty size_empty in Hpos. lia.
Qed.

Lemma can_capture_stones_bounds_capture_witness :
  ∃ m, last (move_history (place_stone atari_position 1 2).2) = Some m ∧
       mv_captured m
         ≤ (Tactical._can_capture_stones (create_ai (init 9) 1 "medium")
              atari_position 1 2).2 ∧
       ((Tactical._can_capture_stones (create_ai (init 9) 1 "medium")
           atari_position 1 2).1 = true ↔ 0 < mv_captured m).
Proof.
  apply (can_capture_stones_bounds_capture 9 atari_position (init 9) "medium" 1 2).
  - apply plays_reachable, reachable_init.
  - by vm_compute.
Defined.

(** X4.  For the selector of the player to move, on an empty in-range cell:
    [_will_be_captured] is true only for a move that [is_valid_move]
    refuses, so it is false for every legal move; and away from the ko point
    it is true for every refused move. *)
Theorem will_be_captured_only_illegal (n : Z) (b b0 : GoBoard) (d : string)
    (x y : Z) :
  reachable n b → in_bounds (size b) x y = true → cell (board b) x y = 0 →
  let ai := create_ai b0 (current_player b) d in
  (Tactical._will_be_captured ai b x y = true → is_valid_move b x y = false) ∧
  (is_valid_move b x y = true → Tactical._will_be_captured ai b x y = false) ∧
  (ko_point b ≠ Some (x, y) → is_valid_move b x y = false →
   Tactical._will_be_captured ai b x y = true).
Proof.
  intros Hreach Hxy Hc ai.
  pose proof (reachable_ok n b Hreach) as [Hsq _ Hp _].
  rewrite (will_be_captured_engine b ai x y Hsq Hxy); [simpl; lia|].
  pose proof (is_valid_move_spec b x y) as Hspec.
  change (player ai) with (current_player b).
  change (opponent ai) with (3 - current_player b).
  destruct (_has_any_liberty _ _ _ _ _), (_can_capture_anything _ _ _ _ _),
    (is_valid_move b x y); simpl; naive_solver.
Qed.

Lemma will_be_captured_only_illegal_witness :
  (Tactical._will_be_captured (create_ai (init 9) 1 "medium")
     atari_position 1 2 = true → is_valid_move atari_position 1 2 = false) ∧
  (is_valid_move atari_position 1 2 = true →
   Tactical._will_be_captured (create_ai (init 9) 1 "medium")
     atari_position 1 2 = false) ∧
  (ko_point atari_position ≠ Some (1, 2) →
   is_valid_move atari_position 1 2 = false →
   Tactical._will_be_captured (create_ai (init 9) 1 "medium")
     atari_position 1 2 = true).
Proof.
  apply (will_be_captured_only_illegal 9 atari_position (init 9) "medium" 1 2).
  - apply plays_reachable, reachable_init.
  - by vm_compute.
  - by vm_compute.
Defined.

Lemma get_group_eq b c x y x' y' :
  connected (size b) (board b) c (x, y) (x', y') →
  Tactical._get_group b x y c = Tactical._get_group b x' y' c.
Proof.
  intros Hconn. unfold Tactical._get_group.
  change (Tactical._get_group_board (size b) (board b) x y c
          = Tactical._get_group_board (size b) (board b) x' y' c).
  rewrite !get_group_board_eq. by apply get_group_at_eq.
Qed.

Lemma two_elements_length {A} `{EqDecision A, Countable A} (l : list A) (a a' : A) :
  a ≠ a' → a ∈ l → a' ∈ l → (2 ≤ length l)%nat.
Proof.
  intros Hne Ha Ha'.
  destruct l as [|u [|v l]]; simpl; [by apply elem_of_nil in Ha| |lia].
  apply list_elem_of_singleton in Ha, Ha'. congruence.
Qed.

Lemma two_elements_size {A} `{Countable A} (X : gset A) :
  (2 ≤ base.size X)%nat ↔ ∃ a a', a ≠ a' ∧ a ∈ X ∧ a' ∈ X.
Proof.
  split.
  - intros Hsize.
    destruct (size_pos_elem_of X) as [a Ha]; [lia|].
    destruct (size_pos_elem_of (X ∖ {[a]})) as [a' Ha'].
    { rewrite size_difference; [set_solver|]. rewrite size_singleton. lia. }
    exists a, a'. set_solver.
  - intros (a & a' & Hne & Ha & Ha').
    assert (({[a]} ∪ {[a']} : gset A) ⊆ X) as Hsub by set_solver.
    apply subseteq_size in Hsub.
    rewrite size_union in Hsub; [set_solver|].
    by rewrite !size_singleton in Hsub.
Qed.

(** X5.  [_can_cut] is true exactly when two opposing stones next to
    [(x, y)] belong to different groups. *)
Theorem can_cut_spec (ai : AdvancedAI) (b : GoBoard) (x y : Z) :
  Tactical._can_cut ai b x y = true ↔
  ∃ n m, adjacent (x, y) n ∧ adjacent (x, y) m ∧
         stone_at (size b) (board b) (opponent ai) n ∧
         stone_at (size b) (board b) (opponent ai) m ∧
         ¬ connected (size b) (board b) (opponent ai) n m.
Proof.
  unfold Tactical._can_cut. cbv zeta.
  set (EN := filter _ _).
  assert (∀ n, n ∈ EN ↔
            adjacent (x, y) n ∧ stone_at (size b) (board b) (opponent ai) n)
    as HEN.
  { intros n. unfold EN. rewrite list_elem_of_filter.
    unfold adjacent, neighbours, stone_at. simpl. tauto. }
  split.
  - case_bool_decide as Hlen; [|done].
    intros (G & G' & Hne & HG & HG')%bool_decide_eq_true%two_elements_size.
    apply elem_of_list_to_set, list_elem_of_fmap in HG as ([nx ny] & -> & Hn).
    apply elem_of_list_to_set, list_elem_of_fmap in HG' as ([mx my] & -> & Hm).
    exists (nx, ny), (mx, my).
    apply HEN in Hn as [??], Hm as [??]. repeat (split; [done|]).
    intros Hconn. apply Hne. simpl. by apply get_group_eq.
  - intros ([nx ny] & [mx my] & Hn1 & Hm1 & Hn2 & Hm2 & Hsep).
    assert ((nx, ny) ∈ EN) as Hn by by apply HEN.
    assert ((mx, my) ∈ EN) as Hm by by apply HEN.
    assert ((nx, ny) ≠ (mx, my)) as Hne.
    { intros Heq. apply Hsep. rewrite -Heq. by apply connected_refl. }
    rewrite bool_decide_eq_true_2; [exact (two_elements_length _ _ _ Hne Hn Hm)|].
    apply bool_decide_eq_true, two_elements_size.
    exists (Tactical._get_group b nx ny (opponent ai)),
           (Tactical._get_group b mx my (opponent ai)).
    split; [|split].
    + intros Heq.
      assert ((mx, my) ∈ Tactical._get_group b nx ny (opponent ai)) as Hin.
      { rewrite Heq. by apply get_group_spec, connected_refl. }
      by apply get_group_spec in Hin.
    + apply elem_of_list_to_set, list_elem_of_fmap. by exists (nx, ny).
    + apply elem_of_list_to_set, list_elem_of_fmap. by exists (mx, my).
Qed.

Lemma count_group_liberties_board_engine b x y c :
  Tactical._count_group_liberties_board b x y c
  = _count_liberties_of_group (size b) (board b)
      (_get_group_at (size b) (board b) x y c).
Proof.
  unfold Tactical._count_group_liberties_board, _count_liberties_of_group.
  cbv zeta.
  change (Tactical._get_group b x y c)
    with (Tactical._get_group_board (size b) (board b) x y c).
  by rewrite get_group_board_eq.
Qed.

Lemma sum_if_foldl {A} (f : A → bool) (g : A → Z) (l : list A) (acc : Z) :
  (∀ a, a ∈ l → f a = true → 0 < g a) →
  let r := foldl (λ acc a, if f a then acc + g a else acc) acc l in
  acc ≤ r ∧ (acc < r ↔ ∃ a, a ∈ l ∧ f a = true).
Proof.
  revert acc. induction l as [|a l IH]; intros acc Hg; simpl.
  - split; [lia|]. split; [lia|]. by intros (a & ?%elem_of_nil & _).
  - destruct (IH (if f a then acc + g a else acc)) as [Hle Hlt].
    { intros a' Ha'. apply Hg. by right. }
    pose proof (Hg a (list_elem_of_here _ _)) as Ha.
    destruct (f a) eqn:Hfa.
    + specialize (Ha eq_refl). split; [lia|]. split; [|lia].
      intros _. exists a. split; [by left|done].
    + split; [done|]. rewrite Hlt. split.
      * intros (a' & Ha' & Hfa'). exists a'. split; [by right|done].
      * intros (a' & [->|Ha']%elem_of_cons & Hfa'); [congruence|by exists a'].
Qed.

(** X6.  [_can_save_stones] reports [True] exactly when a friendly stone next
    to [(x, y)] belongs to a group with exactly one liberty, as
    [GoBoard._count_liberties_of_group] counts them; its count is never
    negative and is positive exactly when the flag is true. *)
Theorem can_save_stones_spec (ai : AdvancedAI) (b : GoBoard) (x y : Z) :
  ((Tactical._can_save_stones ai b x y).1 = true ↔
   ∃ n, adjacent (x, y) n ∧ stone_at (size b) (board b) (player ai) n ∧
        _count_liberties_of_group (size b) (board b)
          (_get_group_at (size b) (board b) n.1 n.2 (player ai)) = 1) ∧
  0 ≤ (Tactical._can_save_stones ai b x y).2 ∧
  ((Tactical._can_save_stones ai b x y).1 = true ↔
   0 < (Tactical._can_save_stones ai b x y).2).
Proof.
  unfold Tactical._can_save_stones. cbv zeta. cbn [fst snd].
  pose proof (sum_if_foldl
    (λ d : pos,
       in_bounds (size b) (x + d.1) (y + d.2)
       && bool_decide (cell (board b) (x + d.1) (y + d.2) = player ai)
       && bool_decide (Tactical._count_group_liberties_board b (x + d.1) (y + d.2)
                         (player ai) = 1))
    (λ d : pos, Z.of_nat (base.size (Tactical._get_group b (x + d.1) (y + d.2) (player ai))))
    directions 0) as Hsum.
  cbv beta zeta in Hsum. destruct Hsum as [Hle Hlt].
  { intros d _ [[Hb Hc%bool_decide_eq_true]%andb_true_iff _]%andb_true_iff.
    assert ((x + d.1, y + d.2)
            ∈ Tactical._get_group b (x + d.1) (y + d.2) (player ai)) as Hin.
    { by apply get_group_spec, connected_refl. }
    assert (base.size (Tactical._get_group b (x + d.1) (y + d.2) (player ai)) ≠ 0)%nat.
    { apply size_non_empty_iff. intros Hempty. rewrite Hempty in Hin. set_solver. }
    lia. }
  rewrite bool_decide_eq_true. split; [|done]. rewrite Hlt. split.
  - intros (d & Hd & [[Hb Hc%bool_decide_eq_true]%andb_true_iff
                       Hl%bool_decide_eq_true]%andb_true_iff).
    exists (x + d.1, y + d.2). split; [by apply (adjacent_dir (x, y))|].
    split; [done|]. by rewrite -count_group_liberties_board_engine.
  - intros (n & Hadj & [Hb Hc] & Hl).
    apply list_elem_of_fmap in Hadj as (d & -> & Hd). simpl in Hb, Hc, Hl.
    exists d. split; [done|].
    rewrite Hb count_group_liberties_board_engine.
    rewrite !bool_decide_eq_true_2; done.
Qed.

(* ===================================================================== *)
(** * The bounded fill of [_estimate_territory_control]                    *)
(* ===================================================================== *)

Section estimate.

Context (sz : Z) (b : grid).

Lemma estimate_loop_terminates fuel stack st :
  (length stack + 5 * (20 - base.size st.2) < fuel)%nat →
  is_Some (Tactical.estimate_loop fuel sz b stack st).
Proof.
  revert stack st.
  induction fuel as [|fuel IH]; intros stack [territory checked] Hfuel; [lia|].
  destruct stack as [|[cx cy] rest]; simpl; [by eexists|].
  simpl in Hfuel.
  case_bool_decide as Hsize; simpl; [|by eexists].
  case_bool_decide as Hin; [apply IH; simpl; lia|].
  assert (base.size (checked ∪ {[(cx, cy)]}) = S (base.size checked)) as Hgrow.
  { rewrite size_union; [set_solver|]. rewrite size_singleton. lia. }
  destruct (in_bounds sz cx cy); simpl; [|apply IH; simpl; lia].
  case_bool_decide; apply IH; simpl; lia.
Qed.

Lemma estimate_loop_bounds fuel stack st r :
  Tactical.estimate_loop fuel sz b stack st = Some r →
  st.1 ≤ Z.of_nat (base.size st.2) → (base.size st.2 ≤ 20)%nat →
  st.1 ≤ r ≤ 20.
Proof.
  revert stack st.
  induction fuel as [|fuel IH]; intros stack [territory checked] Hrun Hle Hmax;
    [done|].
  simpl in Hle, Hmax. cbn [fst].
  destruct stack as [|[cx cy] rest]; simpl in Hrun.
  { inversion Hrun; subst. lia. }
  case_bool_decide as Hsize; simpl in Hrun; [|inversion Hrun; subst; lia].
  case_bool_decide as Hin; [exact (IH _ _ Hrun Hle Hmax)|].
  assert (base.size (checked ∪ {[(cx, cy)]}) = S (base.size checked)) as Hgrow.
  { rewrite size_union; [set_solver|]. rewrite size_singleton. lia. }
  destruct (in_bounds sz cx cy); simpl in Hrun.
  2:{ apply IH in Hrun; simpl in *; lia. }
  case_bool_decide; apply IH in Hrun; simpl in *; lia.
Qed.

Lemma estimate_loop_first fuel x y :
  Tactical.estimate_loop (S (S fuel)) sz b [(x, y)] (0, ∅) =
  if in_bounds sz x y && bool_decide (cell b x y = 0) then
    Tactical.estimate_loop (S fuel) sz b
      (reverse ((λ d : pos, (x + d.1, y + d.2)) <$> directions) ++ [])
      (0 + 1, ∅ ∪ {[(x, y)]})
  else Some 0.
Proof.
  cbn [Tactical.estimate_loop]. rewrite size_empty.
  rewrite bool_decide_eq_true_2; [lia|]. cbn [negb].
  rewrite bool_decide_eq_false_2; [set_solver|].
  destruct (in_bounds sz x y); cbn [negb andb]; [|done].
  by case_bool_decide.
Qed.

Lemma estimate_loop_zero fuel x y r :
  Tactical.estimate_loop (S (S fuel)) sz b [(x, y)] (0, ∅) = Some r →
  r = 0 ↔ ¬ stone_at sz b 0 (x, y).
Proof.
  rewrite estimate_loop_first. unfold stone_at. cbn [fst snd].
  destruct (in_bounds sz x y); cbn [andb].
  2:{ intros [= <-]. split; [by intros _ [??]|done]. }
  case_bool_decide as Hc.
  - intros Hr. apply estimate_loop_bounds in Hr; cbn [fst snd] in *.
    + split; [lia|]. intros Hno. by destruct Hno.
    + rewrite size_union; [set_solver|]. rewrite size_empty size_singleton. lia.
    + rewrite size_union; [set_solver|]. rewrite size_empty size_singleton. lia.
  - intros [= <-]. split; [by intros _ [??]|done].
Qed.

End estimate.

(** X7.  [_estimate_territory_control] always comes back, with a count
    between 0 and 20; the count is 0 exactly when [(x, y)] is not an empty
    in-range cell. *)
Theorem estimate_territory_control_bounds (ai : AdvancedAI) (b : GoBoard)
    (x y : Z) :
  is_Some (Tactical.estimate_loop Tactical.estimate_fuel (size b) (board b)
             [(x, y)] (0, ∅)) ∧
  0 ≤ Tactical._estimate_territory_control ai b x y ≤ 20 ∧
  (Tactical._estimate_territory_control ai b x y = 0 ↔
   ¬ stone_at (size b) (board b) 0 (x, y)).
Proof.
  destruct (estimate_loop_terminates (size b) (board b) Tactical.estimate_fuel
              [(x, y)] (0, ∅)) as [r Hr].
  { cbn [fst snd length]. rewrite size_empty. unfold Tactical.estimate_fuel. lia. }
  split; [by eexists|].
  unfold Tactical._estimate_territory_control. rewrite Hr.
  change (default 0 (Some r)) with r.
  split.
  - apply (estimate_loop_bounds _ _ _ _ _ _ Hr); cbn [fst snd];
      rewrite size_empty; lia.
  - exact (estimate_loop_zero (size b) (board b) 100 x y r Hr).
Qed.

(* ===================================================================== *)
(** * What [get_move] returns                                             *)
(* ===================================================================== *)

Section get_move_result.

Context (h : helpers) (ai : AdvancedAI) (b : GoBoard).

(** The loops of the three tiers keep a member of the list (or the move
    they started with) as the best move. *)
Lemma medium_loop_in moves k st :
  (medium_loop h ai b k moves st).2 ∈ st.2 :: moves.
Proof.
  revert k st. induction moves as [|[x y] rest IH]; intros k st.
  - simpl. by left.
  - cbn [medium_loop]. cbv zeta.
    match goal with
    | |- (medium_loop h ai b (S k) rest ?st').2 ∈ _ =>
        pose proof (IH (S k) st') as Hin; set (r := medium_loop h ai b (S k) rest st') in *
    end.
    clearbody r. apply elem_of_cons in Hin as [Heq|Hin].
    + rewrite Heq. case_match; simpl; [right; by left|by left].
    + right. by right.
Qed.

Lemma simple_loop_in moves k st :
  (simple_loop h ai b k moves st).2 ∈ st.2 :: moves.
Proof.
  revert k st. induction moves as [|[x y] rest IH]; intros k st.
  - simpl. by left.
  - cbn [simple_loop]. cbv zeta.
    match goal with
    | |- (simple_loop h ai b (S k) rest ?st').2 ∈ _ =>
        pose proof (IH (S k) st') as Hin; set (r := simple_loop h ai b (S k) rest st') in *
    end.
    clearbody r. apply elem_of_cons in Hin as [Heq|Hin].
    + rewrite Heq. case_match; simpl; [right; by left|by left].
    + right. by right.
Qed.

Lemma advanced_loop_in moves k st bs p an :
  advanced_loop h ai b k moves st = inr (bs, Some p, an) →
  st.1.2 = Some p ∨ p ∈ moves.
Proof.
  revert k st. induction moves as [|[x y] rest IH]; intros k st.
  - simpl. intros [= ->]. by left.
  - cbn [advanced_loop].
    destruct (_evaluate_move_deep h ai b x y) as [e|[score analysis]]; [done|].
    cbn [bind]. destruct st as [[best_score best_move] analyses].
    intros [Heq|Hin]%IH; [|right; by right].
    revert Heq. repeat case_match; simpl; intros [= <-];
      (by left) || (right; by left).
Qed.

(** The loop of the hard tier ends with a best move once it has one or has
    a move to look at. *)
Lemma advanced_loop_some moves k st bs bm an :
  advanced_loop h ai b k moves st = inr (bs, bm, an) →
  st.1.2 ≠ None ∨ (st.1.1 = None ∧ moves ≠ []) → bm ≠ None.
Proof.
  revert k st. induction moves as [|[x y] rest IH]; intros k st.
  - simpl. intros [= ->]. simpl. intros [?|[_ ?]]; done.
  - cbn [advanced_loop].
    destruct (_evaluate_move_deep h ai b x y) as [e|[score analysis]]; [done|].
    cbn [bind]. destruct st as [[best_score best_move] analyses].
    intros Hrun Hst. apply IH in Hrun; [done|]. left. simpl in Hst.
    destruct Hst as [Hbm|[-> _]]; [|done].
    repeat case_match; done.
Qed.

(** The loop of the hard tier raises exactly when [_evaluate_shape] raises
    at one of the moves. *)
Lemma advanced_loop_exn moves k st e :
  advanced_loop h ai b k moves st = inl e ↔
  ∃ x y, (x, y) ∈ moves ∧ _evaluate_shape ai b x y = inl e.
Proof.
  revert k st. induction moves as [|[x y] rest IH]; intros k st.
  - simpl. split; [done|]. by intros (x & y & ?%elem_of_nil & _).
  - cbn [advanced_loop].
    pose proof (evaluate_move_deep_shape h ai b x y) as Hdeep.
    destruct (_evaluate_shape ai b x y) as [e'|v] eqn:Hhead.
    + rewrite Hdeep. cbn [bind].
      pose proof (evaluate_shape_exn ai b x y e' Hhead) as ->.
      split.
      * intros [= <-]. exists x, y. split; [by left|done].
      * intros (x' & y' & _ & He%evaluate_shape_exn). by rewrite He.
    + destruct Hdeep as [[score analysis] ->]. cbn [bind].
      destruct st as [[best_score best_move] analyses].
      rewrite IH. split.
      * intros (x' & y' & Hin & He). exists x', y'. split; [by right|done].
      * intros (x' & y' & [[= -> ->]|Hin]%elem_of_cons & He); [congruence|].
        by exists x', y'.
Qed.

End get_move_result.

Lemma evaluate_shape_raises ai b x y :
  _evaluate_shape ai b x y = inl NameError ↔
  _makes_good_shape ai b x y = false ∧ _makes_bad_shape ai b x y = false ∧
  Qgtb (_calculate_efficiency ai b x y) 12 = true.
Proof.
  unfold _evaluate_shape, ret, raise.
  destruct (_makes_good_shape ai b x y); [naive_solver|].
  destruct (_makes_bad_shape ai b x y); [naive_solver|].
  destruct (Qgtb _ _); naive_solver.
Qed.

(** A move that [get_move] returns is [(-1, -1)] on a board without legal
    moves and a legal move otherwise. *)
Lemma get_move_legal (h : helpers) (ai : AdvancedAI) (b : GoBoard) x y msg :
  (∀ k l, l ≠ [] → choice h k l ∈ l) →
  get_move h ai b = inr (x, y, msg) →
  if decide (get_valid_moves b = []) then (x, y) = (-1, -1)
  else (x, y) ∈ get_valid_moves b ∧ is_valid_move b x y = true.
Proof.
  intros Hchoice. unfold get_move.
  assert (∀ p, p ∈ get_valid_moves b →
               p ∈ get_valid_moves b ∧ is_valid_move b p.1 p.2 = true) as Hlegal.
  { intros [x' y'] Hin. split; [done|]. by apply elem_of_get_valid_moves. }
  destruct (get_valid_moves b) as [|m ms] eqn:Hmoves.
  { intros [= <- <- _]. by case_decide. }
  assert (m :: ms ≠ []) as Hne by done.
  case_decide; [done|].
  case_bool_decide as Heasy; [|case_bool_decide as Hhard].
  - unfold _get_move_simple. case_match.
    + pose proof (Hchoice 1%nat (m :: ms) Hne) as Hin.
      destruct (choice h 1 (m :: ms)) as [x' y'].
      intros [= <- <- _]. exact (Hlegal _ Hin).
    + pose proof (simple_loop_in h ai b (m :: ms) 1 (None, m)) as Hin.
      destruct (simple_loop h ai b 1 (m :: ms) (None, m)).2 as [x' y'].
      intros [= <- <- _]. apply (Hlegal (x', y')).
      apply elem_of_cons in Hin as [->|Hin]; [by left|done].
  - unfold _get_move_advanced.
    destruct (advanced_loop h ai b 0 (m :: ms) (None, None, []))
      as [e|[[bs bm] an]] eqn:Hrun; [done|].
    cbn [bind]. destruct bm as [[x' y']|]; [|done].
    intros [= <- <- _]. apply (Hlegal (x', y')).
    by apply advanced_loop_in in Hrun as [?|?].
  - unfold _get_move_medium.
    pose proof (medium_loop_in h ai b (m :: ms) 0 (None, m)) as Hin.
    destruct (medium_loop h ai b 0 (m :: ms) (None, m)).2 as [x' y'].
    intros [= <- <- _]. apply (Hlegal (x', y')).
    apply elem_of_cons in Hin as [->|Hin]; [by left|done].
Qed.

(** X8.  When [random.choice] returns a member of its list, [get_move]
    either raises or returns a legal move: [(-1, -1)] exactly when the board
    has no legal move, and otherwise a member of [get_valid_moves()].  The
    easy and the medium tier never raise. *)
Theorem get_move_returns_legal_move (h : helpers) (ai : AdvancedAI)
    (b : GoBoard) :
  (∀ k l, l ≠ [] → choice h k l ∈ l) →
  (difficulty ai ≠ "hard" → ∃ x y msg, get_move h ai b = inr (x, y, msg)) ∧
  (∀ x y msg, get_move h ai b = inr (x, y, msg) →
     if decide (get_valid_moves b = []) then (x, y) = (-1, -1)
     else (x, y) ∈ get_valid_moves b ∧ is_valid_move b x y = true).
Proof.
  intros Hchoice. split; [|intros x y msg; by apply get_move_legal].
  unfold get_move.
  destruct (get_valid_moves b) as [|m ms] eqn:Hmoves; [by eexists _, _, _|].
  intros Hhard. case_bool_decide as Heasy.
  - unfold _get_move_simple. case_match.
    + destruct (choice h 1 (m :: ms)) as [x y]. by eexists _, _, _.
    + destruct (simple_loop h ai b 1 (m :: ms) (None, m)).2 as [x y].
      by eexists _, _, _.
  - rewrite bool_decide_eq_false_2; [done|].
    unfold _get_move_medium.
    destruct (medium_loop h ai b 0 (m :: ms) (None, m)).2 as [x y].
    by eexists _, _, _.
Qed.

Lemma get_move_returns_legal_move_witness :
  (difficulty (create_ai (init 9) 1 "medium") ≠ "hard" →
   ∃ x y msg,
     get_move (Tactical.source_helpers (λ _, 0%Q) (λ _ l, default (0, 0) (head l)))
       (create_ai (init 9) 1 "medium") atari_position = inr (x, y, msg)) ∧
  (∀ x y msg,
     get_move (Tactical.source_helpers (λ _, 0%Q) (λ _ l, default (0, 0) (head l)))
       (create_ai (init 9) 1 "medium") atari_position = inr (x, y, msg) →
     if decide (get_valid_moves atari_position = []) then (x, y) = (-1, -1)
     else (x, y) ∈ get_valid_moves atari_position
          ∧ is_valid_move atari_position x y = true).
Proof.
  apply (get_move_returns_legal_move
           (Tactical.source_helpers (λ _, 0%Q) (λ _ l, default (0, 0) (head l)))
           (create_ai (init 9) 1 "medium") atari_position).
  intros k [|p l] Hne; [done|]. simpl. by left.
Defined.

(** X9.  [get_move] raises exactly in the hard tier, and exactly when some
    legal move makes neither a good nor a bad shape and has an efficiency
    above 12; what it raises is the [NameError] of [_evaluate_shape]. *)
Theorem get_move_raises_iff (h : helpers) (ai : AdvancedAI) (b : GoBoard)
    (e : exn) :
  get_move h ai b = inl e ↔
  e = NameError ∧ difficulty ai = "hard" ∧
  ∃ x y, is_valid_move b x y = true ∧
         _makes_good_shape ai b x y = false ∧
         _makes_bad_shape ai b x y = false ∧
         Qgtb (_calculate_efficiency ai b x y) 12 = true.
Proof.
  split.
  - unfold get_move.
    destruct (get_valid_moves b) as [|m ms] eqn:Hmoves; [done|].
    case_bool_decide as Heasy.
    { unfold _get_move_simple. repeat case_match; done. }
    case_bool_decide as Hhard.
    2:{ unfold _get_move_medium. repeat case_match; done. }
    unfold _get_move_advanced.
    destruct (advanced_loop h ai b 0 (m :: ms) (None, None, []))
      as [e'|[[bs bm] an]] eqn:Hrun.
    + cbn [bind]. intros [= <-].
      apply advanced_loop_exn in Hrun as (x & y & Hin & He).
      pose proof (evaluate_shape_exn ai b x y e' He) as ->.
      split; [done|]. split; [done|]. exists x, y. split.
      * apply elem_of_get_valid_moves. by rewrite Hmoves.
      * by apply evaluate_shape_raises.
    + cbn [bind]. apply advanced_loop_some in Hrun; [|by right].
      destruct bm as [[x y]|]; done.
  - intros (-> & Hhard & x & y & Hv & Hshape%evaluate_shape_raises).
    apply (get_move_hard_propagates h ai b x y); [done| |done].
    by apply elem_of_get_valid_moves.
Qed.

(* ===================================================================== *)
(** * The record of a game against the grid                                *)
(* ===================================================================== *)

Lemma NoDup_range sz : NoDup (range sz).
Proof.
  unfold range. apply NoDup_fmap_2; [apply _|apply NoDup_seq].
Qed.

Lemma NoDup_all_cells sz : NoDup (all_cells sz).
Proof.
  unfold all_cells. apply NoDup_bind; [| |apply NoDup_range].
  - intros y1 y2 q _ _ (x1 & Hq1 & _)%list_elem_of_bind (x2 & Hq2 & _)%list_elem_of_bind.
    apply list_elem_of_singleton in Hq1, Hq2. congruence.
  - intros y _. apply NoDup_bind; [| |apply NoDup_range].
    + intros x1 x2 q _ _ Hq1%list_elem_of_singleton Hq2%list_elem_of_singleton.
      congruence.
    + intros x _. apply NoDup_singleton.
Qed.

(** The cells of colour [c], as a set. *)
Lemma count_cells_size sz (b : grid) c :
  length (filter (λ q : pos, cell b q.1 q.2 = c) (all_cells sz))
  = base.size (list_to_set (filter (λ q : pos, cell b q.1 q.2 = c) (all_cells sz))
                 : gset pos).
Proof.
  symmetry. apply size_list_to_set, NoDup_filter, NoDup_all_cells.
Qed.

Lemma elem_of_cells_of sz (b : grid) c q :
  q ∈ (list_to_set (filter (λ q : pos, cell b q.1 q.2 = c) (all_cells sz)) : gset pos)
  ↔ stone_at sz b c q.
Proof.
  rewrite elem_of_list_to_set list_elem_of_filter elem_of_all_cells.
  unfold stone_at. tauto.
Qed.

Section one_move_count.

Context (sz : Z) (b : grid) (x y p : Z).
Hypothesis Hsq : square sz b.
Hypothesis Hxy : in_bounds sz x y = true.
Hypothesis Hempty : cell b x y = 0.
Hypothesis Hp : p = 1 ∨ p = 2.

#[local] Abbreviation o := (3 - p).
#[local] Abbreviation b1 := (set_cell b x y p).
#[local] Abbreviation C := (captured_set sz b1 x y o).
#[local] Abbreviation b2 := (remove_stones b1 (elements C)).

(** The mover has one stone more. *)
Lemma count_mover_after :
  length (filter (λ q : pos, cell b2 q.1 q.2 = p) (all_cells sz))
  = S (length (filter (λ q : pos, cell b q.1 q.2 = p) (all_cells sz))).
Proof.
  rewrite !count_cells_size.
  assert ((list_to_set (filter (λ q : pos, cell b2 q.1 q.2 = p) (all_cells sz))
             : gset pos)
          = {[(x, y)]} ∪
            list_to_set (filter (λ q : pos, cell b q.1 q.2 = p) (all_cells sz)))
    as ->.
  { apply set_eq. intros q.
    rewrite elem_of_union elem_of_singleton !elem_of_cells_of. unfold stone_at.
    split.
    - intros [Hq Hc]. rewrite (cell_after sz b x y p) in Hc; [done..|].
      destruct (decide (q ∈ C)); [lia|].
      destruct (decide (q = (x, y))); [by left|by right].
    - intros [->|[Hq Hc]].
      + split; [done|]. by apply new_stone_stands.
      + split; [done|]. by apply mover_stones_stay. }
  rewrite size_union.
  { apply disjoint_singleton_l. rewrite elem_of_cells_of.
    intros [_ Hc]. simpl in Hc. lia. }
  by rewrite size_singleton.
Qed.

(** The opponent has lost the captured stones and no other. *)
Lemma count_opponent_after :
  (length (filter (λ q : pos, cell b2 q.1 q.2 = o) (all_cells sz))
   + base.size C
   = length (filter (λ q : pos, cell b q.1 q.2 = o) (all_cells sz)))%nat.
Proof.
  rewrite !count_cells_size.
  assert (C ⊆ list_to_set
                (filter (λ q : pos, cell b q.1 q.2 = o) (all_cells sz))) as Hsub.
  { intros q Hq. apply elem_of_cells_of.
    destruct (captured_opponent sz b x y p Hsq Hxy q Hq) as (? & _ & ?).
    by split. }
  assert ((list_to_set (filter (λ q : pos, cell b2 q.1 q.2 = o) (all_cells sz))
             : gset pos)
          = list_to_set (filter (λ q : pos, cell b q.1 q.2 = o) (all_cells sz))
            ∖ C) as ->.
  { apply set_eq. intros q.
    rewrite elem_of_difference !elem_of_cells_of. unfold stone_at.
    split.
    - intros [Hq Hc]. apply (opponent_after sz b x y p) in Hc; [|done..].
      tauto.
    - intros [[Hq Hc] Hn]. split; [done|].
      by apply (opponent_after sz b x y p). }
  rewrite size_difference; [done|].
  apply subseteq_size in Hsub. lia.
Qed.

End one_move_count.

Lemma placements_snoc c hist m :
  placements c (hist ++ [m]) =
  placements c hist
  + (if bool_decide (mv_player m = c ∧ mv_x m ≠ -1) then 1 else 0).
Proof.
  unfold placements. rewrite filter_app length_app filter_cons filter_nil.
  case_bool_decide; case_decide; try done; simpl; lia.
Qed.

Lemma taken_snoc c hist m :
  taken c (hist ++ [m]) =
  taken c hist + (if bool_decide (mv_player m = c) then mv_captured m else 0).
Proof.
  unfold taken. induction hist as [|m' hist IH]; simpl.
  - case_bool_decide; lia.
  - rewrite IH. repeat case_bool_decide; lia.
Qed.

Lemma on_board_placed s x y c :
  board_ok s → is_valid_move s x y = true → c = 1 ∨ c = 2 →
  on_board (placed s x y) c =
  if bool_decide (current_player s = c) then on_board s c + 1
  else on_board s c
       - Z.of_nat (base.size (captured_set (size s)
                     (set_cell (board s) x y (current_player s)) x y
                     (3 - current_player s))).
Proof.
  intros [Hsq _ Hp _] (Hxy & Hempty & _)%is_valid_move_spec Hc.
  unfold on_board, stones_in, placed. cbn [size board].
  case_bool_decide as Hmover.
  - subst c. rewrite (count_mover_after (size s)); [done..|]. lia.
  - assert (c = 3 - current_player s) as -> by lia.
    pose proof (count_opponent_after (size s) (board s) x y (current_player s)
                  Hsq Hxy Hempty Hp). lia.
Qed.

(** X10.  In every state reached from a fresh board the stones of a colour
    on the grid are its placements in [move_history] less the stones the
    other colour has taken, and [captured_black] and [captured_white] are
    the totals of the [captured] entries of black's and of white's moves. *)
Theorem stones_match_history (n : Z) (s : GoBoard) :
  reachable n s →
  on_board s 1 + captured_white s = placements 1 (move_history s) ∧
  on_board s 2 + captured_black s = placements 2 (move_history s) ∧
  captured_black s = taken 1 (move_history s) ∧
  captured_white s = taken 2 (move_history s).
Proof.
  induction 1 as [|s x y Hreach IH|s Hreach IH].
  - unfold on_board, stones_in. simpl.
    rewrite !filter_none; [by intros q _; rewrite cell_init..|done].
  - pose proof (reachable_ok n s Hreach) as Hok.
    destruct (is_valid_move s x y) eqn:Hv; [|by rewrite place_stone_invalid].
    destruct (place_stone_valid s x y Hv) as [_ ->].
    rewrite (on_board_placed s x y 1); [done|done|by left|].
    rewrite (on_board_placed s x y 2); [done|done|by right|].
    pose proof Hv as (Hxy%in_bounds_spec & _)%is_valid_move_spec.
    destruct Hok as [_ _ Hp _].
    unfold placed. cbn [move_history captured_black captured_white].
    rewrite !placements_snoc !taken_snoc. cbn [mv_player mv_x mv_captured].
    destruct IH as (IH1 & IH2 & IH3 & IH4).
    repeat case_bool_decide; lia.
  - unfold on_board, stones_in, pass_move in *.
    cbn [move_history captured_black captured_white board size].
    rewrite !placements_snoc !taken_snoc. cbn [mv_player mv_x mv_captured].
    destruct IH as (IH1 & IH2 & IH3 & IH4).
    repeat case_bool_decide; lia.
Qed.

Lemma stones_match_history_witness :
  on_board ko_position 1 + captured_white ko_position
    = placements 1 (move_history ko_position) ∧
  on_board ko_position 2 + captured_black ko_position
    = placements 2 (move_history ko_position) ∧
  captured_black ko_position = taken 1 (move_history ko_position) ∧
  captured_white ko_position = taken 2 (move_history ko_position).
Proof.
  apply (stones_match_history 9 ko_position).
  apply plays_reachable, reachable_init.
Defined.

(* ===================================================================== *)
(** * Which stones a placement takes                                       *)
(* ===================================================================== *)

Section capture_rule.

Context (sz : Z) (b : grid) (x y p : Z).
Hypothesis Hsq : square sz b.
Hypothesis Hxy : in_bounds sz x y = true.
Hypothesis Hempty : cell b x y = 0.
Hypothesis Hp : p = 1 ∨ p = 2.
Hypothesis Halive : all_alive sz b.

#[local] Abbreviation o := (3 - p).
#[local] Abbreviation b1 := (set_cell b x y p).
#[local] Abbreviation C := (captured_set sz b1 x y o).

Lemma opponent_stone_placed q : stone_at sz b1 o q ↔ stone_at sz b o q.
Proof.
  unfold stone_at. split; intros [Hq Hc]; (split; [done|]).
  - rewrite (cell_placed sz b x y p) in Hc; [done..|].
    destruct (decide (q = (x, y))); [lia|done].
  - rewrite (cell_placed sz b x y p); [done..|].
    destruct (decide (q = (x, y))) as [->|]; [simpl in Hc; lia|done].
Qed.

(** The captured stones are the opposing stones whose group has no liberty
    once the new stone stands. *)
Lemma captured_set_dead q :
  q ∈ C ↔ stone_at sz b1 o q ∧ ¬ has_liberty sz b1 o q.
Proof.
  assert (cell b1 x y ≠ 0) as Hocc.
  { rewrite (cell_set_cell_eq sz); [done..|lia]. }
  rewrite captured_set_spec. split.
  - intros (n & (Hadj & Hst & Hdead) & Hconn).
    split; [exact (connected_stone_r _ _ _ _ _ Hconn)|].
    intros Hlib. apply (has_liberty_connected _ _ _ _ _ Hconn) in Hlib.
    rewrite group_has_liberty_excluding_occupied in Hdead; [done|].
    destruct n as [nx ny]. simpl in Hdead.
    change (_has_any_liberty sz b1 nx ny o = false) in Hdead.
    apply has_any_liberty_spec in Hlib. congruence.
  - intros [Hst Hdead].
    destruct (Halive o q) as (g & l & Hconn & Hadj & Hl & Hc);
      [lia|by apply opponent_stone_placed|].
    assert (connected sz b1 o q g) as Hconn1.
    { eapply connected_mono; [|exact Hconn].
      intros r. apply opponent_stone_placed. }
    assert (l = (x, y)) as ->.
    { destruct (decide (l = (x, y))) as [|Hne]; [done|]. destruct Hdead.
      exists g, l. split; [done|]. split; [done|]. split; [done|].
      rewrite (cell_placed sz b x y p); [done..|]. by rewrite decide_False. }
    exists g. split.
    + split; [by apply adjacent_sym|].
      split; [exact (connected_stone_r _ _ _ _ _ Hconn1)|].
      rewrite group_has_liberty_excluding_occupied; [done|].
      destruct g as [gx gy]. simpl.
      change (_has_any_liberty sz b1 gx gy o = false).
      apply not_true_iff_false. intros Hlib%has_any_liberty_spec.
      apply Hdead. exact (has_liberty_connected _ _ _ _ _ Hconn1 Hlib).
    + by apply connected_sym.
Qed.

End capture_rule.

(** X11.  An accepted [place_stone] puts the mover's colour on [(x, y)],
    empties exactly the in-range cells that hold an opposing stone whose
    group has no liberty once the new stone stands, and leaves every other
    in-range cell as it was; in particular it takes no stone of the mover. *)
Theorem place_stone_capture_rule (n : Z) (s : GoBoard) (x y : Z) :
  reachable n s → is_valid_move s x y = true →
  let s' := (place_stone s x y).2 in
  let b1 := set_cell (board s) x y (current_player s) in
  let o := 3 - current_player s in
  cell (board s') x y = current_player s ∧
  ∀ q, in_bounds (size s) q.1 q.2 = true → q ≠ (x, y) →
    (cell (board s) q.1 q.2 = o → ¬ has_liberty (size s) b1 o q →
     cell (board s') q.1 q.2 = 0) ∧
    (cell (board s) q.1 q.2 ≠ o ∨ has_liberty (size s) b1 o q →
     cell (board s') q.1 q.2 = cell (board s) q.1 q.2).
Proof.
  intros Hreach Hv s' b1 o.
  pose proof (reachable_ok n s Hreach) as [Hsq _ Hp Hal].
  pose proof Hv as (Hxy & Hempty & _)%is_valid_move_spec.
  unfold s'. destruct (place_stone_valid s x y Hv) as [_ ->].
  unfold placed. cbn [board].
  split; [by apply new_stone_stands|].
  intros q Hq Hne.
  rewrite (cell_after (size s) (board s) x y (current_player s)); [done..|].
  pose proof (captured_set_dead (size s) (board s) x y (current_player s)
                Hsq Hxy Hempty Hp Hal q) as Hdead.
  fold b1 o in Hdead |- *.
  assert (stone_at (size s) b1 o q ↔ cell (board s) q.1 q.2 = o) as Hst.
  { rewrite (opponent_stone_placed (size s) (board s) x y (current_player s));
      [done..|]. unfold stone_at. tauto. }
  split.
  - intros Hc Hno. rewrite decide_True; [|done]. apply Hdead. tauto.
  - intros Hkeep. rewrite decide_False; [|by rewrite decide_False].
    rewrite Hdead. tauto.
Qed.

Lemma place_stone_capture_rule_witness :
  cell (board (place_stone atari_position 1 2).2) 1 2
    = current_player atari_position ∧
  ∀ q, in_bounds (size atari_position) q.1 q.2 = true → q ≠ (1, 2) →
    (cell (board atari_position) q.1 q.2 = 3 - current_player atari_position →
     ¬ has_liberty (size atari_position)
         (set_cell (board atari_position) 1 2 (current_player atari_position))
         (3 - current_player atari_position) q →
     cell (board (place_stone atari_position 1 2).2) q.1 q.2 = 0) ∧
    (cell (board atari_position) q.1 q.2 ≠ 3 - current_player atari_position
     ∨ has_liberty (size atari_position)
         (set_cell (board atari_position) 1 2 (current_player atari_position))
         (3 - current_player atari_position) q →
     cell (board (place_stone atari_position 1 2).2) q.1 q.2
       = cell (board atari_position) q.1 q.2).
Proof.
  apply (place_stone_capture_rule 9 atari_position 1 2).
  - apply plays_reachable, reachable_init.
  - by vm_compute.
Defined.

(* ===================================================================== *)
(** * Turn order and the end of the game                                   *)
(* ===================================================================== *)

Lemma is_game_over_snoc hist s m :
  move_history s = hist ++ [m] →
  is_game_over s =
  bool_decide (mv_x m = -1)
  && match last hist with
     | Some m' => bool_decide (mv_x m' = -1)
     | None => false
     end.
Proof.
  intros Hh. unfold is_game_over. rewrite Hh rev_unit.
  destruct hist as [|m0 hist _] using rev_ind; simpl.
  - by rewrite andb_false_r.
  - by rewrite rev_unit last_snoc.
Qed.

Lemma is_game_over_placed s x y :
  is_valid_move s x y = true → is_game_over (place_stone s x y).2 = false.
Proof.
  intros Hv.
  pose proof Hv as (Hxy%in_bounds_spec & _)%is_valid_move_spec.
  destruct (place_stone_valid s x y Hv) as [_ ->].
  rewrite (is_game_over_snoc (move_history s) _
             (mkMove x y (current_player s)
                (Z.of_nat (base.size (captured_set (size s)
                   (set_cell (board s) x y (current_player s)) x y
                   (3 - current_player s)))))); [done|].
  cbn [mv_x]. rewrite bool_decide_eq_false_2; [lia|done].
Qed.

(** X12.  [is_game_over()] looks at the last two entries of [move_history]
    only: it is false after every accepted placement, true after a pass
    exactly when the entry before it is a pass too, and so true after two
    passes in a row, whatever came before. *)
Theorem is_game_over_after (s : GoBoard) :
  (∀ x y, is_valid_move s x y = true →
          is_game_over (place_stone s x y).2 = false) ∧
  (is_game_over (pass_move s) = true ↔
   ∃ m, last (move_history s) = Some m ∧ mv_x m = -1) ∧
  is_game_over (pass_move (pass_move s)) = true.
Proof.
  split; [|split].
  - intros x y. apply is_game_over_placed.
  - rewrite (is_game_over_snoc (move_history s) _
               (mkMove (-1) (-1) (current_player s) 0)); [done|].
    cbn [mv_x]. rewrite bool_decide_eq_true_2; [done|]. cbn [andb].
    destruct (last (move_history s)) as [m|].
    + rewrite bool_decide_eq_true. naive_solver.
    + naive_solver.
  - rewrite (is_game_over_snoc (move_history (pass_move s)) _
               (mkMove (-1) (-1) (current_player (pass_move s)) 0)); [done|].
    cbn [pass_move move_history mv_x]. rewrite last_snoc. by cbn.
Qed.

(** X13.  In every state reached from a fresh board black and white have
    moved in turn: the entry of index [i] of [move_history] is black's when
    [i] is even and white's when it is odd, a pass included, and the player
    to move is the one whose index comes next. *)
Theorem players_alternate (n : Z) (s : GoBoard) :
  reachable n s →
  current_player s = 1 + Z.of_nat (length (move_history s)) `mod` 2 ∧
  ∀ i m, move_history s !! i = Some m → mv_player m = 1 + Z.of_nat i `mod` 2.
Proof.
  assert (∀ hist p q,
    p = 1 + Z.of_nat (length hist) `mod` 2 →
    (∀ i m, hist !! i = Some m → mv_player m = 1 + Z.of_nat i `mod` 2) →
    mv_player q = p →
    3 - p = 1 + Z.of_nat (length (hist ++ [q])) `mod` 2 ∧
    ∀ i m, (hist ++ [q]) !! i = Some m → mv_player m = 1 + Z.of_nat i `mod` 2)
    as Hstep.
  { intros hist p q Hp Hhist Hq. split.
    - rewrite length_app. simpl. rewrite Hp.
      replace (Z.of_nat (length hist + 1)) with (Z.of_nat (length hist) + 1) by lia.
      pose proof (Z.mod_pos_bound (Z.of_nat (length hist)) 2 ltac:(lia)).
      pose proof (Z.mod_pos_bound (Z.of_nat (length hist) + 1) 2 ltac:(lia)).
      pose proof (Z.div_mod (Z.of_nat (length hist)) 2 ltac:(lia)).
      pose proof (Z.div_mod (Z.of_nat (length hist) + 1) 2 ltac:(lia)).
      lia.
    - intros i m Hm. apply lookup_app_Some in Hm as [Hm|[Hlen Hm]]; [by apply Hhist|].
      apply list_lookup_singleton_Some in Hm as [Hi <-].
      rewrite Hq Hp. do 2 f_equal. lia. }
  induction 1 as [|s x y Hreach IH|s Hreach IH].
  - split; [done|]. intros i m Hm. simpl in Hm. by rewrite lookup_nil in Hm.
  - destruct (is_valid_move s x y) eqn:Hv; [|by rewrite place_stone_invalid].
    destruct (place_stone_valid s x y Hv) as [_ ->].
    destruct IH as [IH1 IH2]. unfold placed. cbn [current_player move_history].
    by apply Hstep.
  - destruct IH as [IH1 IH2]. unfold pass_move. cbn [current_player move_history].
    by apply Hstep.
Qed.

Lemma players_alternate_witness :
  current_player ko_position
    = 1 + Z.of_nat (length (move_history ko_position)) `mod` 2 ∧
  ∀ i m, move_history ko_position !! i = Some m →
         mv_player m = 1 + Z.of_nat i `mod` 2.
Proof.
  apply (players_alternate 9 ko_position).
  apply plays_reachable, reachable_init.
Defined.

(* ===================================================================== *)
(** * The game manager                                                     *)
(* ===================================================================== *)

Lemma board_step_place gm game_id game x y b' over :
  gm !! game_id = Some game → GameManager.game_over game = false →
  (place_stone (GameManager.game_board game) x y).2 = b' →
  (over = true → is_game_over b' = true) →
  board_step gm (<[game_id := GameManager.with_board game b' over]> gm) game_id.
Proof.
  intros Hgame Hover <- Hend. right. exists game, [Some (x, y)], over. done.
Qed.

Lemma board_step_pass gm game_id game over :
  gm !! game_id = Some game → GameManager.game_over game = false →
  (over = true → is_game_over (pass_move (GameManager.game_board game)) = true) →
  board_step gm
    (<[game_id := GameManager.with_board game
                    (pass_move (GameManager.game_board game)) over]> gm) game_id.
Proof.
  intros Hgame Hover Hend. right. exists game, [None], over. done.
Qed.

Lemma board_step_pass_place gm game_id game x y b' over :
  gm !! game_id = Some game → GameManager.game_over game = false →
  (place_stone (pass_move (GameManager.game_board game)) x y).2 = b' →
  (over = true → is_game_over b' = true) →
  board_step gm (<[game_id := GameManager.with_board game b' over]> gm) game_id.
Proof.
  intros Hgame Hover <- Hend. right. exists game, [None; Some (x, y)], over. done.
Qed.

Lemma board_step_pass_pass gm game_id game over :
  gm !! game_id = Some game → GameManager.game_over game = false →
  board_step gm
    (<[game_id := GameManager.with_board game
                    (pass_move (pass_move (GameManager.game_board game))) over]> gm)
    game_id.
Proof.
  intros Hgame Hover. right. exists game, [None; None], over.
  split; [done|]. split; [done|]. split; [|done].
  intros _. unfold plays. cbn [foldl play].
  unfold is_game_over, pass_move. cbn [move_history].
  rewrite !rev_unit. by cbn.
Qed.

Lemma make_move_step h gm game_id x y :
  board_step gm (GameManager.make_move h gm game_id x y).2 game_id.
Proof.
  unfold GameManager.make_move, GameManager.get_game.
  destruct (gm !! game_id) as [game|] eqn:Hgame; [|by left].
  destruct (GameManager.game_over game) eqn:Hover; [by left|].
  cbv zeta. case_bool_decide as Hturn.
  - destruct (get_move h (GameManager.game_ai game) (GameManager.game_board game))
      as [e|[[ai_x ai_y] explanation]]; [by left|].
    case_bool_decide as Hpass.
    + destruct (place_stone (GameManager.game_board game) ai_x ai_y)
        as [[success ai_message] b'] eqn:Hplace.
      destruct (is_game_over b') eqn:Hend; cbn [snd];
        apply (board_step_place _ _ _ ai_x ai_y); by rewrite ?Hplace.
    + destruct (is_game_over (pass_move (GameManager.game_board game))) eqn:Hend;
        cbn [snd]; by apply board_step_pass.
  - destruct (place_stone (GameManager.game_board game) x y)
      as [[success message] b'] eqn:Hplace.
    destruct success; cbn [negb]; [|by left].
    destruct (is_game_over b') eqn:Hend; cbn [snd];
      apply (board_step_place _ _ _ x y); by rewrite ?Hplace.
Qed.

Lemma make_ai_move_step h gm game_id :
  board_step gm (GameManager.make_ai_move h gm game_id).2 game_id.
Proof.
  unfold GameManager.make_ai_move, GameManager.get_game.
  destruct (gm !! game_id) as [game|] eqn:Hgame; [|by left].
  destruct (GameManager.game_over game) eqn:Hover; [by left|].
  cbv zeta. case_bool_decide as Hturn; cbn [negb]; [|by left].
  destruct (get_move h (GameManager.game_ai game) (GameManager.game_board game))
    as [e|[[ai_x ai_y] explanation]]; [by left|].
  case_bool_decide as Hpass.
  - destruct (place_stone (GameManager.game_board game) ai_x ai_y)
      as [[success ai_message] b'] eqn:Hplace.
    destruct (is_game_over b') eqn:Hend; cbn [snd];
      apply (board_step_place _ _ _ ai_x ai_y); by rewrite ?Hplace.
  - destruct (is_game_over (pass_move (GameManager.game_board game))) eqn:Hend;
      cbn [snd]; by apply board_step_pass.
Qed.

Lemma pass_turn_step h gm game_id :
  board_step gm (GameManager.pass_turn h gm game_id).2 game_id.
Proof.
  unfold GameManager.pass_turn, GameManager.get_game.
  destruct (gm !! game_id) as [game|] eqn:Hgame; [|by left].
  destruct (GameManager.game_over game) eqn:Hover; [by left|].
  cbv zeta. case_bool_decide as Hturn; [|by apply board_step_pass].
  destruct (get_move h (GameManager.game_ai game)
              (pass_move (GameManager.game_board game)))
    as [e|[[ai_x ai_y] explanation]]; [by apply board_step_pass|].
  case_bool_decide as Hpass.
  - destruct (is_game_over
                (place_stone (pass_move (GameManager.game_board game)) ai_x ai_y).2)
      eqn:Hend; cbn [snd]; by apply (board_step_pass_place _ _ _ ai_x ai_y).
  - destruct (is_game_over (pass_move (pass_move (GameManager.game_board game))))
      eqn:Hend; cbn [snd]; by apply board_step_pass_pass.
Qed.

Lemma create_game_games gm game_id difficulty sz ai_color :
  (GameManager.create_game gm game_id difficulty sz ai_color).2
  = <[game_id := GameManager.mkGame (init sz) difficulty ai_color
                   (create_ai (init sz) ai_color difficulty) false true]> gm.
Proof. done. Qed.

Lemma undo_move_games gm game_id :
  (GameManager.undo_move gm game_id).2 = gm ∨
  ∃ game,
    gm !! game_id = Some game ∧
    (GameManager.undo_move gm game_id).2
    = <[game_id :=
          GameManager.with_board game
            {| size := size (GameManager.game_board game);
               board := board (GameManager.game_board game);
               current_player := current_player (GameManager.game_board game);
               move_history :=
                 removelast (removelast
                   (move_history (GameManager.game_board game)));
               captured_black := captured_black (GameManager.game_board game);
               captured_white := captured_white (GameManager.game_board game);
               ko_point := ko_point (GameManager.game_board game);
               last_move := last_move (GameManager.game_board game) |}
            false]> gm.
Proof.
  unfold GameManager.undo_move, GameManager.get_game.
  destruct (gm !! game_id) as [game|] eqn:Hgame; [|by left].
  cbv zeta. case_bool_decide; [by left|]. right. by exists game.
Qed.







Lemma serve_other h gm r game_id :
  target r ≠ game_id → serve h gm r !! game_id = gm !! game_id.
Proof.
  intros Hne.
  assert (∀ gm', board_step gm gm' (target r) → gm' !! game_id = gm !! game_id)
    as Hstep.
  { intros gm' [->|(game & ms & over & _ & _ & _ & ->)]; [done|].
    by rewrite lookup_insert_ne. }
  destruct r as [i difficulty sz ai_color|i x y|i|i|i]; cbn [serve target] in *.
  - rewrite create_game_games. by rewrite lookup_insert_ne.
  - apply Hstep, make_move_step.
  - apply Hstep, make_ai_move_step.
  - apply Hstep, pass_turn_step.
  - destruct (undo_move_games gm i) as [->|(game & _ & ->)]; [done|].
    by rewrite lookup_insert_ne.
Qed.

(** X16.  For a [game_id] that [self.games] does not hold, [get_game]
    returns [None] and every other method answers
    [{'error': '游戏不存在'}] and leaves [self.games] as it is; and whatever
    calls follow, the [game_id] stays unknown until [create_game] is called
    with it. *)
Theorem unknown_game_refused (h : helpers) (gm : GameManager.games)
    (game_id : string) (x y : Z) :
  gm !! game_id = None →
  GameManager.get_game gm game_id = None ∧
  GameManager.make_move h gm game_id x y
    = (inr {[ "error" := GameManager.VStr "游戏不存在" ]}, gm) ∧
  GameManager.make_ai_move h gm game_id
    = (inr {[ "error" := GameManager.VStr "游戏不存在" ]}, gm) ∧
  GameManager.pass_turn h gm game_id
    = (inr {[ "error" := GameManager.VStr "游戏不存在" ]}, gm) ∧
  GameManager.get_valid_moves gm game_id
    = {[ "error" := GameManager.VStr "游戏不存在" ]} ∧
  GameManager.undo_move gm game_id
    = ({[ "error" := GameManager.VStr "游戏不存在" ]}, gm) ∧
  GameManager.get_score gm game_id
    = {[ "error" := GameManager.VStr "游戏不存在" ]} ∧
  ∀ rs gm',
    serves gm rs gm' →
    Forall (λ r, is_create r → target r ≠ game_id) rs →
    gm' !! game_id = None.
Proof.
  intros Hnone.
  unfold GameManager.make_move, GameManager.make_ai_move, GameManager.pass_turn,
    GameManager.get_valid_moves, GameManager.undo_move, GameManager.get_score,
    GameManager.get_game.
  rewrite Hnone. repeat (split; [done|]).
  intros rs gm' Hserves.
  induction Hserves as [|rs gm' h' r Hserves IH]; intros Hrs; [done|].
  apply Forall_app in Hrs as [Hrs [Hr _]%Forall_cons].
  specialize (IH Hrs).
  destruct (decide (target r = game_id)) as [Heq|Hne];
    [|by rewrite serve_other].
  assert (∀ gm'', board_step gm' gm'' game_id → gm'' !! game_id = None)
    as Hstep.
  { intros gm'' [->|(game & ms & over & Hgame' & _)]; [done|]. congruence. }
  destruct r as [i difficulty sz ai_color|i x' y'|i|i|i];
    cbn [serve target is_create] in *; subst i.
  - by destruct Hr.
  - apply Hstep, make_move_step.
  - apply Hstep, make_ai_move_step.
  - apply Hstep, pass_turn_step.
  - destruct (undo_move_games gm' game_id) as [->|(game & Hgame' & _)];
      [done|congruence].
Qed.

Lemma unknown_game_refused_witness :
  let h := Tactical.source_helpers (λ _, 0%Q) (λ _ l, default (0, 0) (head l)) in
  GameManager.get_game ∅ "nobody" = None ∧
  GameManager.make_move h ∅ "nobody" 3 3
    = (inr {[ "error" := GameManager.VStr "游戏不存在" ]}, ∅) ∧
  GameManager.make_ai_move h ∅ "nobody"
    = (inr {[ "error" := GameManager.VStr "游戏不存在" ]}, ∅) ∧
  GameManager.pass_turn h ∅ "nobody"
    = (inr {[ "error" := GameManager.VStr "游戏不存在" ]}, ∅) ∧
  GameManager.get_valid_moves ∅ "nobody"
    = {[ "error" := GameManager.VStr "游戏不存在" ]} ∧
  GameManager.undo_move ∅ "nobody"
    = ({[ "error" := GameManager.VStr "游戏不存在" ]}, ∅) ∧
  GameManager.get_score ∅ "nobody"
    = {[ "error" := GameManager.VStr "游戏不存在" ]} ∧
  ∀ rs gm',
    serves ∅ rs gm' →
    Forall (λ r, is_create r → target r ≠ "nobody") rs →
    gm' !! "nobody" = None.
Proof.
  intros h.
  apply (unknown_game_refused h ∅ "nobody" 3 3).
  apply lookup_empty.
Defined.

(** X17.  Once a game is marked [game_over], [make_move], [make_ai_move] and
    [pass_turn] answer [{'error': '游戏已结束'}] without consulting the
    selector and leave [self.games] as it is; and whatever calls follow, the
    entry of the game, its board included, stays exactly as it is until
    [create_game] or [undo_move] is called with its [game_id]. *)
Theorem finished_game_frozen (h : helpers) (gm : GameManager.games)
    (game_id : string) (g : GameManager.Game) (x y : Z) :
  gm !! game_id = Some g → GameManager.game_over g = true →
  GameManager.make_move h gm game_id x y
    = (inr {[ "error" := GameManager.VStr "游戏已结束" ]}, gm) ∧
  GameManager.make_ai_move h gm game_id
    = (inr {[ "error" := GameManager.VStr "游戏已结束" ]}, gm) ∧
  GameManager.pass_turn h gm game_id
    = (inr {[ "error" := GameManager.VStr "游戏已结束" ]}, gm) ∧
  ∀ rs gm',
    serves gm rs gm' →
    Forall (λ r, is_create r ∨ is_undo r → target r ≠ game_id) rs →
    gm' !! game_id = Some g.
Proof.
  intros Hgame Hover. split; [|split; [|split]].
  - unfold GameManager.make_move, GameManager.get_game. by rewrite Hgame Hover.
  - unfold GameManager.make_ai_move, GameManager.get_game. by rewrite Hgame Hover.
  - unfold GameManager.pass_turn, GameManager.get_game. by rewrite Hgame Hover.
  - intros rs gm' Hserves.
    induction Hserves as [|rs gm' h' r Hserves IH]; intros Hrs; [done|].
    apply Forall_app in Hrs as [Hrs [Hr _]%Forall_cons].
    specialize (IH Hrs).
    destruct (decide (target r = game_id)) as [Heq|Hne];
      [|by rewrite serve_other].
    assert (∀ gm'', board_step gm' gm'' game_id → gm'' !! game_id = Some g)
      as Hstep.
    { intros gm'' [->|(game & ms & over & Hgame' & Hover' & _)]; [done|].
      rewrite IH in Hgame'. injection Hgame' as <-. congruence. }
    destruct r as [i difficulty sz ai_color|i x' y'|i|i|i];
      cbn [serve target is_create is_undo] in *; subst i.
    + destruct Hr; [by left|done].
    + apply Hstep, make_move_step.
    + apply Hstep, make_ai_move_step.
    + apply Hstep, pass_turn_step.
    + destruct Hr; [by right|done].
Qed.

Lemma finished_game_frozen_witness :
  let g := GameManager.mkGame finished_position "easy" 2
             (create_ai (init 9) 2 "easy") true true in
  let h := Tactical.source_helpers (λ _, 0%Q) (λ _ l, default (0, 0) (head l)) in
  GameManager.make_move h {[ "g" := g ]} "g" 4 4
    = (inr {[ "error" := GameManager.VStr "游戏已结束" ]}, {[ "g" := g ]}) ∧
  GameManager.make_ai_move h {[ "g" := g ]} "g"
    = (inr {[ "error" := GameManager.VStr "游戏已结束" ]}, {[ "g" := g ]}) ∧
  GameManager.pass_turn h {[ "g" := g ]} "g"
    = (inr {[ "error" := GameManager.VStr "游戏已结束" ]}, {[ "g" := g ]}) ∧
  ∀ rs gm',
    serves {[ "g" := g ]} rs gm' →
    Forall (λ r, is_create r ∨ is_undo r → target r ≠ "g") rs →
    gm' !! "g" = Some g.
Proof.
  intros g h.
  apply (finished_game_frozen h {[ "g" := g ]} "g" g 4 4).
  - apply lookup_singleton_eq.
  - done.
Defined.



(* ===================================================================== *)
(** * The answers of the manager                                           *)
(* ===================================================================== *)

Lemma lookup_refresh b w (r : GameManager.response) k :
  k ∉ ["board"; "current_player"; "captured_black"; "captured_white";
       "last_move"] →
  GameManager.refresh b w r !! k = r !! k.
Proof.
  intros Hk. unfold GameManager.refresh. cbv zeta.
  destruct w; rewrite !lookup_insert_ne; set_solver.
Qed.

Lemma lookup_with_score b (r : GameManager.response) k :
  k ≠ "score" → k ≠ "winner" → GameManager.with_score b r !! k = r !! k.
Proof.
  intros Hs Hw. unfold GameManager.with_score.
  destruct (get_score b) as [bk wh]. by rewrite !lookup_insert_ne.
Qed.

Lemma move_answer_keys (v1 v2 v3 v4 v5 v6 v7 v8 v9 : GameManager.value) :
  let r : GameManager.response :=
    list_to_map
      [("success", v1); ("message", v2); ("board", v3); ("current_player", v4);
       ("captured_black", v5); ("captured_white", v6); ("last_move", v7);
       ("game_over", v8); ("is_ai_turn", v9)] in
  r !! "error" = None ∧ r !! "success" = Some v1 ∧ r !! "message" = Some v2
  ∧ r !! "board" = Some v3 ∧ r !! "current_player" = Some v4
  ∧ r !! "game_over" = Some v8 ∧ r !! "is_ai_turn" = Some v9.
Proof. by vm_compute. Qed.

Lemma refresh_error b w (r : GameManager.response) :
  GameManager.refresh b w r !! "error" = r !! "error".
Proof. apply lookup_refresh. set_solver. Qed.

Lemma with_score_error b (r : GameManager.response) :
  GameManager.with_score b r !! "error" = r !! "error".
Proof. by apply lookup_with_score. Qed.

(** An answer that was built as a dict of other keys does not hold the key
    ['error']. *)
Ltac answer_error :=
  unfold ret; cbv beta iota; intros [v Hv]; exfalso; revert Hv;
  repeat first
    [ rewrite with_score_error
    | rewrite refresh_error
    | rewrite lookup_insert_ne; [discriminate|] ];
  by rewrite lookup_empty.

Lemma make_move_error h gm game_id x y :
  match GameManager.make_move h gm game_id x y with
  | (inr r, gm') => is_Some (r !! "error") → gm' = gm
  | (inl _, _) => True
  end.
Proof.
  unfold GameManager.make_move, GameManager.get_game.
  destruct (gm !! game_id) as [game|]; [|done].
  destruct (GameManager.game_over game); [done|].
  cbv zeta. case_bool_decide as Hturn.
  - destruct (get_move h (GameManager.game_ai game) (GameManager.game_board game))
      as [e|[[ai_x ai_y] explanation]]; [done|].
    case_bool_decide as Hpass.
    + destruct (place_stone (GameManager.game_board game) ai_x ai_y)
        as [[success ai_message] b'].
      destruct (is_game_over b');
        answer_error.
    + destruct (is_game_over (pass_move (GameManager.game_board game)));
        answer_error.
  - destruct (place_stone (GameManager.game_board game) x y)
      as [[success message] b'].
    destruct success; cbn [negb]; [|done].
    destruct (is_game_over b');
      answer_error.
Qed.

Lemma make_ai_move_error h gm game_id :
  match GameManager.make_ai_move h gm game_id with
  | (inr r, gm') => is_Some (r !! "error") → gm' = gm
  | (inl _, _) => True
  end.
Proof.
  unfold GameManager.make_ai_move, GameManager.get_game.
  destruct (gm !! game_id) as [game|]; [|done].
  destruct (GameManager.game_over game); [done|].
  cbv zeta. case_bool_decide as Hturn; cbn [negb]; [|done].
  destruct (get_move h (GameManager.game_ai game) (GameManager.game_board game))
    as [e|[[ai_x ai_y] explanation]]; [done|].
  case_bool_decide as Hpass.
  - destruct (place_stone (GameManager.game_board game) ai_x ai_y)
      as [[success ai_message] b'].
    destruct (is_game_over b'); answer_error.
  - destruct (is_game_over (pass_move (GameManager.game_board game)));
      answer_error.
Qed.

Lemma pass_turn_error h gm game_id :
  match GameManager.pass_turn h gm game_id with
  | (inr r, gm') => is_Some (r !! "error") → gm' = gm
  | (inl _, _) => True
  end.
Proof.
  unfold GameManager.pass_turn, GameManager.get_game.
  destruct (gm !! game_id) as [game|]; [|done].
  destruct (GameManager.game_over game); [done|].
  cbv zeta. case_bool_decide as Hturn; [|answer_error].
  destruct (get_move h (GameManager.game_ai game)
              (pass_move (GameManager.game_board game)))
    as [e|[[ai_x ai_y] explanation]]; [done|].
  case_bool_decide as Hpass.
  - destruct (is_game_over
                (place_stone (pass_move (GameManager.game_board game)) ai_x ai_y).2);
      answer_error.
  - destruct (is_game_over (pass_move (pass_move (GameManager.game_board game))));
      answer_error.
Qed.

(** X19.  An answer of [make_move], [make_ai_move] or [pass_turn] that holds
    the key ['error'] comes with [self.games] unchanged: a refused request
    has written nothing. *)
Theorem error_answer_changes_nothing (h : helpers) (gm : GameManager.games)
    (game_id : string) (x y : Z) :
  (∀ r gm', GameManager.make_move h gm game_id x y = (inr r, gm') →
            is_Some (r !! "error") → gm' = gm) ∧
  (∀ r gm', GameManager.make_ai_move h gm game_id = (inr r, gm') →
            is_Some (r !! "error") → gm' = gm) ∧
  (∀ r gm', GameManager.pass_turn h gm game_id = (inr r, gm') →
            is_Some (r !! "error") → gm' = gm).
Proof.
  split; [|split]; intros r gm' Hrun.
  - pose proof (make_move_error h gm game_id x y) as Herr. by rewrite Hrun in Herr.
  - pose proof (make_ai_move_error h gm game_id) as Herr. by rewrite Hrun in Herr.
  - pose proof (pass_turn_error h gm game_id) as Herr. by rewrite Hrun in Herr.
Qed.

(** X20.  When it is not the selector's turn, [make_move] is [place_stone]
    on the board of the game: a move that [is_valid_move] refuses is
    answered with [{'error': '无效的落子位置'}] and changes nothing; a legal
    move is played without consulting the selector, the answer holds the new
    grid and no winner, and the game is not over after it. *)
Theorem make_move_player_turn (h : helpers) (gm : GameManager.games)
    (game_id : string) (g : GameManager.Game) (x y : Z) :
  gm !! game_id = Some g → GameManager.game_over g = false →
  current_player (GameManager.game_board g) ≠ GameManager.game_ai_color g →
  let b := GameManager.game_board g in
  (is_valid_move b x y = false →
   GameManager.make_move h gm game_id x y
   = (inr {[ "error" := GameManager.VStr "无效的落子位置" ]}, gm)) ∧
  (is_valid_move b x y = true →
   ∃ r, GameManager.make_move h gm game_id x y
        = (inr r,
           <[game_id := GameManager.with_board g (place_stone b x y).2 false]> gm) ∧
        r !! "success" = Some (GameManager.VBool true) ∧
        r !! "board" = Some (GameManager.VGrid (board (place_stone b x y).2)) ∧
        r !! "game_over" = Some (GameManager.VBool false) ∧
        r !! "is_ai_turn" = Some (GameManager.VBool true) ∧
        r !! "error" = None).
Proof.
  intros Hgame Hover Hturn b.
  unfold GameManager.make_move, GameManager.get_game.
  rewrite Hgame Hover. cbv zeta. fold b.
  rewrite bool_decide_eq_false_2; [done|]. split.
  - intros Hv. by rewrite place_stone_invalid.
  - intros Hv. pose proof (is_game_over_placed b x y Hv) as Hend.
    destruct (place_stone_valid b x y Hv) as [Hsucc _].
    destruct (place_stone b x y) as [[success message] b'] eqn:Hplace.
    cbn [fst snd] in *. subst success. cbn [negb]. rewrite Hend.
    eexists. split; [done|].
    pose proof (move_answer_keys (GameManager.VBool true)
      (GameManager.VStr message) (GameManager.VGrid (board b'))
      (GameManager.VInt (current_player b'))
      (GameManager.VInt (captured_black b'))
      (GameManager.VInt (captured_white b'))
      (GameManager.last_move_value b')
      (GameManager.VBool false) (GameManager.VBool true)) as Hkeys.
    cbv zeta in Hkeys. tauto.
Qed.

Lemma make_move_player_turn_witness :
  let g := GameManager.mkGame atari_position "easy" 2
             (create_ai (init 9) 2 "easy") false true in
  let h := Tactical.source_helpers (λ _, 0%Q) (λ _ l, default (0, 0) (head l)) in
  let b := GameManager.game_board g in
  (is_valid_move b 1 2 = false →
   GameManager.make_move h {[ "g" := g ]} "g" 1 2
   = (inr {[ "error" := GameManager.VStr "无效的落子位置" ]}, {[ "g" := g ]})) ∧
  (is_valid_move b 1 2 = true →
   ∃ r, GameManager.make_move h {[ "g" := g ]} "g" 1 2
        = (inr r,
           <["g" := GameManager.with_board g (place_stone b 1 2).2 false]>
             {[ "g" := g ]}) ∧
        r !! "success" = Some (GameManager.VBool true) ∧
        r !! "board" = Some (GameManager.VGrid (board (place_stone b 1 2).2)) ∧
        r !! "game_over" = Some (GameManager.VBool false) ∧
        r !! "is_ai_turn" = Some (GameManager.VBool true) ∧
        r !! "error" = None).
Proof.
  intros g h.
  apply (make_move_player_turn h {[ "g" := g ]} "g" g 1 2).
  - apply lookup_singleton_eq.
  - done.
  - by vm_compute.
Defined.

(** X21.  When it is the selector's turn, [make_move] does not look at the
    coordinates it is given: it asks the selector and plays its move, and
    leaves [self.games] exactly as [make_ai_move] does. *)
Theorem make_move_on_ai_turn (h : helpers) (gm : GameManager.games)
    (game_id : string) (g : GameManager.Game) (x y x' y' : Z) :
  gm !! game_id = Some g →
  current_player (GameManager.game_board g) = GameManager.game_ai_color g →
  GameManager.make_move h gm game_id x y
    = GameManager.make_move h gm game_id x' y' ∧
  (GameManager.make_move h gm game_id x y).2
    = (GameManager.make_ai_move h gm game_id).2 ∧
  (∀ e, (GameManager.make_move h gm game_id x y).1 = inl e ↔
        (GameManager.make_ai_move h gm game_id).1 = inl e).
Proof.
  intros Hgame Hturn.
  unfold GameManager.make_move, GameManager.make_ai_move, GameManager.get_game.
  rewrite Hgame. destruct (GameManager.game_over g); [done|].
  cbv zeta. rewrite !bool_decide_eq_true_2; [done..|]. cbn [negb].
  destruct (get_move h (GameManager.game_ai g) (GameManager.game_board g))
    as [e|[[ai_x ai_y] explanation]]; [done|].
  split; [done|].
  case_bool_decide as Hpass.
  - destruct (place_stone (GameManager.game_board g) ai_x ai_y)
      as [[success ai_message] b'].
    destruct (is_game_over b'); cbn [fst snd]; unfold ret;
      (split; [reflexivity|intros e; split; discriminate]).
  - destruct (is_game_over (pass_move (GameManager.game_board g)));
      cbn [fst snd]; unfold ret;
      (split; [reflexivity|intros e; split; discriminate]).
Qed.

Lemma make_move_on_ai_turn_witness :
  let g := GameManager.mkGame atari_position "easy" 1
             (create_ai (init 9) 1 "easy") false true in
  let h := Tactical.source_helpers (λ _, 0%Q) (λ _ l, default (0, 0) (head l)) in
  GameManager.make_move h {[ "g" := g ]} "g" 1 2
    = GameManager.make_move h {[ "g" := g ]} "g" 7 7 ∧
  (GameManager.make_move h {[ "g" := g ]} "g" 1 2).2
    = (GameManager.make_ai_move h {[ "g" := g ]} "g").2 ∧
  (∀ e, (GameManager.make_move h {[ "g" := g ]} "g" 1 2).1 = inl e ↔
        (GameManager.make_ai_move h {[ "g" := g ]} "g").1 = inl e).
Proof.
  intros g h.
  apply (make_move_on_ai_turn h {[ "g" := g ]} "g" g 1 2 7 7).
  - apply lookup_singleton_eq.
  - by vm_compute.
Defined.





(* ===================================================================== *)
(** * The remote selector                                                  *)
(* ===================================================================== *)

Lemma parse_response_in w b content valid_moves x y msg :
  DeepSeekAI._parse_response w b content valid_moves = inr (x, y, msg) →
  (x, y) ∈ valid_moves.
Proof.
  unfold DeepSeekAI._parse_response. cbv zeta.
  assert (match valid_moves with
          | [] => raise IndexError
          | (fallback_x, fallback_y) :: _ =>
              ret (fallback_x, fallback_y,
                   content +:+ String (Ascii.ascii_of_nat 10)
                     (String (Ascii.ascii_of_nat 10)
                        ("[注：推荐的坐标不可用，已选择备用位置 ("
                         +:+ str (fallback_x + 1) +:+ ", " +:+ str (fallback_y + 1)
                         +:+ ")]")))
          end = inr (x, y, msg) → (x, y) ∈ valid_moves) as Hfallback.
  { destruct valid_moves as [|[fx fy] l]; [done|]. intros [= <- <- _]. by left. }
  destruct (DeepSeekAI.coordinates w content) as [[c1 c2]|]; [|done].
  destruct (in_bounds (size b) (c1 - 1) (c2 - 1)); [|done].
  case_bool_decide as Hin; [|done]. by intros [= <- <- _].
Qed.

(** X23.  [DeepSeekAI.get_move] always returns a move, whatever the API
    answers or raises: [(-1, -1)] exactly when the board has no legal move,
    and otherwise a member of [get_valid_moves()]; when the call of the API
    raises, it is the first legal move. *)
Theorem deepseek_get_move_legal (w : DeepSeekAI.world)
    (ai : DeepSeekAI.DeepSeekAI) (b : GoBoard) :
  let r := DeepSeekAI.get_move w ai b in
  (if decide (get_valid_moves b = []) then (r.1.1, r.1.2) = (-1, -1)
   else (r.1.1, r.1.2) ∈ get_valid_moves b
        ∧ is_valid_move b r.1.1 r.1.2 = true) ∧
  (∀ e, DeepSeekAI.completion w = inl e →
        head (get_valid_moves b) = Some (r.1.1, r.1.2)
        ∨ get_valid_moves b = []).
Proof.
  cbv zeta. unfold DeepSeekAI.get_move.
  assert (∀ p, p ∈ get_valid_moves b →
               p ∈ get_valid_moves b ∧ is_valid_move b p.1 p.2 = true) as Hlegal.
  { intros [x y] Hin. split; [done|]. by apply elem_of_get_valid_moves. }
  destruct (get_valid_moves b) as [|[x0 y0] l] eqn:Hmoves.
  { split; [by case_decide|]. intros e _. by right. }
  split.
  - case_decide; [done|].
    destruct (DeepSeekAI._get_deepseek_move w ai b ((x0, y0) :: l))
      as [e|[[x y] msg]] eqn:Hrun.
    + apply (Hlegal (x0, y0)). by left.
    + apply (Hlegal (x, y)). unfold DeepSeekAI._get_deepseek_move in Hrun.
      destruct (DeepSeekAI.completion w) as [e|content]; [done|].
      by apply parse_response_in in Hrun.
  - intros e He. left. unfold DeepSeekAI._get_deepseek_move. by rewrite He.
Qed.

Lemma contested_direction b x y (d : pos) :
  d ∈ directions →
  in_bounds (size b) (x + d.1) (y + d.2)
  && negb (bool_decide (cell (board b) (x + d.1) (y + d.2) = 0))
  && negb (bool_decide (cell (board b) (x + d.1) (y + d.2) = cell (board b) x y))
  = true ↔
  in_bounds (size b) (x + d.1) (y + d.2) = true ∧
  cell (board b) (x + d.1) (y + d.2) ≠ 0 ∧
  cell (board b) (x + d.1) (y + d.2) ≠ cell (board b) x y.
Proof.
  intros _. rewrite !andb_true_iff !negb_true_iff !bool_decide_eq_false. tauto.
Qed.

Lemma elem_of_fight_scan b p :
  p ∈ (y ← range (size b);
       x ← range (size b);
       if negb (bool_decide (cell (board b) x y = 0))
          && existsb (λ d : pos,
               in_bounds (size b) (x + d.1) (y + d.2)
               && negb (bool_decide (cell (board b) (x + d.1) (y + d.2) = 0))
               && negb (bool_decide (cell (board b) (x + d.1) (y + d.2)
                                     = cell (board b) x y)))
             directions
       then [(x, y)] else [])
  ↔ contested b p.
Proof.
  rewrite list_elem_of_bind. unfold contested. split.
  - intros (y & (x & Hp & Hx%elem_of_range)%list_elem_of_bind & Hy%elem_of_range).
    destruct (negb _ && _) eqn:Hc in Hp; [|by apply elem_of_nil in Hp].
    apply list_elem_of_singleton in Hp as ->. simpl.
    apply andb_true_iff in Hc as [Hne%negb_true_iff%bool_decide_eq_false Hex].
    apply existsb_exists in Hex as (d & Hd%list_elem_of_In & Hc).
    apply contested_direction in Hc as (? & ? & ?); [|done].
    split; [apply in_bounds_spec; lia|]. split; [done|].
    exists (x + d.1, y + d.2). split; [by apply (adjacent_dir (x, y))|done].
  - intros ([Hx Hy]%in_bounds_spec & Hne & n & Hadj & Hn).
    exists p.2. split; [|by apply elem_of_range].
    apply list_elem_of_bind. exists p.1. split; [|by apply elem_of_range].
    apply list_elem_of_fmap in Hadj as (d & -> & Hd). simpl in Hn.
    rewrite bool_decide_eq_false_2; [done|]. cbn [negb andb].
    assert (existsb (λ d : pos,
               in_bounds (size b) (p.1 + d.1) (p.2 + d.2)
               && negb (bool_decide (cell (board b) (p.1 + d.1) (p.2 + d.2) = 0))
               && negb (bool_decide (cell (board b) (p.1 + d.1) (p.2 + d.2)
                                     = cell (board b) p.1 p.2)))
             directions = true) as ->.
    { apply existsb_exists. exists d. split; [by apply list_elem_of_In|].
      by apply contested_direction. }
    destruct p. by apply list_elem_of_singleton.
Qed.

(** X24.  [_find_fight_areas] returns at most ten points; each of them is a
    stone with an in-range neighbour that holds a stone of the other colour;
    and when it returns fewer than ten, it returns every such stone. *)
Theorem find_fight_areas_spec (b : GoBoard) :
  (length (DeepSeekAI._find_fight_areas b) ≤ 10)%nat ∧
  (∀ p, p ∈ DeepSeekAI._find_fight_areas b → contested b p) ∧
  ((length (DeepSeekAI._find_fight_areas b) < 10)%nat →
   ∀ p, contested b p → p ∈ DeepSeekAI._find_fight_areas b).
Proof.
  unfold DeepSeekAI._find_fight_areas. cbv zeta.
  set (scan := range (size b) ≫= _).
  assert (∀ p, p ∈ scan ↔ contested b p) as Hscan
    by (intros p; apply elem_of_fight_scan).
  split; [rewrite length_take; lia|]. split.
  - intros p Hp. apply Hscan. eapply elem_of_sublist; [exact Hp|apply sublist_take].
  - intros Hlen p Hp. rewrite take_ge; [|by apply Hscan].
    rewrite length_take in Hlen. lia.
Qed.

(* ===================================================================== *)
(** * The analysis of a position                                           *)
(* ===================================================================== *)

Lemma territory_scan_counts b (l : list pos) (bk wh ne : Z) :
  cells_ok (board b) →
  let r := foldl (λ acc (p : pos), App.territory_cell b acc p.1 p.2)
                 (bk, wh, ne) l in
  r.1.1 = bk + stones_in b 1 l + owned_in b 1 l ∧
  r.1.2 = wh + stones_in b 2 l + owned_in b 2 l ∧
  r.1.1 + r.1.2 + r.2 = bk + wh + ne + Z.of_nat (length l).
Proof.
  intros Hcells. revert bk wh ne.
  induction l as [|[x y] l IH]; intros bk wh ne.
  { rewrite /stones_in /owned_in /=. lia. }
  cbn [foldl fst snd]. unfold stones_in, owned_in in *.
  rewrite !filter_cons. cbn [fst snd length].
  pose proof (cells_ok_cell (board b) x y Hcells) as Hcell.
  pose proof (owner_of_stone b x y) as Hown.
  unfold App.territory_cell at 2 4 6 8 10.
  repeat case_bool_decide;
    match goal with
    | |- context [foldl _ (?bk', ?wh', ?ne') l] =>
        destruct (IH bk' wh' ne') as (-> & -> & ?)
    end;
    repeat case_decide; simpl; lia.
Qed.

(** X25.  On a grid of cells in {0, 1, 2}, [_analyze_territory] counts for
    each colour its stones and the empty cells that [_get_territory_owner]
    gives it; the three counts add up to the number of cells; and they are
    what [get_score] adds to [captured_black] and to
    [captured_white + 6.5]. *)
Theorem analyze_territory_counts (b : GoBoard) :
  cells_ok (board b) →
  let t := App._analyze_territory b in
  App.black t = on_board b 1 + territory b 1 ∧
  App.white t = on_board b 2 + territory b 2 ∧
  App.black t + App.white t + App.neutral t
    = Z.of_nat (Z.to_nat (size b) * Z.to_nat (size b)) ∧
  App.black_advantage t = App.black t - App.white t ∧
  (get_score b).1 = captured_black b + App.black t ∧
  Qeq (get_score b).2
      (inject_Z (captured_white b) + 6.5 + inject_Z (App.white t)).
Proof.
  intros Hcells. cbv zeta. unfold App._analyze_territory.
  rewrite -(scan_foldl (App.territory_cell b)).
  fold (all_cells (size b)).
  pose proof (territory_scan_counts b (all_cells (size b)) 0 0 0 Hcells) as Hscan.
  cbv zeta in Hscan.
  destruct (foldl _ (0, 0, 0) (all_cells (size b))) as [[bk wh] ne].
  cbn [fst snd] in Hscan. destruct Hscan as (Hb & Hw & Hsum).
  cbn [App.black App.white App.neutral App.black_advantage].
  rewrite length_all_cells in Hsum.
  unfold on_board, territory.
  split; [lia|]. split; [lia|]. split; [lia|]. split; [done|].
  rewrite get_score_scan.
  destruct (score_scan_counts b (all_cells (size b)) (captured_black b)
              (inject_Z (captured_white b) + 6.5)%Q) as [-> Hq].
  split; [lia|].
  eapply Qeq_trans; [exact Hq|]. apply Qplus_inj_l.
  apply inject_Z_injective. lia.
Qed.

Lemma analyze_territory_counts_witness :
  let t := App._analyze_territory ko_position in
  App.black t = on_board ko_position 1 + territory ko_position 1 ∧
  App.white t = on_board ko_position 2 + territory ko_position 2 ∧
  App.black t + App.white t + App.neutral t
    = Z.of_nat (Z.to_nat (size ko_position) * Z.to_nat (size ko_position)) ∧
  App.black_advantage t = App.black t - App.white t ∧
  (get_score ko_position).1 = captured_black ko_position + App.black t ∧
  Qeq (get_score ko_position).2
      (inject_Z (captured_white ko_position) + 6.5 + inject_Z (App.white t)).
Proof.
  apply (analyze_territory_counts ko_position).
  apply (ok_cells _ (reachable_ok 9 ko_position
                       (plays_reachable 9 _ _ (reachable_init 9)))).
Defined.

Section strength.

Context (b : GoBoard) (c : Z).

Lemma strength_cell_inv seen st (p : pos) :
  in_bounds (size b) p.1 p.2 = true →
  strength_inv b c seen st →
  strength_inv b c (seen ++ [p]) (App.strength_cell b c st p.1 p.2).
Proof.
  destruct p as [x y]. cbn [fst snd]. intros Hp.
  destruct st as [[stones groups] visited].
  intros (Hvis & Hstones & Hgroups). cbn [fst snd] in *.
  unfold App.strength_cell, strength_inv.
  rewrite filter_app fmap_app list_to_set_app_L filter_cons filter_nil.
  cbn [fst snd].
  change (Tactical._get_group b x y c)
    with (Tactical._get_group_board (size b) (board b) x y c).
  rewrite get_group_board_eq.
  assert (∀ p', p' ∈ seen → ∀ q, connected (size b) (board b) c p' q →
            p' ∈ filter (λ p : pos, cell (board b) p.1 p.2 = c) seen) as Hfilter.
  { intros p' Hp' q [_ Hc]%connected_stone_l. by apply list_elem_of_filter. }
  case_bool_decide as Hcell; cbn [andb].
  - assert (connected (size b) (board b) c (x, y) (x, y)) as Hrefl
      by by apply connected_refl.
    rewrite decide_True; [done|].
    rewrite fmap_cons fmap_nil list_to_set_cons list_to_set_nil.
    cbn [fst snd].
    case_bool_decide as Hin; cbn [negb fst snd].
    + apply Hvis in Hin as (p' & Hp' & Hconn).
      split; [|split; [done|]].
      * intros q. rewrite Hvis. split.
        -- intros (p'' & Hp'' & Hq). exists p''. split; [|done].
           apply elem_of_app. by left.
        -- intros (p'' & [Hp''| ->%list_elem_of_singleton]%elem_of_app & Hq);
             [by exists p''|].
           exists p'. split; [done|].
           exact (connected_trans _ _ _ _ _ _ Hconn Hq).
      * rewrite Hgroups. f_equal.
        assert (_get_group_at (size b) (board b) x y c
                ∈ (list_to_set
                     ((λ p : pos, _get_group_at (size b) (board b) p.1 p.2 c)
                        <$> filter (λ p : pos, cell (board b) p.1 p.2 = c) seen)
                   : gset (gset pos))) as Hold.
        { apply elem_of_list_to_set, list_elem_of_fmap. exists p'.
          split; [|by eapply Hfilter].
          destruct p' as [x' y']. symmetry. by apply get_group_at_eq. }
        set_solver.
    + assert (∀ q, q ∈ visited →
                q ∉ _get_group_at (size b) (board b) x y c) as Hdisj.
      { intros q (p' & Hp' & Hconn)%Hvis Hq%get_group_at_spec.
        apply Hin, Hvis. exists p'. split; [done|].
        eapply connected_trans; [exact Hconn|by apply connected_sym]. }
      split; [|split].
      * intros q. rewrite elem_of_union Hvis get_group_at_spec. split.
        -- intros [(p'' & Hp'' & Hq)|Hq].
           ++ exists p''. split; [|done]. apply elem_of_app. by left.
           ++ exists (x, y). split; [|done]. apply elem_of_app. right. by left.
        -- intros (p'' & [Hp''| ->%list_elem_of_singleton]%elem_of_app & Hq);
             [left; by exists p''|by right].
      * rewrite size_union; [set_solver|]. lia.
      * rewrite length_app Hgroups. cbn [length].
        rewrite size_union.
        { apply disjoint_union_r. split; [|set_solver].
          apply disjoint_singleton_r.
          intros ([x' y'] & Heq & Hp')%elem_of_list_to_set%list_elem_of_fmap.
          apply list_elem_of_filter in Hp' as [Hc' Hp']. cbn [fst snd] in *.
          apply (Hdisj (x, y)).
          - apply Hvis. exists (x', y'). split; [done|].
            apply get_group_at_spec. rewrite -Heq.
            by apply get_group_at_spec.
          - by apply get_group_at_spec. }
        rewrite size_union; [set_solver|].
        rewrite size_singleton size_empty. lia.
  - rewrite decide_False; [done|]. rewrite fmap_nil list_to_set_nil.
    cbn [fst snd]. split; [|split; [done|]].
    + intros q. rewrite Hvis. split.
      * intros (p'' & Hp'' & Hq). exists p''. split; [|done].
        apply elem_of_app. by left.
      * intros (p'' & [Hp''| ->%list_elem_of_singleton]%elem_of_app & Hq);
          [by exists p''|].
        by apply connected_stone_l in Hq as [_ ?].
    + rewrite Hgroups. f_equal. set_solver.
Qed.

Lemma strength_scan_inv l seen st :
  (∀ p, p ∈ l → in_bounds (size b) p.1 p.2 = true) →
  strength_inv b c seen st →
  strength_inv b c (seen ++ l)
    (foldl (λ st (p : pos), App.strength_cell b c st p.1 p.2) st l).
Proof.
  revert seen st. induction l as [|p l IH]; intros seen st Hl Hinv.
  - by rewrite app_nil_r.
  - cbn [foldl].
    rewrite (assoc_L (++) seen [p] l : seen ++ p :: l = (seen ++ [p]) ++ l).
    apply IH; [intros q Hq; apply Hl; by right|].
    apply strength_cell_inv; [apply Hl; by left|done].
Qed.

End strength.

(** X26.  [_analyze_player_strength] reports as [stones] the number of
    cells of the colour on the grid, and as [groups] the number of its
    connected groups: every group is counted once, however many of its
    stones the scan meets. *)
Theorem analyze_player_strength_counts (round1 : Q → Q) (b : GoBoard)
    (player : Z) :
  let r := App._analyze_player_strength round1 b player in
  App.stones r = on_board b player ∧
  App.groups r = Z.of_nat (base.size (groups_of b player)).
Proof.
  cbv zeta. unfold App._analyze_player_strength.
  rewrite -(scan_foldl (App.strength_cell b player)).
  fold (all_cells (size b)).
  pose proof (strength_scan_inv b player (all_cells (size b)) [] (0, [], ∅))
    as Hinv.
  destruct (foldl _ (0, [], ∅) (all_cells (size b))) as [[stones groups] visited].
  destruct Hinv as (Hvis & Hstones & Hgroups).
  { intros p. apply elem_of_all_cells. }
  { split; [|done]. cbn [fst snd]. intros q. split; [set_solver|].
    by intros (p & ?%elem_of_nil & _). }
  cbn [fst snd app] in *. cbn [App.stones App.groups]. split.
  - rewrite Hstones. unfold on_board, stones_in. f_equal.
    rewrite count_cells_size. f_equal. apply set_eq. intros q.
    rewrite Hvis elem_of_cells_of. split.
    + intros (p & _ & Hq). exact (connected_stone_r _ _ _ _ _ Hq).
    + intros Hq. exists q. split; [by apply elem_of_all_cells; destruct Hq|].
      by apply connected_refl.
  - unfold groups_of. by rewrite Hgroups.
Qed.

(* ===================================================================== *)
(** * The move of the selector, as the manager plays it                    *)
(* ===================================================================== *)

Lemma refresh_ai_move b w (r : GameManager.response) :
  GameManager.refresh b w r !! "ai_move" = r !! "ai_move".
Proof. apply lookup_refresh. set_solver. Qed.

Lemma with_score_ai_move b (r : GameManager.response) :
  GameManager.with_score b r !! "ai_move" = r !! "ai_move".
Proof. by apply lookup_with_score. Qed.

Ltac answer_ai_move :=
  repeat first
    [ rewrite with_score_ai_move
    | rewrite refresh_ai_move
    | rewrite lookup_insert_ne; [discriminate|] ];
  by rewrite lookup_insert_eq.

(** X27.  When [random.choice] returns a member of its list, a call of
    [make_ai_move] on the selector's turn that returns has played for the
    selector: a pass exactly when the board has no legal move, and otherwise
    a legal move, which [place_stone] accepts and after which the game is
    not marked over.  A call that raises has changed nothing. *)
Theorem make_ai_move_plays_legal (h : helpers) (gm : GameManager.games)
    (game_id : string) (g : GameManager.Game) :
  (∀ k l, l ≠ [] → choice h k l ∈ l) →
  gm !! game_id = Some g → GameManager.game_over g = false →
  current_player (GameManager.game_board g) = GameManager.game_ai_color g →
  match GameManager.make_ai_move h gm game_id with
  | (inr r, gm') =>
      if decide (get_valid_moves (GameManager.game_board g) = []) then
        r !! "ai_move" = Some GameManager.VNone ∧
        gm' = <[game_id :=
                  GameManager.with_board g (pass_move (GameManager.game_board g))
                    (is_game_over (pass_move (GameManager.game_board g)))]> gm
      else
        ∃ x y, is_valid_move (GameManager.game_board g) x y = true ∧
               r !! "ai_move" = Some (GameManager.VMove x y) ∧
               gm' = <[game_id :=
                         GameManager.with_board g
                           (placed (GameManager.game_board g) x y) false]> gm
  | (inl e, gm') => gm' = gm
  end.
Proof.
  intros Hchoice Hgame Hover Hturn.
  unfold GameManager.make_ai_move, GameManager.get_game.
  rewrite Hgame Hover. cbv zeta.
  rewrite bool_decide_eq_true_2; [done|]. cbn [negb].
  destruct (get_move h (GameManager.game_ai g) (GameManager.game_board g))
    as [e|[[x y] msg]] eqn:Hmove; [done|].
  apply get_move_legal in Hmove; [|done].
  case_decide as Hmoves.
  - injection Hmove as -> ->.
    rewrite bool_decide_eq_false_2; [lia|].
    destruct (is_game_over (pass_move (GameManager.game_board g)));
      unfold ret; cbv beta iota; (split; [answer_ai_move|done]).
  - destruct Hmove as [_ Hv].
    pose proof Hv as (Hxy%in_bounds_spec & _)%is_valid_move_spec.
    rewrite bool_decide_eq_true_2; [lia|].
    pose proof (is_game_over_placed _ x y Hv) as Hend.
    destruct (place_stone_valid _ x y Hv) as [_ Hplaced].
    destruct (place_stone (GameManager.game_board g) x y)
      as [[success message] b'].
    cbn [snd] in Hend, Hplaced. subst b'. rewrite Hend.
    unfold ret. cbv beta iota. exists x, y.
    split; [done|]. split; [answer_ai_move|done].
Qed.

Lemma make_ai_move_plays_legal_witness :
  match GameManager.make_ai_move
          (Tactical.source_helpers (λ _, 0%Q) (λ _ l, default (0, 0) (head l)))
          {[ "g" := GameManager.mkGame atari_position "easy" 1
                      (create_ai (init 9) 1 "easy") false true ]} "g" with
  | (inr r, gm') =>
      if decide (get_valid_moves atari_position = []) then
        r !! "ai_move" = Some GameManager.VNone ∧
        gm' = <["g" :=
                  GameManager.with_board
                    (GameManager.mkGame atari_position "easy" 1
                       (create_ai (init 9) 1 "easy") false true)
                    (pass_move atari_position)
                    (is_game_over (pass_move atari_position))]>
                {[ "g" := GameManager.mkGame atari_position "easy" 1
                            (create_ai (init 9) 1 "easy") false true ]}
      else
        ∃ x y, is_valid_move atari_position x y = true ∧
               r !! "ai_move" = Some (GameManager.VMove x y) ∧
               gm' = <["g" :=
                         GameManager.with_board
                           (GameManager.mkGame atari_position "easy" 1
                              (create_ai (init 9) 1 "easy") false true)
                           (placed atari_position x y) false]>
                       {[ "g" := GameManager.mkGame atari_position "easy" 1
                                   (create_ai (init 9) 1 "easy") false true ]}
  | (inl e, gm') =>
      gm' = {[ "g" := GameManager.mkGame atari_position "easy" 1
                        (create_ai (init 9) 1 "easy") false true ]}
  end.
Proof.
  apply (make_ai_move_plays_legal
           (Tactical.source_helpers (λ _, 0%Q) (λ _ l, default (0, 0) (head l)))
           {[ "g" := GameManager.mkGame atari_position "easy" 1
                       (create_ai (init 9) 1 "easy") false true ]}
           "g"
           (GameManager.mkGame atari_position "easy" 1
              (create_ai (init 9) 1 "easy") false true)).
  - intros k [|p l] Hne; [done|]. simpl. by left.
  - apply lookup_singleton_eq.
  - done.
  - by vm_compute.
Defined.

(* ===================================================================== *)
(** * The winner                                                           *)
(* ===================================================================== *)

(** X28.  The white score of [get_score] is an integer and a half, so the
    two scores are never equal, and the winner that the manager reports is
    black exactly when black's score is the larger one. *)
Theorem get_score_never_tied (b : GoBoard) :
  (∃ k : Z, Qeq (get_score b).2 (inject_Z k + 0.5)) ∧
  (Qlt (inject_Z (get_score b).1) (get_score b).2
   ∨ Qlt (get_score b).2 (inject_Z (get_score b).1)) ∧
  (GameManager.winner (get_score b).1 (get_score b).2 = "black" ↔
   Qlt (get_score b).2 (inject_Z (get_score b).1)).
Proof.
  assert (∃ k : Z, Qeq (get_score b).2 (inject_Z k + 0.5)) as [k Hk].
  { rewrite get_score_scan.
    destruct (score_scan_counts b (all_cells (size b)) (captured_black b)
                (inject_Z (captured_white b) + 6.5)%Q) as [_ Hq].
    exists (captured_white b + 6
            + (stones_in b 2 (all_cells (size b))
               + owned_in b 2 (all_cells (size b)))).
    eapply Qeq_trans; [exact Hq|].
    unfold Qeq, Qplus, inject_Z. simpl. lia. }
  split; [by exists k|].
  destruct (get_score b) as [bk wh]. cbn [fst snd] in *. split.
  - destruct (decide (bk ≤ k)).
    + left. rewrite Hk. unfold Qlt. simpl. lia.
    + right. rewrite Hk. unfold Qlt. simpl. lia.
  - unfold GameManager.winner, Qgtb.
    destruct (Qle_bool (inject_Z bk) wh) eqn:Hle; cbn [negb].
    + apply Qle_bool_iff in Hle. split; [done|].
      intros Hlt. exfalso. exact (Qlt_not_le _ _ Hlt Hle).
    + split; [|done]. intros _. apply Qnot_le_lt. intros Hle'.
      apply Qle_bool_iff in Hle'. congruence.
Qed.

(* ===================================================================== *)
(** * The best move of the easy and the medium tier                        *)
(* ===================================================================== *)





Section best.

Context (score : nat → pos → Q).



End best.



(* ===================================================================== *)
(** * The best move of the hard tier                                       *)
(* ===================================================================== *)



